(** * Removal of nested functions (compiler/traversals/removeNestedFunctions.cpp)

    A shallow embedding of the pass that lifts nested function definitions
    to module level, together with the properties of the pass that the
    design document states.

    Pointers are modelled by the object they designate: a [Symbol] record
    carries the identity ([sym_id], the address) of the symbol object, and
    pointer comparison is equality of records.  A pointer that may be NULL
    is an [option]; reading through a NULL [Vec] pointer makes the pass
    answer [None].

    A module is the list of its statements.  The [parentSymbol] field of an
    AST node is not stored in the node: the walk carries it along.  The
    members of [class RemoveNestedFunctions] are threaded through the
    callbacks as an explicit state.

    The pass is written against parts of the compiler that are not among
    the sources embedded here (the AST classes, the traversal framework,
    [UpdateSymbols], [FindEnclosingScopeVarUses], [collect_functions],
    [Symboltable]); each of them is modelled from the design document and
    marked as such where it is defined. *)

From Stdlib Require Import List String Arith Bool Lia PeanoNat.
Import ListNotations.

Set Implicit Arguments.

(* ================================================================= *)
(** ** Symbols *)

Inductive intentTag :=
| INTENT_BLANK | INTENT_IN | INTENT_INOUT | INTENT_OUT | INTENT_REF.

(** The dynamic class of a symbol object, as [dynamic_cast] sees it. *)
Inductive symClass :=
| VAR_SYMBOL
| ARG_SYMBOL (intent : intentTag)
| FN_SYMBOL.

Record Symbol := mkSymbol {
  sym_id : nat;          (* identity of the object *)
  sym_name : string;     (* Symbol::name *)
  sym_type : nat;        (* Symbol::type, a Type* *)
  sym_class : symClass
}.

Definition intentTag_eq_dec (a b : intentTag) : {a = b} + {a <> b}.
Proof. decide equality. Defined.

Definition symClass_eq_dec (a b : symClass) : {a = b} + {a <> b}.
Proof. decide equality. apply intentTag_eq_dec. Defined.

Definition Symbol_eq_dec (a b : Symbol) : {a = b} + {a <> b}.
Proof.
  decide equality.
  - apply symClass_eq_dec.
  - apply Nat.eq_dec.
  - apply string_dec.
  - apply Nat.eq_dec.
Defined.

Definition SymbolPtr_eq_dec (a b : option Symbol) : {a = b} + {a <> b}.
Proof. decide equality. apply Symbol_eq_dec. Defined.

(* ================================================================= *)
(** ** Vec and Map

    [Vec<C>] is used by the pass as a growable array: [add] appends,
    [in] is a linear search, [add_exclusive] appends unless present,
    [length] is the number of slots.  [Map<K,V>] is a finite map whose
    [get] answers NULL on a missing key. *)

Section VecOps.
Variable C : Type.
Variable C_eq_dec : forall a b : C, {a = b} + {a <> b}.

Definition Vec_add (v : list C) (a : C) : list C := v ++ [a].

Definition Vec_in (v : list C) (a : C) : bool :=
  if in_dec C_eq_dec a v then true else false.

Definition Vec_add_exclusive (v : list C) (a : C) : list C :=
  if Vec_in v a then v else Vec_add v a.
End VecOps.

Section MapOps.
Variable V : Type.

Definition Map := list (Symbol * V).

Fixpoint Map_get (m : Map) (k : Symbol) : option V :=
  match m with
  | [] => None
  | (k', v) :: m' => if Symbol_eq_dec k k' then Some v else Map_get m' k
  end.

Fixpoint Map_put (m : Map) (k : Symbol) (v : V) : Map :=
  match m with
  | [] => [(k, v)]
  | (k', v') :: m' =>
      if Symbol_eq_dec k k' then (k, v) :: m' else (k', v') :: Map_put m' k v
  end.
End MapOps.

(** A [Vec<Symbol*>]: its slots may hold NULL. *)
Definition SymVec := list (option Symbol).

(* ================================================================= *)
(** ** The AST

    [ExprStmt], [BlockStmt] and [CondStmt] are statements; [SymExpr],
    [CallExpr] and [DefExpr] are expressions.  A [DefExpr] owns the symbol
    it defines; when that symbol is a [FnSymbol] it owns the formals (each
    entry stands for the [DefExpr] of an [ArgSymbol]) and the body.  A
    field holding a block (a function body, the branches of a conditional)
    is the statement list of that block. *)

Unset Elimination Schemes.
Inductive Expr :=
| SymExpr (var : Symbol)
| CallExpr (baseExpr : Expr) (argList : list Expr)
| DefExpr (sym : DefSym)
with DefSym :=
| VarSymbol (sym : Symbol)
| FnSymbol (sym : Symbol) (formals : list Symbol) (body : list Stmt)
with Stmt :=
| ExprStmt (expr : Expr)
| BlockStmt (body : list Stmt)
| CondStmt (condExpr : Expr) (thenStmt : list Stmt) (elseStmt : list Stmt).
Set Elimination Schemes.

(** [parentSymbol] of an AST node: the module, or the function whose
    formals or body contain the node. *)
Inductive ParentSymbol :=
| ModuleSymbol
| ParentFn (fn : Symbol).

(** Induction over the three syntactic classes at once. *)
Section AstInd.
Variables (PE : Expr -> Prop) (PD : DefSym -> Prop) (PS : Stmt -> Prop).
Hypothesis HSym : forall v, PE (SymExpr v).
Hypothesis HCall : forall b args, PE b -> Forall PE args -> PE (CallExpr b args).
Hypothesis HDef : forall d, PD d -> PE (DefExpr d).
Hypothesis HVar : forall s, PD (VarSymbol s).
Hypothesis HFn : forall s fs b, Forall PS b -> PD (FnSymbol s fs b).
Hypothesis HExprStmt : forall e, PE e -> PS (ExprStmt e).
Hypothesis HBlock : forall l, Forall PS l -> PS (BlockStmt l).
Hypothesis HCond : forall c t e,
    PE c -> Forall PS t -> Forall PS e -> PS (CondStmt c t e).

Fixpoint Expr_ast_ind (e : Expr) : PE e :=
  match e with
  | SymExpr v => HSym v
  | CallExpr b args =>
      HCall (Expr_ast_ind b)
            ((fix go (l : list Expr) : Forall PE l :=
                match l with
                | [] => Forall_nil _
                | a :: l' => Forall_cons a (Expr_ast_ind a) (go l')
                end) args)
  | DefExpr d => HDef (DefSym_ast_ind d)
  end
with DefSym_ast_ind (d : DefSym) : PD d :=
  match d with
  | VarSymbol s => HVar s
  | FnSymbol s fs b =>
      HFn s fs
          ((fix go (l : list Stmt) : Forall PS l :=
              match l with
              | [] => Forall_nil _
              | a :: l' => Forall_cons a (Stmt_ast_ind a) (go l')
              end) b)
  end
with Stmt_ast_ind (s : Stmt) : PS s :=
  let go := fix go (l : list Stmt) : Forall PS l :=
              match l with
              | [] => Forall_nil _
              | a :: l' => Forall_cons a (Stmt_ast_ind a) (go l')
              end in
  match s with
  | ExprStmt e => HExprStmt (Expr_ast_ind e)
  | BlockStmt l => HBlock (go l)
  | CondStmt c t e => HCond (Expr_ast_ind c) (go t) (go e)
  end.
End AstInd.

(* ================================================================= *)
(** ** UpdateSymbols

    Modelled from the spec: the traversal [UpdateSymbols(map, NULL)]
    (updateSymbols.h is not part of the sources at hand) "substitutes one
    symbol for another throughout a subtree": every [SymExpr] whose
    variable is a key of the map is made to refer to the mapped symbol. *)

Fixpoint UpdateSymbols_expr (m : Map Symbol) (e : Expr) : Expr :=
  match e with
  | SymExpr v =>
      match Map_get m v with
      | Some v' => SymExpr v'
      | None => SymExpr v
      end
  | CallExpr b args =>
      CallExpr (UpdateSymbols_expr m b) (map (UpdateSymbols_expr m) args)
  | DefExpr d => DefExpr (UpdateSymbols_def m d)
  end
with UpdateSymbols_def (m : Map Symbol) (d : DefSym) : DefSym :=
  match d with
  | VarSymbol s => VarSymbol s
  | FnSymbol s fs b => FnSymbol s fs (map (UpdateSymbols m) b)
  end
with UpdateSymbols (m : Map Symbol) (s : Stmt) : Stmt :=
  match s with
  | ExprStmt e => ExprStmt (UpdateSymbols_expr m e)
  | BlockStmt l => BlockStmt (map (UpdateSymbols m) l)
  | CondStmt c t e =>
      CondStmt (UpdateSymbols_expr m c)
               (map (UpdateSymbols m) t) (map (UpdateSymbols m) e)
  end.

(* ================================================================= *)
(** ** The state of the pass *)

(** The four members of [class RemoveNestedFunctions], and the supply of
    identities for the symbol objects the pass allocates.

    [_fn_stmts_completed_so_far] holds pointers to the lifted copies, the
    very objects that [postProcessStmt] inserts at the tail of the module's
    statement list: a substitution run over the completed statements
    changes the module's statements.  The model keeps the objects once, in
    this field, in insertion order, and the module's final statement list
    ends with them. *)
Record RemoveNestedFunctions := mkPass {
  _nested_func_args_map : Map SymVec;
  _nested_func_sym_map : Map Symbol;
  _fn_call_worklist : list Symbol;
  _fn_stmts_completed_so_far : list Stmt;
  next_sym_id : nat
}.

Definition set_sym_map (st : RemoveNestedFunctions) (m : Map Symbol) :=
  mkPass (_nested_func_args_map st) m (_fn_call_worklist st)
         (_fn_stmts_completed_so_far st) (next_sym_id st).

Definition set_worklist (st : RemoveNestedFunctions) (w : list Symbol) :=
  mkPass (_nested_func_args_map st) (_nested_func_sym_map st) w
         (_fn_stmts_completed_so_far st) (next_sym_id st).

Definition set_completed (st : RemoveNestedFunctions) (c : list Stmt) :=
  mkPass (_nested_func_args_map st) (_nested_func_sym_map st)
         (_fn_call_worklist st) c (next_sym_id st).

Definition set_next_sym_id (st : RemoveNestedFunctions) (n : nat) :=
  mkPass (_nested_func_args_map st) (_nested_func_sym_map st)
         (_fn_call_worklist st) (_fn_stmts_completed_so_far st) n.

(* ================================================================= *)
(** ** Collaborators of the pass that are not in the sources at hand *)

(** Modelled from the spec: [CallExpr::findFnSymbol] (expr.h is missing)
    gives "the FunctionSymbol [the call] statically resolves to": the
    symbol the base expression refers to when that symbol is a function. *)
Definition findFnSymbol (baseExpr : Expr) : option Symbol :=
  match baseExpr with
  | SymExpr v =>
      match sym_class v with
      | FN_SYMBOL => Some v
      | _ => None
      end
  | _ => None
  end.

(** Modelled from the spec: [Symboltable::defineParam] (symtab.h is missing)
    allocates a new [ArgSymbol] of the given intent and name; its type is
    left NULL (0) by the two NULL arguments of the call. *)
Definition defineParam (intent : intentTag) (name : string) (id : nat) : Symbol :=
  mkSymbol id name 0 (ARG_SYMBOL intent).

Definition set_type (s : Symbol) (t : nat) : Symbol :=
  mkSymbol (sym_id s) (sym_name s) t (sym_class s).

(** Modelled from the spec: [ExprStmt::copy(true)] (stmt.h is missing) is
    "a structural copy of the function's defining statement"; the copy of
    a function definition defines a new function symbol.  [copy] gives the
    expression of the copied [ExprStmt]. *)
Definition copy (expr : Expr) (id : nat) : Expr :=
  match expr with
  | DefExpr (FnSymbol s fs b) =>
      DefExpr (FnSymbol (mkSymbol id (sym_name s) (sym_type s) (sym_class s)) fs b)
  | _ => expr
  end.

(* ================================================================= *)
(** ** The callbacks of the pass *)

(** [hasEnclosingFunction(fn_def)] is
    [dynamic_cast<FnSymbol*>(fn_def->parentSymbol)]; it is given the
    parent symbol of the definition. *)
Definition hasEnclosingFunction (parentSymbol : ParentSymbol) : option Symbol :=
  match parentSymbol with
  | ParentFn fn => Some fn
  | ModuleSymbol => None
  end.

(** One round of the loop of [addNestedFuncFormals]: the formals built so
    far, the update map and the next free identity. *)
Definition add_formal (acc : list Symbol * Map Symbol * nat) (sym : option Symbol)
  : list Symbol * Map Symbol * nat :=
  match sym with
  | Some s =>
      let '(formals, update_map, next) := acc in
      let formal := set_type (defineParam INTENT_INOUT (sym_name s) next)
                             (sym_type s) in
      (Vec_add formals formal, Map_put update_map s formal, S next)
  | None => acc
  end.

Definition addNestedFuncFormals (expr : Expr) (encl_var_uses : SymVec)
    (old_func_sym : Symbol) (st : RemoveNestedFunctions)
  : Expr * RemoveNestedFunctions :=
  match expr with
  | DefExpr (FnSymbol fn_sym formals body) =>
      let sym_map := Map_put (_nested_func_sym_map st) old_func_sym fn_sym in
      let '(formals', update_map, next) :=
        fold_left add_formal encl_var_uses (formals, [], next_sym_id st) in
      let body' :=
        if Nat.eqb (List.length encl_var_uses) 0 then body
        else map (UpdateSymbols update_map) body in
      (DefExpr (FnSymbol fn_sym formals' body'),
       set_next_sym_id (set_sym_map st sym_map) next)
  | _ => (expr, st)
  end.

(** One round of the loop of [addNestedFuncActuals]. *)
Definition add_actual (argList : list Expr) (sym : option Symbol) : list Expr :=
  match sym with
  | Some s => Vec_add argList (SymExpr s)
  | None => argList
  end.

Definition addNestedFuncActuals (baseExpr : Expr) (argList : list Expr)
    (encl_var_uses : SymVec) (old_func_sym : Symbol)
    (st : RemoveNestedFunctions) : Expr * RemoveNestedFunctions :=
  let new_func_sym :=
    match Map_get (_nested_func_sym_map st) old_func_sym with
    | Some s => match sym_class s with FN_SYMBOL => Some s | _ => None end
    | None => None
    end in
  let argList' := fold_left add_actual encl_var_uses argList in
  match new_func_sym with
  | Some new_sym => (CallExpr (SymExpr new_sym) argList', st)
  | None =>
      (CallExpr baseExpr argList',
       set_worklist st
         (Vec_add_exclusive Symbol_eq_dec (_fn_call_worklist st) old_func_sym))
  end.

Definition postProcessExpr (expr : Expr) (st : RemoveNestedFunctions)
  : Expr * RemoveNestedFunctions :=
  match expr with
  | CallExpr baseExpr argList =>
      match findFnSymbol baseExpr with
      | Some fn_sym =>
          match Map_get (_nested_func_args_map st) fn_sym with
          | Some encl_func_var_uses =>
              addNestedFuncActuals baseExpr argList encl_func_var_uses fn_sym st
          | None => (expr, st)
          end
      | None => (expr, st)
      end
  | _ => (expr, st)
  end.

(** [postProcessStmt] answers the statements that stand where [stmt] stood
    (none once [stmt] is removed), or [None] when the pass dereferences a
    NULL [Vec] ([addNestedFuncFormals] reads [*encl_var_uses] unguarded).
    The copy is a new object, so [add_exclusive] on the completed
    statements always appends it; [module_stmts->insertAtTail(fn_copy)]
    puts the same object at the tail of the module, which the model reads
    off [_fn_stmts_completed_so_far] when the walk is over (see [run]). *)
Definition postProcessStmt (parentSymbol : ParentSymbol) (stmt : Stmt)
    (st : RemoveNestedFunctions) : option (list Stmt * RemoveNestedFunctions) :=
  match stmt with
  | ExprStmt (DefExpr (FnSymbol fn_sym _ _) as expr) =>
      match hasEnclosingFunction parentSymbol with
      | Some _ =>
          match Map_get (_nested_func_args_map st) fn_sym with
          | None => None
          | Some encl_func_var_uses =>
              let fn_copy := copy expr (next_sym_id st) in
              let st1 := set_next_sym_id st (S (next_sym_id st)) in
              let '(fn_copy', st2) :=
                addNestedFuncFormals fn_copy encl_func_var_uses fn_sym st1 in
              let st3 :=
                set_completed st2
                  (Vec_add (_fn_stmts_completed_so_far st2) (ExprStmt fn_copy')) in
              let st4 :=
                if Vec_in Symbol_eq_dec (_fn_call_worklist st3) fn_sym
                then set_completed st3
                       (map (UpdateSymbols (_nested_func_sym_map st3))
                            (_fn_stmts_completed_so_far st3))
                else st3 in
              Some ([], st4)
          end
      | None => Some ([stmt], st)
      end
  | _ => Some ([stmt], st)
  end.

(* ================================================================= *)
(** ** The traversal that drives the callbacks

    Modelled from the spec: the traversal framework (traversal.h) is not in
    the sources at hand.  It "calls back into this pass once per statement
    (post-order) and once per expression (post-order) during a single
    module-wide walk", the statements of a list in textual order.  The
    walk covers the statements the module holds when it starts; the copies
    appended meanwhile are not walked. *)

Definition traverse_exprs
    (f : Expr -> RemoveNestedFunctions -> option (Expr * RemoveNestedFunctions))
  : list Expr -> RemoveNestedFunctions
    -> option (list Expr * RemoveNestedFunctions) :=
  fix go l st :=
    match l with
    | [] => Some ([], st)
    | e :: l' =>
        match f e st with
        | None => None
        | Some (e', st1) =>
            match go l' st1 with
            | None => None
            | Some (l'', st2) => Some (e' :: l'', st2)
            end
        end
    end.

Definition traverse_AList
    (f : Stmt -> RemoveNestedFunctions
         -> option (list Stmt * RemoveNestedFunctions))
  : list Stmt -> RemoveNestedFunctions
    -> option (list Stmt * RemoveNestedFunctions) :=
  fix go l st :=
    match l with
    | [] => Some ([], st)
    | s :: l' =>
        match f s st with
        | None => None
        | Some (s', st1) =>
            match go l' st1 with
            | None => None
            | Some (l'', st2) => Some (s' ++ l'', st2)
            end
        end
    end.

Fixpoint traverse_expr (parentSymbol : ParentSymbol) (e : Expr)
    (st : RemoveNestedFunctions) : option (Expr * RemoveNestedFunctions) :=
  match e with
  | SymExpr v => Some (postProcessExpr e st)
  | CallExpr b args =>
      match traverse_expr parentSymbol b st with
      | None => None
      | Some (b', st1) =>
          match traverse_exprs (traverse_expr parentSymbol) args st1 with
          | None => None
          | Some (args', st2) => Some (postProcessExpr (CallExpr b' args') st2)
          end
      end
  | DefExpr d =>
      match traverse_def parentSymbol d st with
      | None => None
      | Some (d', st1) => Some (postProcessExpr (DefExpr d') st1)
      end
  end
with traverse_def (parentSymbol : ParentSymbol) (d : DefSym)
    (st : RemoveNestedFunctions) : option (DefSym * RemoveNestedFunctions) :=
  match d with
  | VarSymbol s => Some (d, st)
  | FnSymbol s fs b =>
      match traverse_AList (traverse_stmt (ParentFn s)) b st with
      | None => None
      | Some (b', st1) => Some (FnSymbol s fs b', st1)
      end
  end
with traverse_stmt (parentSymbol : ParentSymbol) (s : Stmt)
    (st : RemoveNestedFunctions)
  : option (list Stmt * RemoveNestedFunctions) :=
  match s with
  | ExprStmt e =>
      match traverse_expr parentSymbol e st with
      | None => None
      | Some (e', st1) => postProcessStmt parentSymbol (ExprStmt e') st1
      end
  | BlockStmt l =>
      match traverse_AList (traverse_stmt parentSymbol) l st with
      | None => None
      | Some (l', st1) => postProcessStmt parentSymbol (BlockStmt l') st1
      end
  | CondStmt c t e =>
      match traverse_expr parentSymbol c st with
      | None => None
      | Some (c', st1) =>
          match traverse_AList (traverse_stmt parentSymbol) t st1 with
          | None => None
          | Some (t', st2) =>
              match traverse_AList (traverse_stmt parentSymbol) e st2 with
              | None => None
              | Some (e', st3) =>
                  postProcessStmt parentSymbol (CondStmt c' t' e') st3
              end
          end
      end
  end.

(* ================================================================= *)
(** ** The capture analysis *)

(** Modelled from the spec: the scope query (symscope.h is missing)
    "exposes the function's defining statement and parent scope".  The
    variables a function owns are its formals and the variables its body
    defines outside any function nested in it. *)
Fixpoint local_vars_expr (e : Expr) : list Symbol :=
  match e with
  | SymExpr _ => []
  | CallExpr b args => local_vars_expr b ++ flat_map local_vars_expr args
  | DefExpr (VarSymbol s) => [s]
  | DefExpr (FnSymbol _ _ _) => []
  end.

Fixpoint local_vars (s : Stmt) : list Symbol :=
  match s with
  | ExprStmt e => local_vars_expr e
  | BlockStmt l => flat_map local_vars l
  | CondStmt c t e =>
      local_vars_expr c ++ flat_map local_vars t ++ flat_map local_vars e
  end.

(** What the pass reads through a [FnSymbol*]: the symbol, the definition
    ([defPoint]), the parent symbol of the definition and the variables of
    [parentScope] that enclosing functions own. *)
Record FnInfo := mkFnInfo {
  fn_symbol : Symbol;
  fn_formals : list Symbol;
  fn_body : list Stmt;
  fn_parentSymbol : ParentSymbol;
  fn_parentScope : list Symbol
}.

(** Modelled from the spec: [collect_functions] (not in the sources at
    hand) "enumerates all function symbols" of the AST. *)
Fixpoint collect_functions_expr (parent : ParentSymbol) (scope : list Symbol)
    (e : Expr) : list FnInfo :=
  match e with
  | SymExpr _ => []
  | CallExpr b args =>
      collect_functions_expr parent scope b
      ++ flat_map (collect_functions_expr parent scope) args
  | DefExpr d => collect_functions_def parent scope d
  end
with collect_functions_def (parent : ParentSymbol) (scope : list Symbol)
    (d : DefSym) : list FnInfo :=
  match d with
  | VarSymbol _ => []
  | FnSymbol s fs b =>
      mkFnInfo s fs b parent scope
      :: flat_map (collect_functions_stmt (ParentFn s)
                     (scope ++ fs ++ flat_map local_vars b)) b
  end
with collect_functions_stmt (parent : ParentSymbol) (scope : list Symbol)
    (s : Stmt) : list FnInfo :=
  match s with
  | ExprStmt e => collect_functions_expr parent scope e
  | BlockStmt l => flat_map (collect_functions_stmt parent scope) l
  | CondStmt c t e =>
      collect_functions_expr parent scope c
      ++ flat_map (collect_functions_stmt parent scope) t
      ++ flat_map (collect_functions_stmt parent scope) e
  end.

Definition collect_functions (module_stmts : list Stmt) : list FnInfo :=
  flat_map (collect_functions_stmt ModuleSymbol []) module_stmts.

(** [Vec<FnSymbol*>::add_exclusive]: function symbols are compared by
    identity. *)
Definition fn_in (v : list FnInfo) (fn : FnInfo) : bool :=
  Vec_in Symbol_eq_dec (map fn_symbol v) (fn_symbol fn).

Definition fn_add_exclusive (v : list FnInfo) (fn : FnInfo) : list FnInfo :=
  if fn_in v fn then v else Vec_add v fn.

(** One captured variable offered to the uses found so far. *)
Definition add_use (encl_scope : list Symbol) (uses : SymVec)
    (sym : option Symbol) : SymVec :=
  match sym with
  | Some s =>
      if Vec_in Symbol_eq_dec encl_scope s
      then Vec_add_exclusive SymbolPtr_eq_dec uses sym
      else uses
  | None => uses
  end.

(** Modelled from the spec: the traversal [FindEnclosingScopeVarUses]
    (findEnclosingScopeVarUses.h is missing) computes "a fresh variable
    uses set by walking f's body and, for every call to another nested
    function g, unioning in the current CaptureSet(g) filtered to
    variables visible in f's enclosing scope"; "if g is already being
    analyzed in the current call chain, [it] treat[s] its contribution as
    empty for this round". *)
Fixpoint varUses_expr (encl_scope : list Symbol) (m : Map SymVec)
    (in_process_fns : list Symbol) (e : Expr) (uses : SymVec) : SymVec :=
  match e with
  | SymExpr v => add_use encl_scope uses (Some v)
  | CallExpr b args =>
      let uses1 := varUses_expr encl_scope m in_process_fns b uses in
      let uses2 :=
        fold_left (fun u a => varUses_expr encl_scope m in_process_fns a u)
                  args uses1 in
      match findFnSymbol b with
      | Some g =>
          if Vec_in Symbol_eq_dec in_process_fns g then uses2
          else match Map_get m g with
               | Some captures => fold_left (add_use encl_scope) captures uses2
               | None => uses2
               end
      | None => uses2
      end
  | DefExpr d => varUses_def encl_scope m in_process_fns d uses
  end
with varUses_def (encl_scope : list Symbol) (m : Map SymVec)
    (in_process_fns : list Symbol) (d : DefSym) (uses : SymVec) : SymVec :=
  match d with
  | VarSymbol _ => uses
  | FnSymbol _ _ b =>
      fold_left (fun u s => varUses_stmt encl_scope m in_process_fns s u) b uses
  end
with varUses_stmt (encl_scope : list Symbol) (m : Map SymVec)
    (in_process_fns : list Symbol) (s : Stmt) (uses : SymVec) : SymVec :=
  match s with
  | ExprStmt e => varUses_expr encl_scope m in_process_fns e uses
  | BlockStmt l =>
      fold_left (fun u s' => varUses_stmt encl_scope m in_process_fns s' u) l uses
  | CondStmt c t e =>
      let uses1 := varUses_expr encl_scope m in_process_fns c uses in
      let uses2 :=
        fold_left (fun u s' => varUses_stmt encl_scope m in_process_fns s' u)
                  t uses1 in
      fold_left (fun u s' => varUses_stmt encl_scope m in_process_fns s' u)
                e uses2
  end.

(** [getEnclosingFuncVarUses]: a new [FindEnclosingScopeVarUses] over the
    parent scope is run on the definition of the function. *)
Definition getEnclosingFuncVarUses (fn : FnInfo) (nested_func_args_map : Map SymVec)
    (in_process_fns : list Symbol) : SymVec :=
  fold_left
    (fun u s => varUses_stmt (fn_parentScope fn) nested_func_args_map
                             in_process_fns s u)
    (fn_body fn) [].

(** [findEnclScopeVarUses]: the map and the in-process functions after the
    call. *)
Definition findEnclScopeVarUses (fn : FnInfo) (nested_func_args_map : Map SymVec)
    (in_process_fns : list Symbol) : Map SymVec * list Symbol :=
  let in_process1 := Vec_add in_process_fns (fn_symbol fn) in
  let encl_func_var_uses :=
    getEnclosingFuncVarUses fn nested_func_args_map in_process1 in
  (Map_put nested_func_args_map (fn_symbol fn) encl_func_var_uses,
   removelast in_process1).

(** The body of the second loop of the [do ... while]: the global map and
    the [change] flag, or [None] on a NULL [Vec]. *)
Definition compare_for_changes (encl_var_use_map : Map SymVec)
    (acc : option (Map SymVec * bool)) (fn : FnInfo)
  : option (Map SymVec * bool) :=
  match acc with
  | None => None
  | Some (global, change) =>
      match Map_get encl_var_use_map (fn_symbol fn),
            Map_get global (fn_symbol fn) with
      | Some iteration_encl_var_vec, Some global_encl_var_vec =>
          if Nat.eqb (List.length global_encl_var_vec)
                     (List.length iteration_encl_var_vec)
          then Some (global, change)
          else Some (Map_put global (fn_symbol fn)
                       (fold_left (Vec_add_exclusive SymbolPtr_eq_dec)
                                  iteration_encl_var_vec global_encl_var_vec),
                     true)
      | _, _ => None
      end
  end.

(** The first loop of the [do ... while]. *)
Definition analysis_round (all_nested_functions : list FnInfo)
    (encl_var_use_map : Map SymVec) : Map SymVec :=
  fold_left (fun m fn => fst (findEnclScopeVarUses fn m []))
            all_nested_functions encl_var_use_map.

(** The [do ... while (change)] loop of [enclVarUsesHelper], run for at
    most [fuel] rounds: [None] when the rounds are used up (or on a NULL
    [Vec]). *)
Fixpoint enclVarUses_loop (fuel : nat) (all_nested_functions : list FnInfo)
    (global encl_var_use_map : Map SymVec) : option (Map SymVec) :=
  match fuel with
  | 0 => None
  | S fuel' =>
      let iter := analysis_round all_nested_functions encl_var_use_map in
      match fold_left (compare_for_changes iter) all_nested_functions
                      (Some (global, false)) with
      | None => None
      | Some (global', change) =>
          if change
          then enclVarUses_loop fuel' all_nested_functions global' iter
          else Some global'
      end
  end.

(** The body of the loop that finds the nested functions. *)
Definition add_if_nested (all_nested_functions : list FnInfo) (fn : FnInfo)
  : list FnInfo :=
  match hasEnclosingFunction (fn_parentSymbol fn) with
  | Some _ => fn_add_exclusive all_nested_functions fn
  | None => all_nested_functions
  end.

Definition all_nested_functions_of (module_stmts : list Stmt) : list FnInfo :=
  fold_left add_if_nested (collect_functions module_stmts) [].

Definition initial_args_map (all_nested_functions : list FnInfo) : Map SymVec :=
  fold_left (fun m fn => Map_put m (fn_symbol fn) []) all_nested_functions [].

(** A number of rounds that always suffices: one more than the total size
    of the parent scopes of the nested functions. *)
Definition rounds_bound (all_nested_functions : list FnInfo) : nat :=
  S (list_sum (map (fun fn => List.length (fn_parentScope fn))
                   all_nested_functions)).

Definition enclVarUsesHelper_fuel (fuel : nat) (module_stmts : list Stmt)
  : option (Map SymVec) :=
  let all_nested_functions := all_nested_functions_of module_stmts in
  enclVarUses_loop fuel all_nested_functions
                   (initial_args_map all_nested_functions) [].

Definition enclVarUsesHelper (module_stmts : list Stmt) : option (Map SymVec) :=
  enclVarUsesHelper_fuel (rounds_bound (all_nested_functions_of module_stmts))
                         module_stmts.

(* ================================================================= *)
(** ** The whole pass *)

(** The largest identity a symbol of the AST carries. *)
Fixpoint max_sym_id_expr (e : Expr) : nat :=
  match e with
  | SymExpr v => sym_id v
  | CallExpr b args =>
      fold_right (fun a n => Nat.max (max_sym_id_expr a) n) (max_sym_id_expr b) args
  | DefExpr d => max_sym_id_def d
  end
with max_sym_id_def (d : DefSym) : nat :=
  match d with
  | VarSymbol s => sym_id s
  | FnSymbol s fs b =>
      fold_right (fun s' n => Nat.max (max_sym_id_stmt s') n)
        (fold_right (fun f n => Nat.max (sym_id f) n) (sym_id s) fs) b
  end
with max_sym_id_stmt (s : Stmt) : nat :=
  match s with
  | ExprStmt e => max_sym_id_expr e
  | BlockStmt l => fold_right (fun s' n => Nat.max (max_sym_id_stmt s') n) 0 l
  | CondStmt c t e =>
      fold_right (fun s' n => Nat.max (max_sym_id_stmt s') n)
        (fold_right (fun s' n => Nat.max (max_sym_id_stmt s') n)
           (max_sym_id_expr c) t) e
  end.

Definition max_sym_id (module_stmts : list Stmt) : nat :=
  fold_right (fun s n => Nat.max (max_sym_id_stmt s) n) 0 module_stmts.

(** The constructor: empty maps and lists, then [enclVarUsesHelper]. *)
Definition RemoveNestedFunctions_new (module_stmts : list Stmt)
  : option RemoveNestedFunctions :=
  match enclVarUsesHelper module_stmts with
  | None => None
  | Some args_map => Some (mkPass args_map [] [] [] (S (max_sym_id module_stmts)))
  end.

(** The pass run on a module: the statements walked, then the state. *)
Definition run_traversal (module_stmts : list Stmt)
  : option (list Stmt * RemoveNestedFunctions) :=
  match RemoveNestedFunctions_new module_stmts with
  | None => None
  | Some st => traverse_AList (traverse_stmt ModuleSymbol) module_stmts st
  end.

(** The statement list of the module after the pass. *)
Definition run (module_stmts : list Stmt) : option (list Stmt) :=
  match run_traversal module_stmts with
  | None => None
  | Some (stmts, st) => Some (stmts ++ _fn_stmts_completed_so_far st)
  end.


(* ================================================================= *)
(** ** Vocabulary of the statements *)

(** The capture set a map holds for a function; a missing entry
    contributes nothing. *)
Definition contents (m : Map SymVec) (k : Symbol) : SymVec :=
  match Map_get m k with
  | Some v => v
  | None => []
  end.

(** Every capture set of [m] is included in that of [m']. *)
Definition map_le (m m' : Map SymVec) : Prop :=
  forall k, incl (contents m k) (contents m' k).

(** A vector without duplicates whose slots are non-NULL variables of
    [scope]. *)
Definition good_vec (scope : list Symbol) (v : SymVec) : Prop :=
  NoDup v /\ forall p, In p v -> exists s, p = Some s /\ In s scope.

(** A vector without duplicates and without NULL slot. *)
Definition clean_vec (v : SymVec) : Prop :=
  NoDup v /\ ~ In None v.

Definition clean_map (m : Map SymVec) : Prop :=
  forall k v, Map_get m k = Some v -> clean_vec v.

(** The total size of the capture sets [m] holds for the functions of
    [fns]. *)
Definition captured_size (fns : list FnInfo) (m : Map SymVec) : nat :=
  list_sum (map (fun fn => List.length (contents m (fn_symbol fn))) fns).

(** What holds of the global map and of the iteration map each time the
    [do ... while] loop is about to run a round: the global capture set of
    a nested function has the variables of its capture set of the last
    round, and a further round can only add to the iteration map. *)
Definition loop_inv (fns : list FnInfo) (global iter : Map SymVec) : Prop :=
  (forall fn, In fn fns ->
     exists g, Map_get global (fn_symbol fn) = Some g /\ NoDup g /\
               incl g (contents iter (fn_symbol fn)) /\
               incl (contents iter (fn_symbol fn)) g /\
               good_vec (fn_parentScope fn) (contents iter (fn_symbol fn))) /\
  map_le iter (analysis_round fns iter) /\
  clean_map global.

(** The formals [addNestedFuncFormals] allocates for a capture set, the
    first of them with identity [next]. *)
Definition formal_for (s : Symbol) (id : nat) : Symbol :=
  mkSymbol id (sym_name s) (sym_type s) (ARG_SYMBOL INTENT_INOUT).

Fixpoint new_formals (captures : SymVec) (next : nat) : list Symbol :=
  match captures with
  | [] => []
  | Some s :: captures' => formal_for s next :: new_formals captures' (S next)
  | None :: captures' => new_formals captures' next
  end.

(** The actuals [addNestedFuncActuals] appends for a capture set. *)
Fixpoint new_actuals (captures : SymVec) : list Expr :=
  match captures with
  | [] => []
  | Some s :: captures' => SymExpr s :: new_actuals captures'
  | None :: captures' => new_actuals captures'
  end.

(** The update map [addNestedFuncFormals] builds for a capture set. *)
Fixpoint new_update_map (captures : SymVec) (next : nat) (m : Map Symbol)
  : Map Symbol :=
  match captures with
  | [] => m
  | Some s :: captures' =>
      new_update_map captures' (S next) (Map_put m s (formal_for s next))
  | None :: captures' => new_update_map captures' next m
  end.

(** The number of non-NULL slots. *)
Fixpoint count_symbols (captures : SymVec) : nat :=
  match captures with
  | [] => 0
  | Some _ :: captures' => S (count_symbols captures')
  | None :: captures' => count_symbols captures'
  end.

(** The symbol a [SymExpr] refers to after [UpdateSymbols]. *)
Definition updated (m : Map Symbol) (v : Symbol) : Symbol :=
  match Map_get m v with
  | Some v' => v'
  | None => v
  end.

(** The variables the [SymExpr]s of a subtree refer to, in textual order. *)
Fixpoint sym_uses_expr (e : Expr) : list Symbol :=
  match e with
  | SymExpr v => [v]
  | CallExpr b args => sym_uses_expr b ++ flat_map sym_uses_expr args
  | DefExpr d => sym_uses_def d
  end
with sym_uses_def (d : DefSym) : list Symbol :=
  match d with
  | VarSymbol _ => []
  | FnSymbol _ _ b => flat_map sym_uses b
  end
with sym_uses (s : Stmt) : list Symbol :=
  match s with
  | ExprStmt e => sym_uses_expr e
  | BlockStmt l => flat_map sym_uses l
  | CondStmt c t e =>
      sym_uses_expr c ++ flat_map sym_uses t ++ flat_map sym_uses e
  end.

(** Whether a parent symbol is a function. *)
Definition is_fn (parentSymbol : ParentSymbol) : bool :=
  match parentSymbol with
  | ParentFn _ => true
  | ModuleSymbol => false
  end.

(** The nested function definitions of a subtree: the symbols of the
    function definitions whose parent symbol is a function.  [in_fn] tells
    whether the parent symbol of the subtree is a function. *)
Fixpoint nested_defs_expr (in_fn : bool) (e : Expr) : list Symbol :=
  match e with
  | SymExpr _ => []
  | CallExpr b args =>
      nested_defs_expr in_fn b ++ flat_map (nested_defs_expr in_fn) args
  | DefExpr d => nested_defs_def in_fn d
  end
with nested_defs_def (in_fn : bool) (d : DefSym) : list Symbol :=
  match d with
  | VarSymbol _ => []
  | FnSymbol s _ b =>
      (if in_fn then [s] else []) ++ flat_map (nested_defs true) b
  end
with nested_defs (in_fn : bool) (s : Stmt) : list Symbol :=
  match s with
  | ExprStmt e => nested_defs_expr in_fn e
  | BlockStmt l => flat_map (nested_defs in_fn) l
  | CondStmt c t e =>
      nested_defs_expr in_fn c ++ flat_map (nested_defs in_fn) t
      ++ flat_map (nested_defs in_fn) e
  end.

(** The nested function definitions of a module. *)
Definition nested_defs_of (module_stmts : list Stmt) : list Symbol :=
  flat_map (nested_defs false) module_stmts.

(** A well-formed AST defines a function only by a definition statement:
    a [DefExpr] of a [FnSymbol] is the expression of an [ExprStmt].  [top]
    tells whether the expression is the expression of an [ExprStmt]. *)
Fixpoint wf_expr (top : bool) (e : Expr) : bool :=
  match e with
  | SymExpr _ => true
  | CallExpr b args => wf_expr false b && forallb (wf_expr false) args
  | DefExpr d => wf_def top d
  end
with wf_def (top : bool) (d : DefSym) : bool :=
  match d with
  | VarSymbol _ => true
  | FnSymbol _ _ b => top && forallb wf_stmt b
  end
with wf_stmt (s : Stmt) : bool :=
  match s with
  | ExprStmt e => wf_expr true e
  | BlockStmt l => forallb wf_stmt l
  | CondStmt c t e => wf_expr false c && forallb wf_stmt t && forallb wf_stmt e
  end.

Definition wf_module (module_stmts : list Stmt) : bool :=
  forallb wf_stmt module_stmts.

(** No lifted copy holds a nested function definition. *)
Definition completed_flat (st : RemoveNestedFunctions) : Prop :=
  flat_map (nested_defs false) (_fn_stmts_completed_so_far st) = [].

(** Whether an expression is the definition of a function. *)
Definition is_fn_def (e : Expr) : bool :=
  match e with
  | DefExpr (FnSymbol _ _ _) => true
  | _ => false
  end.

(** The walk of a well-formed subtree leaves no nested function definition
    where the subtree stood, nor in the lifted copies. *)
Definition flat_expr_spec (e : Expr) : Prop :=
  forall top parent st e' st',
    wf_expr top e = true ->
    traverse_expr parent e st = Some (e', st') ->
    completed_flat st ->
    completed_flat st' /\ nested_defs_expr false e' = [] /\
    (is_fn_def e = false -> forall in_fn, nested_defs_expr in_fn e' = []).

Definition flat_def_spec (d : DefSym) : Prop :=
  forall top parent st d' st',
    wf_def top d = true ->
    traverse_def parent d st = Some (d', st') ->
    completed_flat st ->
    completed_flat st' /\ nested_defs_def false d' = [] /\
    (is_fn_def (DefExpr d) = false -> forall in_fn, nested_defs_def in_fn d' = []).

Definition flat_stmt_spec (s : Stmt) : Prop :=
  forall parent st out st',
    wf_stmt s = true ->
    traverse_stmt parent s st = Some (out, st') ->
    completed_flat st ->
    completed_flat st' /\ flat_map (nested_defs (is_fn parent)) out = [].

(** The walk of a subtree never reads a missing capture set when the map
    [A] has an entry for every nested function the subtree defines. *)
Definition total_expr_spec (A : Map SymVec) (e : Expr) : Prop :=
  forall parent st,
    _nested_func_args_map st = A ->
    (forall s, In s (nested_defs_expr (is_fn parent) e) -> Map_get A s <> None) ->
    exists e' st',
      traverse_expr parent e st = Some (e', st') /\ _nested_func_args_map st' = A.

Definition total_def_spec (A : Map SymVec) (d : DefSym) : Prop :=
  forall parent st,
    _nested_func_args_map st = A ->
    (forall s, In s (nested_defs_def (is_fn parent) d) -> Map_get A s <> None) ->
    exists d' st',
      traverse_def parent d st = Some (d', st') /\ _nested_func_args_map st' = A.

Definition total_stmt_spec (A : Map SymVec) (s : Stmt) : Prop :=
  forall parent st,
    _nested_func_args_map st = A ->
    (forall f, In f (nested_defs (is_fn parent) s) -> Map_get A f <> None) ->
    exists out st',
      traverse_stmt parent s st = Some (out, st') /\ _nested_func_args_map st' = A.

(** The walk of a well-formed subtree makes one lifted copy per nested
    function definition of the subtree. *)
Definition count_expr_spec (e : Expr) : Prop :=
  forall top parent st e' st',
    wf_expr top e = true ->
    traverse_expr parent e st = Some (e', st') ->
    List.length (_fn_stmts_completed_so_far st')
    = List.length (_fn_stmts_completed_so_far st)
      + List.length (nested_defs_expr false e).

Definition count_def_spec (d : DefSym) : Prop :=
  forall top parent st d' st',
    wf_def top d = true ->
    traverse_def parent d st = Some (d', st') ->
    List.length (_fn_stmts_completed_so_far st')
    = List.length (_fn_stmts_completed_so_far st)
      + List.length (nested_defs_def false d).

Definition count_stmt_spec (s : Stmt) : Prop :=
  forall parent st out st',
    wf_stmt s = true ->
    traverse_stmt parent s st = Some (out, st') ->
    List.length (_fn_stmts_completed_so_far st')
    = List.length (_fn_stmts_completed_so_far st)
      + List.length (nested_defs (is_fn parent) s).

(** The walk of a subtree without nested function definition, with an
    empty capture-set map, changes nothing. *)
Definition same_expr_spec (e : Expr) : Prop :=
  forall parent st,
    _nested_func_args_map st = [] ->
    nested_defs_expr (is_fn parent) e = [] ->
    traverse_expr parent e st = Some (e, st).

Definition same_def_spec (d : DefSym) : Prop :=
  forall parent st,
    _nested_func_args_map st = [] ->
    nested_defs_def (is_fn parent) d = [] ->
    traverse_def parent d st = Some (d, st).

Definition same_stmt_spec (s : Stmt) : Prop :=
  forall parent st,
    _nested_func_args_map st = [] ->
    nested_defs (is_fn parent) s = [] ->
    traverse_stmt parent s st = Some ([s], st).

(** Whether the definition of a function has a function as parent symbol. *)
Definition has_enclosing (fn : FnInfo) : bool := is_fn (fn_parentSymbol fn).

(** Whether a statement is the definition statement of a function. *)
Definition is_def_stmt (s : Stmt) : bool :=
  match s with
  | ExprStmt e => is_fn_def e
  | _ => false
  end.

(* ================================================================= *)
(** ** Test programs *)

Definition sym_f : Symbol := mkSymbol 1 "f" 0 FN_SYMBOL.
Definition sym_x : Symbol := mkSymbol 2 "x" 7 VAR_SYMBOL.
Definition sym_g : Symbol := mkSymbol 3 "g" 0 FN_SYMBOL.
Definition sym_h : Symbol := mkSymbol 4 "h" 0 FN_SYMBOL.
Definition sym_y : Symbol := mkSymbol 5 "y" 8 VAR_SYMBOL.

(** Scenario A:
<<
  def f() { var x; g(); def g() { x; } g(); }
>> *)
Definition scenario_A : list Stmt :=
  [ExprStmt (DefExpr (FnSymbol sym_f []
     [ExprStmt (DefExpr (VarSymbol sym_x));
      ExprStmt (CallExpr (SymExpr sym_g) []);
      ExprStmt (DefExpr (FnSymbol sym_g [] [ExprStmt (SymExpr sym_x)]));
      ExprStmt (CallExpr (SymExpr sym_g) [])]))].

(** Scenario B, with a call ahead of the definition:
<<
  def f() { g(); def g() { } g(); }
>> *)
Definition scenario_B : list Stmt :=
  [ExprStmt (DefExpr (FnSymbol sym_f []
     [ExprStmt (CallExpr (SymExpr sym_g) []);
      ExprStmt (DefExpr (FnSymbol sym_g [] []));
      ExprStmt (CallExpr (SymExpr sym_g) [])]))].

(** Two nested functions that call each other, each reading a variable of
    its own:
<<
  def f() { var x; var y;
            def h() { y; g(); }
            def g() { x; h(); }
            g(); }
>> *)
Definition scenario_mutual : list Stmt :=
  [ExprStmt (DefExpr (FnSymbol sym_f []
     [ExprStmt (DefExpr (VarSymbol sym_x));
      ExprStmt (DefExpr (VarSymbol sym_y));
      ExprStmt (DefExpr (FnSymbol sym_h []
        [ExprStmt (SymExpr sym_y); ExprStmt (CallExpr (SymExpr sym_g) [])]));
      ExprStmt (DefExpr (FnSymbol sym_g []
        [ExprStmt (SymExpr sym_x); ExprStmt (CallExpr (SymExpr sym_h) [])]));
      ExprStmt (CallExpr (SymExpr sym_g) [])]))].

(** Scenario C: [f] inside [g] inside the top-level [t], [f] reading a
    variable of [g]:
<<
  def t() { def g() { var z; def f() { z; } f(); } g(); }
>> *)
Definition sym_t : Symbol := mkSymbol 10 "t" 0 FN_SYMBOL.
Definition sym_z : Symbol := mkSymbol 11 "z" 9 VAR_SYMBOL.

Definition scenario_C : list Stmt :=
  [ExprStmt (DefExpr (FnSymbol sym_t []
     [ExprStmt (DefExpr (FnSymbol sym_g []
        [ExprStmt (DefExpr (VarSymbol sym_z));
         ExprStmt (DefExpr (FnSymbol sym_f [] [ExprStmt (SymExpr sym_z)]));
         ExprStmt (CallExpr (SymExpr sym_f) [])]));
      ExprStmt (CallExpr (SymExpr sym_g) [])]))].

(** The state of the pass when the walk of scenario A starts. *)
Definition state_A : RemoveNestedFunctions :=
  mkPass [(sym_g, [Some sym_x])] [] [] [] 4.

(* ================================================================= *)
(** ** Vocabulary of the further properties *)

(** The symbol and the formals that the definition statement of a function
    carries. *)
Definition stmt_head (s : Stmt) : option (Symbol * list Symbol) :=
  match s with
  | ExprStmt (DefExpr (FnSymbol f fs _)) => Some (f, fs)
  | _ => None
  end.

(** The same slots, in any order. *)
Definition same_set (v w : SymVec) : Prop := incl v w /\ incl w v.

(** The functions the calls of a subtree resolve to. *)
Fixpoint called_fns_expr (e : Expr) : list Symbol :=
  match e with
  | SymExpr _ => []
  | CallExpr b args =>
      called_fns_expr b ++ flat_map called_fns_expr args
      ++ match findFnSymbol b with
         | Some g => [g]
         | None => []
         end
  | DefExpr d => called_fns_def d
  end
with called_fns_def (d : DefSym) : list Symbol :=
  match d with
  | VarSymbol _ => []
  | FnSymbol _ _ b => flat_map called_fns b
  end
with called_fns (s : Stmt) : list Symbol :=
  match s with
  | ExprStmt e => called_fns_expr e
  | BlockStmt l => flat_map called_fns l
  | CondStmt c t e =>
      called_fns_expr c ++ flat_map called_fns t ++ flat_map called_fns e
  end.

(** The analysis of one function against a map, as a round runs it. *)
Definition analysis_of (fn : FnInfo) (m : Map SymVec) : SymVec :=
  getEnclosingFuncVarUses fn m (Vec_add [] (fn_symbol fn)).

(** A module without nested function:
<<
  var x; def f(y) { f(x); }
>> *)
Definition scenario_flat : list Stmt :=
  [ExprStmt (DefExpr (VarSymbol sym_x));
   ExprStmt (DefExpr (FnSymbol sym_f [sym_y]
     [ExprStmt (CallExpr (SymExpr sym_f) [SymExpr sym_x])]))].

(** The state of the pass once the definition of [g] of scenario A is
    lifted from [state_A]. *)
Definition state_A_lifted : RemoveNestedFunctions :=
  mkPass [(sym_g, [Some sym_x])]
         [(sym_g, mkSymbol 4 "g" 0 FN_SYMBOL)]
         []
         [ExprStmt (DefExpr (FnSymbol (mkSymbol 4 "g" 0 FN_SYMBOL)
            [mkSymbol 5 "x" 7 (ARG_SYMBOL INTENT_INOUT)]
            [ExprStmt (SymExpr (mkSymbol 5 "x" 7 (ARG_SYMBOL INTENT_INOUT)))]))]
         6.

(** Two statements of the same class. *)
Definition same_kind (s s' : Stmt) : Prop :=
  match s, s' with
  | ExprStmt _, ExprStmt _ => True
  | BlockStmt _, BlockStmt _ => True
  | CondStmt _ _ _, CondStmt _ _ _ => True
  | _, _ => False
  end.

(* ================================================================= *)
(** ** Vocabulary of the lifted copies *)

(** A nested function definition as the module has it before the pass: the
    symbol, the formals and the body. *)
Definition FnDef : Type := Symbol * list Symbol * list Stmt.

(** The nested function definitions of a subtree in the order the walk
    lifts them: post-order, a definition after those its body holds. *)
Fixpoint lift_order_expr (in_fn : bool) (e : Expr) : list FnDef :=
  match e with
  | SymExpr _ => []
  | CallExpr b args =>
      lift_order_expr in_fn b ++ flat_map (lift_order_expr in_fn) args
  | DefExpr d => lift_order_def in_fn d
  end
with lift_order_def (in_fn : bool) (d : DefSym) : list FnDef :=
  match d with
  | VarSymbol _ => []
  | FnSymbol s fs b =>
      flat_map (lift_order true) b ++ (if in_fn then [(s, fs, b)] else [])
  end
with lift_order (in_fn : bool) (s : Stmt) : list FnDef :=
  match s with
  | ExprStmt e => lift_order_expr in_fn e
  | BlockStmt l => flat_map (lift_order in_fn) l
  | CondStmt c t e =>
      lift_order_expr in_fn c ++ flat_map (lift_order in_fn) t
      ++ flat_map (lift_order in_fn) e
  end.

Definition lift_order_of (module_stmts : list Stmt) : list FnDef :=
  flat_map (lift_order false) module_stmts.

(** [v'] stands for [v] once the pass has run: it is [v] itself, or a
    symbol the pass allocated (its identity is [next0] or more) under the
    name and the type of [v]. *)
Definition stands_for (next0 : nat) (v v' : Symbol) : Prop :=
  v' = v \/
  (next0 <= sym_id v' /\ sym_name v' = sym_name v /\ sym_type v' = sym_type v).

Definition is_SymExpr (e : Expr) : Prop :=
  match e with
  | SymExpr _ => True
  | _ => False
  end.

(** The arguments of a call after the pass: one per argument the call had,
    in order, then [SymExpr]s only. *)
Definition walked_args (R : Expr -> Expr -> Prop)
  : list Expr -> list Expr -> Prop :=
  fix go l l' :=
    match l with
    | [] => Forall is_SymExpr l'
    | a :: l0 =>
        match l' with
        | a' :: l0' => R a a' /\ go l0 l0'
        | [] => False
        end
    end.

(** A statement list after the pass: one statement per statement the list
    had, in order, but for the definition statements of functions, which
    are gone when [in_fn] tells that the parent symbol is a function. *)
Definition walked_AList (in_fn : bool) (R : Stmt -> Stmt -> Prop)
  : list Stmt -> list Stmt -> Prop :=
  fix go l l' :=
    match l with
    | [] => l' = []
    | a :: l0 =>
        if in_fn && is_def_stmt a then go l0 l'
        else
          match l' with
          | a' :: l0' => R a a' /\ go l0 l0'
          | [] => False
          end
    end.

(** [e'] is [e] as the pass leaves it: the same tree, in which a reference
    stands for the reference [e] had, a call has gained [SymExpr] arguments
    at its end, and the function bodies and blocks have lost the definition
    statements of nested functions. *)
Fixpoint walked_expr (next0 : nat) (e e' : Expr) {struct e} : Prop :=
  match e with
  | SymExpr v =>
      match e' with
      | SymExpr v' => stands_for next0 v v'
      | _ => False
      end
  | CallExpr b args =>
      match e' with
      | CallExpr b' args' =>
          walked_expr next0 b b' /\ walked_args (walked_expr next0) args args'
      | _ => False
      end
  | DefExpr d =>
      match e' with
      | DefExpr d' => walked_def next0 d d'
      | _ => False
      end
  end
with walked_def (next0 : nat) (d d' : DefSym) {struct d} : Prop :=
  match d with
  | VarSymbol s => d' = VarSymbol s
  | FnSymbol s fs b =>
      match d' with
      | FnSymbol s' fs' b' =>
          s' = s /\ fs' = fs /\ walked_AList true (walked_stmt next0 true) b b'
      | _ => False
      end
  end
with walked_stmt (next0 : nat) (in_fn : bool) (s s' : Stmt) {struct s} : Prop :=
  match s with
  | ExprStmt e =>
      match s' with
      | ExprStmt e' => walked_expr next0 e e'
      | _ => False
      end
  | BlockStmt l =>
      match s' with
      | BlockStmt l' => walked_AList in_fn (walked_stmt next0 in_fn) l l'
      | _ => False
      end
  | CondStmt c t e =>
      match s' with
      | CondStmt c' t' e' =>
          walked_expr next0 c c' /\
          walked_AList in_fn (walked_stmt next0 in_fn) t t' /\
          walked_AList in_fn (walked_stmt next0 in_fn) e e'
      | _ => False
      end
  end.

(** [c] is the lifted copy of the nested function definition [d]: a
    definition statement of a function whose symbol the pass allocated
    under the name, the type and the class of the symbol of [d], whose
    formals are those of [d] followed by the formals of the capture set the
    map [args_map] holds for [d], and whose body is the body of [d] as the
    pass leaves it. *)
Definition lifted_copy_of (args_map : Map SymVec) (next0 : nat)
    (d : FnDef) (c : Stmt) : Prop :=
  let '(s, fs, b) := d in
  exists new_sym captures b',
    c = ExprStmt (DefExpr (FnSymbol new_sym
          (fs ++ new_formals captures (S (sym_id new_sym))) b')) /\
    Map_get args_map s = Some captures /\
    next0 <= sym_id new_sym /\
    sym_name new_sym = sym_name s /\
    sym_type new_sym = sym_type s /\
    sym_class new_sym = sym_class s /\
    walked_AList true (walked_stmt next0 true) b b'.

(** The values of a substitution are symbols the pass allocated, each
    under the name and the type of its key. *)
Definition renaming (next0 : nat) (m : Map Symbol) : Prop :=
  forall k v, Map_get m k = Some v ->
    next0 <= sym_id v /\ sym_name v = sym_name k /\ sym_type v = sym_type k.

(** What the walk keeps of the state of the pass while it lifts the
    definitions [defs]: the capture-set map is [args_map], the association
    map is a renaming, and the completed statements are the lifted copies
    of [defs], in order. *)
Definition lifted_so_far (args_map : Map SymVec) (next0 : nat)
    (defs : list FnDef) (st : RemoveNestedFunctions) : Prop :=
  _nested_func_args_map st = args_map /\
  renaming next0 (_nested_func_sym_map st) /\
  next0 <= next_sym_id st /\
  Forall2 (lifted_copy_of args_map next0) defs (_fn_stmts_completed_so_far st).

(** The walk of a well-formed subtree appends the lifted copies of the
    nested function definitions of the subtree, in the order of
    [lift_order], and leaves the subtree as [walked_expr] tells. *)
Definition copies_expr_spec (args_map : Map SymVec) (next0 : nat) (e : Expr)
  : Prop :=
  forall top parent st e' st' defs,
    wf_expr top e = true ->
    traverse_expr parent e st = Some (e', st') ->
    lifted_so_far args_map next0 defs st ->
    lifted_so_far args_map next0 (defs ++ lift_order_expr false e) st' /\
    walked_expr next0 e e'.

Definition copies_def_spec (args_map : Map SymVec) (next0 : nat) (d : DefSym)
  : Prop :=
  forall top parent st d' st' defs,
    wf_def top d = true ->
    traverse_def parent d st = Some (d', st') ->
    lifted_so_far args_map next0 defs st ->
    lifted_so_far args_map next0 (defs ++ lift_order_def false d) st' /\
    walked_def next0 d d'.

Definition copies_stmt_spec (args_map : Map SymVec) (next0 : nat) (s : Stmt)
  : Prop :=
  forall parent st out st' defs,
    wf_stmt s = true ->
    traverse_stmt parent s st = Some (out, st') ->
    lifted_so_far args_map next0 defs st ->
    lifted_so_far args_map next0 (defs ++ lift_order (is_fn parent) s) st' /\
    walked_AList (is_fn parent) (walked_stmt next0 (is_fn parent)) [s] out.

(** The symbol of a nested function definition. *)
Definition def_symbol (d : FnDef) : Symbol := fst (fst d).

(* ================================================================= *)
(** * Properties *)

Lemma ast_ind (PE : Expr -> Prop) (PD : DefSym -> Prop) (PS : Stmt -> Prop) :
  (forall v, PE (SymExpr v)) ->
  (forall b args, PE b -> Forall PE args -> PE (CallExpr b args)) ->
  (forall d, PD d -> PE (DefExpr d)) ->
  (forall s, PD (VarSymbol s)) ->
  (forall s fs b, Forall PS b -> PD (FnSymbol s fs b)) ->
  (forall e, PE e -> PS (ExprStmt e)) ->
  (forall l, Forall PS l -> PS (BlockStmt l)) ->
  (forall c t e, PE c -> Forall PS t -> Forall PS e -> PS (CondStmt c t e)) ->
  (forall e, PE e) /\ (forall d, PD d) /\ (forall s, PS s).
Proof.
  intros H1 H2 H3 H4 H5 H6 H7 H8.
  split; [|split].
  - exact (@Expr_ast_ind PE PD PS H1 H2 H3 H4 H5 H6 H7 H8).
  - exact (@DefSym_ast_ind PE PD PS H1 H2 H3 H4 H5 H6 H7 H8).
  - exact (@Stmt_ast_ind PE PD PS H1 H2 H3 H4 H5 H6 H7 H8).
Qed.

(** ** Vec and Map *)

Section VecFacts.
Variable C : Type.
Variable C_eq_dec : forall a b : C, {a = b} + {a <> b}.

Lemma Vec_in_true (v : list C) (a : C) :
  Vec_in C_eq_dec v a = true <-> In a v.
Proof.
  unfold Vec_in. destruct (in_dec C_eq_dec a v); split; intros; auto; discriminate.
Qed.

Lemma Vec_in_false (v : list C) (a : C) :
  Vec_in C_eq_dec v a = false <-> ~ In a v.
Proof.
  unfold Vec_in. destruct (in_dec C_eq_dec a v); split; intros; auto;
    try discriminate; contradiction.
Qed.

Lemma In_Vec_add (v : list C) (a x : C) :
  In x (Vec_add v a) <-> In x v \/ x = a.
Proof.
  unfold Vec_add. rewrite in_app_iff. simpl. intuition.
Qed.

Lemma In_Vec_add_exclusive (v : list C) (a x : C) :
  In x (Vec_add_exclusive C_eq_dec v a) <-> In x v \/ x = a.
Proof.
  unfold Vec_add_exclusive.
  destruct (Vec_in C_eq_dec v a) eqn:E.
  - apply Vec_in_true in E. split; [auto | intros [H | ->]; auto].
  - apply In_Vec_add.
Qed.

Lemma NoDup_Vec_add_exclusive (v : list C) (a : C) :
  NoDup v -> NoDup (Vec_add_exclusive C_eq_dec v a).
Proof.
  intros H. unfold Vec_add_exclusive.
  destruct (Vec_in C_eq_dec v a) eqn:E; auto.
  apply Vec_in_false in E. unfold Vec_add.
  apply NoDup_app; auto.
  - constructor; [intros [] | constructor].
  - intros x Hx [<- | []]. contradiction.
Qed.

Lemma In_fold_add_exclusive (l v : list C) (x : C) :
  In x (fold_left (Vec_add_exclusive C_eq_dec) l v) <-> In x v \/ In x l.
Proof.
  revert v. induction l as [|a l IH]; intros v; simpl.
  - intuition.
  - rewrite IH, In_Vec_add_exclusive. intuition.
Qed.

Lemma NoDup_fold_add_exclusive (l v : list C) :
  NoDup v -> NoDup (fold_left (Vec_add_exclusive C_eq_dec) l v).
Proof.
  revert v. induction l as [|a l IH]; intros v H; simpl; auto.
  apply IH, NoDup_Vec_add_exclusive, H.
Qed.
End VecFacts.

Section MapFacts.
Variable V : Type.

Lemma Map_get_put_eq (m : Map V) (k : Symbol) (v : V) :
  Map_get (Map_put m k v) k = Some v.
Proof.
  induction m as [|[k' v'] m IH]; simpl.
  - destruct (Symbol_eq_dec k k); congruence.
  - destruct (Symbol_eq_dec k k') as [->|N]; simpl.
    + destruct (Symbol_eq_dec k' k'); congruence.
    + destruct (Symbol_eq_dec k k'); congruence.
Qed.

Lemma Map_get_put_neq (m : Map V) (k k' : Symbol) (v : V) :
  k <> k' -> Map_get (Map_put m k v) k' = Map_get m k'.
Proof.
  intros N. induction m as [|[k0 v0] m IH]; simpl.
  - destruct (Symbol_eq_dec k' k); congruence.
  - destruct (Symbol_eq_dec k k0) as [->|N0]; simpl.
    + destruct (Symbol_eq_dec k' k0); congruence.
    + destruct (Symbol_eq_dec k' k0); congruence.
Qed.

Lemma Map_get_put (m : Map V) (k k' : Symbol) (v : V) :
  Map_get (Map_put m k v) k' =
  if Symbol_eq_dec k k' then Some v else Map_get m k'.
Proof.
  destruct (Symbol_eq_dec k k') as [->|N].
  - apply Map_get_put_eq.
  - apply Map_get_put_neq, N.
Qed.
End MapFacts.

(* ================================================================= *)
(** ** The capture analysis: what one walk computes *)

Arguments add_use : simpl never.
Arguments findEnclScopeVarUses : simpl never.

Lemma In_add_use (sc : list Symbol) (u : SymVec) (q p : option Symbol) :
  In p (add_use sc u q) <->
  In p u \/ (p = q /\ exists s, p = Some s /\ In s sc).
Proof.
  unfold add_use. destruct q as [s|].
  - destruct (Vec_in Symbol_eq_dec sc s) eqn:E.
    + apply Vec_in_true in E. rewrite In_Vec_add_exclusive.
      split; intros [H|H]; auto.
      * right. split; auto. exists s. subst. auto.
      * right. tauto.
    + apply Vec_in_false in E. split; auto.
      intros [H|[-> [s' [H1 H2]]]]; auto. inversion H1; subst. contradiction.
  - split; auto. intros [H|[-> [s' [H1 _]]]]; auto. discriminate.
Qed.

Lemma In_fold_add_use (sc : list Symbol) (cs u : SymVec) (p : option Symbol) :
  In p (fold_left (add_use sc) cs u) <->
  In p u \/ (In p cs /\ exists s, p = Some s /\ In s sc).
Proof.
  revert u. induction cs as [|q cs IH]; intros u; simpl.
  - intuition.
  - rewrite IH, In_add_use. split.
    + intros [[H|[-> H]]|[H1 H2]]; auto.
    + intros [H|[[->|H1] H2]]; auto.
Qed.

Lemma good_add_use (sc : list Symbol) (u : SymVec) (q : option Symbol) :
  good_vec sc u -> good_vec sc (add_use sc u q).
Proof.
  intros [ND G]. split.
  - unfold add_use. destruct q; auto.
    destruct (Vec_in Symbol_eq_dec sc s); auto.
    apply NoDup_Vec_add_exclusive, ND.
  - intros p Hp. apply In_add_use in Hp. destruct Hp as [Hp|[_ Hp]]; auto.
Qed.

Lemma fold_left_preserves (A B : Type) (Q : B -> Prop) (f : B -> A -> B)
    (l : list A) :
  Forall (fun a => forall u, Q u -> Q (f u a)) l ->
  forall u, Q u -> Q (fold_left f l u).
Proof.
  induction 1 as [|a l Ha _ IH]; intros u Hu; simpl; auto.
Qed.

Lemma fold_left_incl_mono (A : Type) (f f' : SymVec -> A -> SymVec) (l : list A) :
  Forall (fun a => forall u u', incl u u' -> incl (f u a) (f' u' a)) l ->
  forall u u', incl u u' -> incl (fold_left f l u) (fold_left f' l u').
Proof.
  induction 1 as [|a l Ha _ IH]; intros u u' Hu; simpl; auto.
Qed.

Lemma good_fold_add_use (sc : list Symbol) (cs u : SymVec) :
  good_vec sc u -> good_vec sc (fold_left (add_use sc) cs u).
Proof.
  apply fold_left_preserves. apply Forall_forall. intros q _ v. apply good_add_use.
Qed.

(** The contribution of a callee is that of its capture set in the map. *)
Lemma callee_contribution (sc : list Symbol) (m : Map SymVec) (g : Symbol)
    (u : SymVec) :
  match Map_get m g with
  | Some captures => fold_left (add_use sc) captures u
  | None => u
  end = fold_left (add_use sc) (contents m g) u.
Proof.
  unfold contents. destruct (Map_get m g); reflexivity.
Qed.

Section VarUses.
Variable sc : list Symbol.
Variable ip : list Symbol.

Lemma varUses_good (m : Map SymVec) :
  (forall e u, good_vec sc u -> good_vec sc (varUses_expr sc m ip e u)) /\
  (forall d u, good_vec sc u -> good_vec sc (varUses_def sc m ip d u)) /\
  (forall s u, good_vec sc u -> good_vec sc (varUses_stmt sc m ip s u)).
Proof.
  apply ast_ind; simpl; intros; auto.
  - apply good_add_use; auto.
  - assert (G2 : good_vec sc
               (fold_left (fun u a => varUses_expr sc m ip a u) args
                          (varUses_expr sc m ip b u))).
    { apply fold_left_preserves with (Q := good_vec sc); auto. }
    destruct (findFnSymbol b); auto.
    destruct (Vec_in Symbol_eq_dec ip s); auto.
    rewrite callee_contribution. apply good_fold_add_use; auto.
  - apply fold_left_preserves with (Q := good_vec sc); auto.
  - apply fold_left_preserves with (Q := good_vec sc); auto.
  - apply fold_left_preserves with (Q := good_vec sc); auto.
    apply fold_left_preserves with (Q := good_vec sc); auto.
Qed.

Lemma varUses_mono (m m' : Map SymVec) :
  map_le m m' ->
  (forall e u u', incl u u' ->
     incl (varUses_expr sc m ip e u) (varUses_expr sc m' ip e u')) /\
  (forall d u u', incl u u' ->
     incl (varUses_def sc m ip d u) (varUses_def sc m' ip d u')) /\
  (forall s u u', incl u u' ->
     incl (varUses_stmt sc m ip s u) (varUses_stmt sc m' ip s u')).
Proof.
  intros Hle. apply ast_ind; simpl; intros; auto.
  - intros p Hp. apply In_add_use in Hp. apply In_add_use.
    destruct Hp as [Hp|Hp]; auto.
  - assert (I2 : incl
               (fold_left (fun u a => varUses_expr sc m ip a u) args
                          (varUses_expr sc m ip b u))
               (fold_left (fun u a => varUses_expr sc m' ip a u) args
                          (varUses_expr sc m' ip b u'))).
    { apply fold_left_incl_mono; auto. }
    destruct (findFnSymbol b); auto.
    destruct (Vec_in Symbol_eq_dec ip s); auto.
    rewrite !callee_contribution.
    intros p Hp. apply In_fold_add_use in Hp. apply In_fold_add_use.
    destruct Hp as [Hp|[Hp Hs]]; auto.
    right. split; auto. apply (Hle s), Hp.
  - apply fold_left_incl_mono; auto.
  - apply fold_left_incl_mono; auto.
  - apply fold_left_incl_mono; auto.
    apply fold_left_incl_mono; auto.
Qed.
End VarUses.

(* ================================================================= *)
(** ** The capture analysis: one round *)

Lemma contents_put (m : Map SymVec) (k k' : Symbol) (v : SymVec) :
  contents (Map_put m k v) k' = if Symbol_eq_dec k k' then v else contents m k'.
Proof.
  unfold contents. rewrite Map_get_put. destruct (Symbol_eq_dec k k'); reflexivity.
Qed.

Lemma good_vec_nil (sc : list Symbol) : good_vec sc [].
Proof. split; [constructor | intros p []]. Qed.

Lemma good_vec_clean (sc : list Symbol) (v : SymVec) : good_vec sc v -> clean_vec v.
Proof.
  intros [ND G]. split; auto. intros H. destruct (G _ H) as [s [E _]]. discriminate.
Qed.

Lemma good_vec_length (sc : list Symbol) (v : SymVec) :
  good_vec sc v -> List.length v <= List.length sc.
Proof.
  intros [ND G]. rewrite <- (length_map (@Some Symbol) sc).
  apply NoDup_incl_length; auto.
  intros p Hp. destruct (G _ Hp) as [s [-> Hs]]. apply in_map, Hs.
Qed.

Lemma getEnclosingFuncVarUses_good (fn : FnInfo) (m : Map SymVec)
    (ip : list Symbol) :
  good_vec (fn_parentScope fn) (getEnclosingFuncVarUses fn m ip).
Proof.
  unfold getEnclosingFuncVarUses.
  apply fold_left_preserves with (Q := good_vec (fn_parentScope fn)).
  - apply Forall_forall. intros s _ u. apply varUses_good.
  - apply good_vec_nil.
Qed.

Lemma getEnclosingFuncVarUses_mono (fn : FnInfo) (m m' : Map SymVec)
    (ip : list Symbol) :
  map_le m m' ->
  incl (getEnclosingFuncVarUses fn m ip) (getEnclosingFuncVarUses fn m' ip).
Proof.
  intros Hle. unfold getEnclosingFuncVarUses.
  apply fold_left_incl_mono.
  - apply Forall_forall. intros s _ u u'. apply varUses_mono, Hle.
  - apply incl_refl.
Qed.

Lemma map_le_refl (m : Map SymVec) : map_le m m.
Proof. intros k. apply incl_refl. Qed.

Lemma map_le_nil (m : Map SymVec) : map_le [] m.
Proof. intros k p []. Qed.

Lemma findEnclScopeVarUses_mono (fn : FnInfo) (m m' : Map SymVec)
    (ip : list Symbol) :
  map_le m m' ->
  map_le (fst (findEnclScopeVarUses fn m ip)) (fst (findEnclScopeVarUses fn m' ip)).
Proof.
  intros Hle k. unfold findEnclScopeVarUses. simpl. rewrite !contents_put.
  destruct (Symbol_eq_dec (fn_symbol fn) k).
  - apply getEnclosingFuncVarUses_mono, Hle.
  - apply Hle.
Qed.

Lemma analysis_round_mono (fns : list FnInfo) (m m' : Map SymVec) :
  map_le m m' -> map_le (analysis_round fns m) (analysis_round fns m').
Proof.
  unfold analysis_round. revert m m'.
  induction fns as [|fn fns IH]; intros m m' Hle; simpl; auto.
  apply IH, findEnclScopeVarUses_mono, Hle.
Qed.

(** After a round every function of the list has a capture set in the
    iteration map, made of variables of its parent scope. *)
Lemma analysis_round_entries (fns : list FnInfo) :
  NoDup (map fn_symbol fns) ->
  forall m,
    (forall fn, In fn fns ->
       exists v, Map_get (analysis_round fns m) (fn_symbol fn) = Some v /\
                 good_vec (fn_parentScope fn) v) /\
    (forall k, ~ In k (map fn_symbol fns) ->
       Map_get (analysis_round fns m) k = Map_get m k).
Proof.
  unfold analysis_round.
  induction fns as [|a fns IH]; intros ND m; cbn [fold_left].
  - split; [intros fn [] | auto].
  - inversion ND as [|? ? Ha ND']; subst.
    destruct (IH ND' (fst (findEnclScopeVarUses a m []))) as [IH1 IH2].
    split.
    + intros fn [E|Hfn]; auto. subst fn.
      rewrite (IH2 _ Ha). unfold findEnclScopeVarUses. simpl.
      rewrite Map_get_put_eq. eexists. split; [reflexivity|].
      apply getEnclosingFuncVarUses_good.
    + intros k Hk. simpl in Hk. rewrite IH2 by tauto.
      unfold findEnclScopeVarUses. simpl.
      apply Map_get_put_neq. tauto.
Qed.

(* ================================================================= *)
(** ** The capture analysis: comparing for changes *)

Lemma equal_sets_length (v w : SymVec) :
  NoDup v -> NoDup w -> incl v w -> incl w v -> List.length v = List.length w.
Proof.
  intros Hv Hw H1 H2. apply Nat.le_antisymm; apply NoDup_incl_length; auto.
Qed.

Lemma clean_fold_add_exclusive (l v : SymVec) :
  clean_vec v -> ~ In None l ->
  clean_vec (fold_left (Vec_add_exclusive SymbolPtr_eq_dec) l v).
Proof.
  intros [ND NN] Hl. split.
  - apply NoDup_fold_add_exclusive, ND.
  - rewrite In_fold_add_exclusive. tauto.
Qed.

Lemma clean_map_put (m : Map SymVec) (k : Symbol) (v : SymVec) :
  clean_map m -> clean_vec v -> clean_map (Map_put m k v).
Proof.
  intros Hm Hv k' v'. rewrite Map_get_put.
  destruct (Symbol_eq_dec k k'); [intros [= <-]; auto | apply Hm].
Qed.

(** The comparison loop, for functions whose global capture set is included
    in the capture set of this round. *)
Lemma compare_for_changes_fold (iter : Map SymVec) (fns : list FnInfo) :
  NoDup (map fn_symbol fns) ->
  forall (global : Map SymVec) (change : bool),
    (forall fn, In fn fns ->
       exists g i, Map_get global (fn_symbol fn) = Some g /\
                   Map_get iter (fn_symbol fn) = Some i /\
                   NoDup g /\ good_vec (fn_parentScope fn) i /\ incl g i) ->
    exists global' change',
      fold_left (compare_for_changes iter) fns (Some (global, change))
      = Some (global', change') /\
      (forall k, ~ In k (map fn_symbol fns) -> Map_get global' k = Map_get global k) /\
      (forall fn, In fn fns ->
         exists g', Map_get global' (fn_symbol fn) = Some g' /\ NoDup g' /\
                    incl g' (contents iter (fn_symbol fn)) /\
                    incl (contents iter (fn_symbol fn)) g' /\
                    incl (contents global (fn_symbol fn)) g') /\
      (change' = false ->
         change = false /\ global' = global) /\
      (change' = true ->
         change = true \/
         exists fn, In fn fns /\
           List.length (contents global (fn_symbol fn))
           < List.length (contents iter (fn_symbol fn))) /\
      (clean_map global -> clean_map global').
Proof.
  induction fns as [|a fns IH]; intros ND global change H; simpl.
  - exists global, change.
    split; [reflexivity|]. split; [auto|]. split; [intros fn []|].
    split; [auto|]. split; auto.
  - inversion ND as [|? ? Ha ND']; subst.
    destruct (H a (or_introl eq_refl)) as [g [i [Eg [Ei [NDg [Gi Igi]]]]]].
    rewrite Ei, Eg.
    destruct (Nat.eqb (List.length g) (List.length i)) eqn:EL.
    + (* same length: nothing is added *)
      apply Nat.eqb_eq in EL.
      destruct (IH ND' global change) as [G' [c' [EF [K [S [CF [CT CL]]]]]]].
      { intros fn Hfn. apply H. right. exact Hfn. }
      exists G', c'. split; auto.
      split; [intros k Hk; apply K; tauto|].
      split.
      { intros fn [E|Hfn]; auto. subst fn.
        exists g. rewrite (K _ Ha), Eg. unfold contents. rewrite Ei, Eg.
        split; [reflexivity|]. split; [exact NDg|]. split; [exact Igi|].
        split; [|apply incl_refl].
        apply NoDup_length_incl; auto; lia. }
      split; auto. split; auto.
      intros Hc. destruct (CT Hc) as [Hc'|[fn [Hfn Hl]]]; auto.
      right. exists fn. split; [right; exact Hfn | exact Hl].
    + (* the global capture set takes the variables of the round *)
      apply Nat.eqb_neq in EL.
      set (g2 := fold_left (Vec_add_exclusive SymbolPtr_eq_dec) i g).
      destruct (IH ND' (Map_put global (fn_symbol a) g2) true)
        as [G' [c' [EF [K [S [CF [CT CL]]]]]]].
      { intros fn Hfn. destruct (H fn (or_intror Hfn)) as [g' [i' [E1 R]]].
        exists g', i'. split; auto.
        rewrite Map_get_put_neq; auto.
        intros E. apply Ha. rewrite E. apply in_map, Hfn. }
      exists G', c'. split; auto.
      split.
      { intros k Hk. rewrite K by tauto. apply Map_get_put_neq. tauto. }
      split.
      { intros fn [E|Hfn]; [subst fn|].
        - exists g2. rewrite (K _ Ha), Map_get_put_eq. unfold contents.
          rewrite Ei, Eg. split; auto.
          split; [apply NoDup_fold_add_exclusive, NDg|].
          split; [|split]; intros p Hp; unfold g2 in *.
          + apply In_fold_add_exclusive in Hp. destruct Hp; auto.
          + apply In_fold_add_exclusive. auto.
          + apply In_fold_add_exclusive. auto.
        - destruct (S fn Hfn) as [g' [E1 [E2 [E3 [E4 E5]]]]].
          exists g'. split; auto. split; auto. split; auto. split; auto.
          rewrite contents_put in E5.
          destruct (Symbol_eq_dec (fn_symbol a) (fn_symbol fn)) as [E|N]; auto.
          exfalso. apply Ha. rewrite E. apply in_map, Hfn. }
      split.
      { intros Hc. destruct (CF Hc) as [Hc' _]. discriminate. }
      split.
      { intros _. right. exists a. split; auto.
        unfold contents. rewrite Ei, Eg.
        assert (List.length g <= List.length i) by (apply NoDup_incl_length; auto).
        lia. }
      intros Hcl. apply CL, clean_map_put; auto.
      apply clean_fold_add_exclusive.
      * split; auto. intros HN. destruct Gi as [_ Gi].
        destruct (Gi _ (Igi _ HN)) as [s [E _]]. discriminate.
      * apply (good_vec_clean Gi).
Qed.

(* ================================================================= *)
(** ** The capture analysis: the loop *)

Lemma list_sum_map_le (A : Type) (f g : A -> nat) (l : list A) :
  (forall x, In x l -> f x <= g x) ->
  list_sum (map f l) <= list_sum (map g l).
Proof.
  induction l as [|a l IH]; intros H; simpl; auto.
  assert (f a <= g a) by (apply H; left; reflexivity).
  assert (list_sum (map f l) <= list_sum (map g l))
    by (apply IH; intros x Hx; apply H; right; exact Hx).
  lia.
Qed.

Lemma list_sum_map_lt (A : Type) (f g : A -> nat) (l : list A) :
  (forall x, In x l -> f x <= g x) ->
  (exists x, In x l /\ f x < g x) ->
  list_sum (map f l) < list_sum (map g l).
Proof.
  induction l as [|a l IH]; intros H [x [Hx Hlt]]; simpl.
  - destruct Hx.
  - assert (f a <= g a) by (apply H; left; reflexivity).
    assert (list_sum (map f l) <= list_sum (map g l))
      by (apply list_sum_map_le; intros y Hy; apply H; right; exact Hy).
    destruct Hx as [->|Hx].
    + lia.
    + assert (list_sum (map f l) < list_sum (map g l)).
      { apply IH; [intros y Hy; apply H; right; exact Hy | exists x; auto]. }
      lia.
Qed.

(** One round of the loop from a state that satisfies [loop_inv]. *)
Lemma loop_round (fns : list FnInfo) (global iter : Map SymVec) :
  NoDup (map fn_symbol fns) ->
  loop_inv fns global iter ->
  exists global' change,
    fold_left (compare_for_changes (analysis_round fns iter)) fns
              (Some (global, false)) = Some (global', change) /\
    loop_inv fns global' (analysis_round fns iter) /\
    (change = false -> global' = global) /\
    (change = true -> captured_size fns global < captured_size fns global') /\
    (forall k, incl (contents global k) (contents global' k)) /\
    (forall k, ~ In k (map fn_symbol fns) -> Map_get global' k = Map_get global k).
Proof.
  intros ND [Sync [Le Cl]].
  set (iter' := analysis_round fns iter) in *.
  destruct (@analysis_round_entries fns ND iter) as [Ent _]. fold iter' in Ent.
  destruct (@compare_for_changes_fold iter' fns ND global false)
    as [G' [c [EF [K [S [CF [CT CL]]]]]]].
  { intros fn Hfn.
    destruct (Sync fn Hfn) as [g [Eg [NDg [I1 [I2 _]]]]].
    destruct (Ent fn Hfn) as [i [Ei Gi]].
    exists g, i. split; auto. split; auto. split; auto. split; auto.
    intros p Hp. apply I1 in Hp. apply (Le (fn_symbol fn)) in Hp.
    unfold contents in Hp. rewrite Ei in Hp. exact Hp. }
  exists G', c. split; [exact EF|].
  split; [|split; [|split; [|split]]].
  - split; [|split].
    + intros fn Hfn. destruct (S fn Hfn) as [g' [E1 [E2 [E3 [E4 _]]]]].
      exists g'. split; auto. split; auto. split; auto. split; auto.
      destruct (Ent fn Hfn) as [i [Ei Gi]]. unfold contents. rewrite Ei. exact Gi.
    + apply analysis_round_mono, Le.
    + apply CL, Cl.
  - intros Hc. apply CF, Hc.
  - intros Hc. destruct (CT Hc) as [Hc'|[fn [Hfn Hlt]]]; [discriminate|].
    unfold captured_size.
    assert (Hle : forall x, In x fns ->
              List.length (contents global (fn_symbol x))
              <= List.length (contents G' (fn_symbol x))).
    { intros x Hx. destruct (S x Hx) as [g' [E1 [E2 [_ [_ E5]]]]].
      destruct (Sync x Hx) as [g [Eg [NDg _]]].
      unfold contents in *. rewrite Eg in *. rewrite E1.
      apply NoDup_incl_length; auto. }
    apply list_sum_map_lt; auto.
    exists fn. split; auto.
    destruct (S fn Hfn) as [g' [E1 [E2 [E3 [E4 _]]]]].
    destruct (Ent fn Hfn) as [i [Ei [NDi _]]].
    replace (List.length (contents G' (fn_symbol fn)))
      with (List.length (contents iter' (fn_symbol fn))); auto.
    unfold contents in *. rewrite E1, Ei in *.
    apply equal_sets_length; auto.
  - intros k. destruct (in_dec Symbol_eq_dec k (map fn_symbol fns)) as [Hk|Hk].
    + apply in_map_iff in Hk. destruct Hk as [fn [<- Hfn]].
      destruct (S fn Hfn) as [g' [E1 [_ [_ [_ E5]]]]].
      unfold contents at 2. rewrite E1. exact E5.
    + unfold contents. rewrite (K _ Hk). apply incl_refl.
  - exact K.
Qed.

Lemma captured_size_bound (fns : list FnInfo) (global iter : Map SymVec) :
  loop_inv fns global iter ->
  captured_size fns global
  <= list_sum (map (fun fn => List.length (fn_parentScope fn)) fns).
Proof.
  intros [Sync _]. unfold captured_size. apply list_sum_map_le.
  intros fn Hfn. destruct (Sync fn Hfn) as [g [Eg [NDg [I1 [I2 G]]]]].
  unfold contents at 1. rewrite Eg.
  transitivity (List.length (contents iter (fn_symbol fn))).
  - apply NoDup_incl_length; auto.
  - apply good_vec_length, G.
Qed.

(** The loop ends: from a state that satisfies [loop_inv], a number of
    rounds above the room left under the bound always gives a result. *)
Lemma enclVarUses_loop_ends (fns : list FnInfo) :
  NoDup (map fn_symbol fns) ->
  forall fuel global iter,
    loop_inv fns global iter ->
    list_sum (map (fun fn => List.length (fn_parentScope fn)) fns)
    < captured_size fns global + fuel ->
    exists result,
      enclVarUses_loop fuel fns global iter = Some result /\
      clean_map result /\
      (forall k, incl (contents global k) (contents result k)) /\
      (forall fn, In fn fns -> Map_get result (fn_symbol fn) <> None) /\
      (forall k, ~ In k (map fn_symbol fns) -> Map_get result k = Map_get global k).
Proof.
  intros ND. induction fuel as [|fuel IH]; intros global iter Inv Hf.
  - pose proof (captured_size_bound Inv). lia.
  - simpl.
    destruct (loop_round ND Inv) as [G' [c [EF [Inv' [CF [CT [Gr K]]]]]]].
    rewrite EF. destruct c.
    + destruct (IH G' (analysis_round fns iter) Inv') as [r [E [C [G [N K']]]]].
      { specialize (CT eq_refl). lia. }
      exists r. split; auto. split; auto. split; [|split; auto].
      * intros k. eapply incl_tran; [apply Gr | apply G].
      * intros k Hk. rewrite K' by exact Hk. apply K, Hk.
    + exists G'. split; auto. destruct Inv' as [Sync [_ Cl]].
      split; auto. split; auto. split; auto.
      intros fn Hfn. destruct (Sync fn Hfn) as [g [Eg _]]. congruence.
Qed.

Lemma enclVarUses_loop_more_fuel (fns : list FnInfo) (fuel fuel' : nat)
    (global iter result : Map SymVec) :
  enclVarUses_loop fuel fns global iter = Some result ->
  fuel <= fuel' ->
  enclVarUses_loop fuel' fns global iter = Some result.
Proof.
  revert fuel' global iter.
  induction fuel as [|fuel IH]; intros fuel' global iter H Hle; [discriminate|].
  destruct fuel' as [|fuel']; [lia|].
  simpl in *.
  destruct (fold_left (compare_for_changes (analysis_round fns iter)) fns
                      (Some (global, false))) as [[G' c]|]; [|discriminate].
  destruct c; auto. apply IH; auto. lia.
Qed.

(** The nested functions are listed once each, and the initial map gives
    each of them an empty capture set. *)
Lemma fn_add_exclusive_NoDup (v : list FnInfo) (fn : FnInfo) :
  NoDup (map fn_symbol v) -> NoDup (map fn_symbol (fn_add_exclusive v fn)).
Proof.
  intros ND. unfold fn_add_exclusive, fn_in.
  destruct (Vec_in Symbol_eq_dec (map fn_symbol v) (fn_symbol fn)) eqn:E; auto.
  apply Vec_in_false in E. unfold Vec_add. rewrite map_app. simpl.
  apply NoDup_app; auto.
  - constructor; [intros [] | constructor].
  - intros x Hx [<- | []]. contradiction.
Qed.

Lemma all_nested_functions_NoDup (module_stmts : list Stmt) :
  NoDup (map fn_symbol (all_nested_functions_of module_stmts)).
Proof.
  unfold all_nested_functions_of.
  apply fold_left_preserves with (Q := fun v => NoDup (map fn_symbol v)).
  - apply Forall_forall. intros fn _ v Hv. unfold add_if_nested.
    destruct (hasEnclosingFunction (fn_parentSymbol fn)); auto.
    apply fn_add_exclusive_NoDup, Hv.
  - constructor.
Qed.

Lemma initial_args_map_spec (fns : list FnInfo) :
  (forall k v, Map_get (initial_args_map fns) k = Some v -> v = []) /\
  (forall fn, In fn fns -> Map_get (initial_args_map fns) (fn_symbol fn) = Some []).
Proof.
  unfold initial_args_map.
  assert (G : forall l (m : Map SymVec),
             (forall k v, Map_get m k = Some v -> v = []) ->
             (forall k v, Map_get (fold_left (fun m fn => Map_put m (fn_symbol fn) [])
                                             l m) k = Some v -> v = []) /\
             (forall k, Map_get m k = Some [] \/ In k (map fn_symbol l) ->
                Map_get (fold_left (fun m fn => Map_put m (fn_symbol fn) []) l m) k
                = Some [])).
  { induction l as [|a l IH]; intros m Hm; simpl.
    - split; auto. intros k [H|[]]. exact H.
    - destruct (IH (Map_put m (fn_symbol a) [])) as [IH1 IH2].
      + intros k v. rewrite Map_get_put.
        destruct (Symbol_eq_dec (fn_symbol a) k); [congruence | apply Hm].
      + split; auto. intros k Hk. apply IH2.
        rewrite Map_get_put.
        destruct (Symbol_eq_dec (fn_symbol a) k); auto.
        destruct Hk as [Hk|[Hk|Hk]]; auto. contradiction. }
  destruct (G fns [] ) as [G1 G2]; [intros k v H; discriminate|].
  split; auto. intros fn Hfn. apply G2. right. apply in_map, Hfn.
Qed.

Lemma initial_loop_inv (fns : list FnInfo) :
  loop_inv fns (initial_args_map fns) [].
Proof.
  destruct (initial_args_map_spec fns) as [I1 I2].
  split; [|split].
  - intros fn Hfn. exists []. split; auto.
    split; [constructor|]. unfold contents. simpl.
    split; [apply incl_refl|]. split; [apply incl_refl|apply good_vec_nil].
  - apply map_le_nil.
  - intros k v H. rewrite (I1 _ _ H). split; [constructor | intros []].
Qed.

(** The analysis of a module always ends within [rounds_bound] rounds. *)
Lemma enclVarUsesHelper_total (module_stmts : list Stmt) :
  exists args_map,
    enclVarUsesHelper module_stmts = Some args_map /\
    clean_map args_map /\
    (forall fn, In fn (all_nested_functions_of module_stmts) ->
       Map_get args_map (fn_symbol fn) <> None) /\
    (forall k, ~ In k (map fn_symbol (all_nested_functions_of module_stmts)) ->
       Map_get args_map k = None).
Proof.
  unfold enclVarUsesHelper, enclVarUsesHelper_fuel.
  set (fns := all_nested_functions_of module_stmts).
  destruct (@enclVarUses_loop_ends fns (all_nested_functions_NoDup module_stmts)
              (rounds_bound fns) (initial_args_map fns) [] (initial_loop_inv fns))
    as [r [E [C [_ [N K]]]]].
  { unfold rounds_bound. lia. }
  exists r. split; auto. split; auto. split; auto.
  intros k Hk. rewrite (K _ Hk).
  destruct (Map_get (initial_args_map fns) k) as [v|] eqn:Ev; auto.
  exfalso. apply Hk. clear - Ev. unfold initial_args_map in Ev.
  assert (G : forall l (m : Map SymVec),
             Map_get (fold_left (fun m fn => Map_put m (fn_symbol fn) []) l m) k
             <> None ->
             Map_get m k <> None \/ In k (map fn_symbol l)).
  { induction l as [|a l IH]; intros m H; simpl in *; auto.
    destruct (IH _ H) as [H1|H1]; auto.
    rewrite Map_get_put in H1.
    destruct (Symbol_eq_dec (fn_symbol a) k); auto. }
  destruct (G fns []) as [H|H];
    [intro HH; pose proof (eq_trans (eq_sym Ev) HH); discriminate
    | simpl in H; congruence | exact H].
Qed.

(* ================================================================= *)
(** ** Formals and actuals of a capture set *)

Lemma fold_add_formal (captures : SymVec) (formals : list Symbol)
    (m : Map Symbol) (next : nat) :
  fold_left add_formal captures (formals, m, next)
  = (formals ++ new_formals captures next,
     new_update_map captures next m,
     next + count_symbols captures).
Proof.
  revert formals m next.
  induction captures as [|[s|] cs IH]; intros formals m next; simpl.
  - rewrite app_nil_r, Nat.add_0_r. reflexivity.
  - unfold Vec_add, defineParam, set_type. simpl. rewrite IH.
    rewrite <- app_assoc. simpl. unfold formal_for.
    rewrite Nat.add_succ_r. reflexivity.
  - apply IH.
Qed.

Lemma fold_add_actual (captures : SymVec) (argList : list Expr) :
  fold_left add_actual captures argList = argList ++ new_actuals captures.
Proof.
  revert argList. induction captures as [|[s|] cs IH]; intros argList; simpl.
  - rewrite app_nil_r. reflexivity.
  - unfold Vec_add. rewrite IH, <- app_assoc. reflexivity.
  - apply IH.
Qed.

Lemma count_symbols_clean (captures : SymVec) :
  ~ In None captures -> count_symbols captures = List.length captures.
Proof.
  induction captures as [|[s|] cs IH]; simpl; intros H; auto.
  - f_equal. apply IH. tauto.
  - exfalso. apply H. left. reflexivity.
Qed.

Lemma new_formals_length (captures : SymVec) (next : nat) :
  List.length (new_formals captures next) = count_symbols captures.
Proof.
  revert next. induction captures as [|[s|] cs IH]; intros next; simpl; auto.
Qed.

Lemma new_actuals_length (captures : SymVec) :
  List.length (new_actuals captures) = count_symbols captures.
Proof.
  induction captures as [|[s|] cs IH]; simpl; auto.
Qed.

Lemma new_formals_nth (captures : SymVec) (next i : nat) (x : Symbol) :
  ~ In None captures ->
  nth_error captures i = Some (Some x) ->
  nth_error (new_formals captures next) i = Some (formal_for x (next + i)).
Proof.
  revert next i. induction captures as [|[s|] cs IH]; intros next i NN H.
  - destruct i; discriminate.
  - destruct i as [|i]; simpl in *.
    + inversion H; subst. rewrite Nat.add_0_r. reflexivity.
    + rewrite Nat.add_succ_r. apply (IH (S next) i); tauto.
  - simpl in NN. tauto.
Qed.

Lemma new_actuals_nth (captures : SymVec) (i : nat) (x : Symbol) :
  ~ In None captures ->
  nth_error captures i = Some (Some x) ->
  nth_error (new_actuals captures) i = Some (SymExpr x).
Proof.
  revert i. induction captures as [|[s|] cs IH]; intros i NN H.
  - destruct i; discriminate.
  - destruct i as [|i]; simpl in *.
    + inversion H; subst. reflexivity.
    + apply IH; tauto.
  - simpl in NN. tauto.
Qed.

Lemma new_update_map_other (captures : SymVec) (next : nat) (m : Map Symbol)
    (v : Symbol) :
  ~ In (Some v) captures ->
  Map_get (new_update_map captures next m) v = Map_get m v.
Proof.
  revert next m. induction captures as [|[s|] cs IH]; intros next m H; simpl in *.
  - reflexivity.
  - rewrite IH by tauto. apply Map_get_put_neq. intros ->. tauto.
  - apply IH. tauto.
Qed.


Lemma clean_vec_nth (captures : SymVec) (i : nat) :
  clean_vec captures -> i < List.length captures ->
  exists x, nth_error captures i = Some (Some x).
Proof.
  intros [_ NN] Hi.
  destruct (nth_error captures i) as [[x|]|] eqn:E.
  - exists x. reflexivity.
  - exfalso. apply NN. eapply nth_error_In, E.
  - apply nth_error_None in E. lia.
Qed.

(** The capture sets the analysis computes have no duplicate and no NULL. *)
Lemma enclVarUsesHelper_clean (module_stmts : list Stmt) (args_map : Map SymVec)
    (fn_sym : Symbol) (captures : SymVec) :
  enclVarUsesHelper module_stmts = Some args_map ->
  Map_get args_map fn_sym = Some captures ->
  clean_vec captures.
Proof.
  intros E G.
  destruct (enclVarUsesHelper_total module_stmts) as [A [EA [C _]]].
  rewrite E in EA. inversion EA; subst. exact (C _ _ G).
Qed.

(* ================================================================= *)
(** ** UpdateSymbols on the references of a subtree *)

Lemma flat_map_map (A B C : Type) (f : A -> B) (g : B -> list C) (l : list A) :
  flat_map g (map f l) = flat_map (fun a => g (f a)) l.
Proof.
  induction l as [|a l IH]; simpl; [reflexivity | rewrite IH; reflexivity].
Qed.

Lemma flat_map_Forall_eq (A B : Type) (f g : A -> list B) (l : list A) :
  Forall (fun a => f a = g a) l -> flat_map f l = flat_map g l.
Proof.
  induction 1 as [|a l Ha _ IH]; simpl; [reflexivity | rewrite Ha, IH; reflexivity].
Qed.

Lemma map_flat_map (A B C : Type) (f : B -> C) (g : A -> list B) (l : list A) :
  map f (flat_map g l) = flat_map (fun a => map f (g a)) l.
Proof.
  induction l as [|a l IH]; simpl; [reflexivity|].
  rewrite map_app, IH. reflexivity.
Qed.

Lemma sym_uses_UpdateSymbols (m : Map Symbol) :
  (forall e, sym_uses_expr (UpdateSymbols_expr m e)
             = map (updated m) (sym_uses_expr e)) /\
  (forall d, sym_uses_def (UpdateSymbols_def m d)
             = map (updated m) (sym_uses_def d)) /\
  (forall s, sym_uses (UpdateSymbols m s) = map (updated m) (sym_uses s)).
Proof.
  apply ast_ind; simpl; intros.
  - unfold updated. destruct (Map_get m v); reflexivity.
  - rewrite map_app, H, flat_map_map, map_flat_map.
    f_equal. apply flat_map_Forall_eq, H0.
  - exact H.
  - reflexivity.
  - rewrite flat_map_map, map_flat_map. apply flat_map_Forall_eq, H.
  - exact H.
  - rewrite flat_map_map, map_flat_map. apply flat_map_Forall_eq, H.
  - rewrite !map_app, H, !flat_map_map, !map_flat_map.
    f_equal. f_equal; apply flat_map_Forall_eq; assumption.
Qed.

Lemma sym_uses_UpdateSymbols_list (m : Map Symbol) (l : list Stmt) :
  flat_map sym_uses (map (UpdateSymbols m) l)
  = map (updated m) (flat_map sym_uses l).
Proof.
  rewrite flat_map_map, map_flat_map. apply flat_map_Forall_eq.
  apply Forall_forall. intros s _. apply sym_uses_UpdateSymbols.
Qed.

(* ================================================================= *)
(** ** The callbacks *)



(** What [addNestedFuncFormals] makes of the copy of a definition. *)
Lemma addNestedFuncFormals_spec (new_sym : Symbol) (formals : list Symbol)
    (body : list Stmt) (captures : SymVec) (old_func_sym : Symbol)
    (st : RemoveNestedFunctions) :
  addNestedFuncFormals (DefExpr (FnSymbol new_sym formals body)) captures
                       old_func_sym st
  = (DefExpr (FnSymbol new_sym
       (formals ++ new_formals captures (next_sym_id st))
       (if Nat.eqb (List.length captures) 0 then body
        else map (UpdateSymbols (new_update_map captures (next_sym_id st) []))
                 body)),
     set_next_sym_id
       (set_sym_map st (Map_put (_nested_func_sym_map st) old_func_sym new_sym))
       (next_sym_id st + count_symbols captures)).
Proof.
  unfold addNestedFuncFormals. rewrite fold_add_formal. reflexivity.
Qed.

(** What [postProcessStmt] does with the definition of a nested function
    whose capture set is known. *)
Lemma postProcessStmt_lift (parent fn_sym : Symbol) (formals : list Symbol)
    (body : list Stmt) (captures : SymVec) (st : RemoveNestedFunctions) :
  Map_get (_nested_func_args_map st) fn_sym = Some captures ->
  let new_sym :=
    mkSymbol (next_sym_id st) (sym_name fn_sym) (sym_type fn_sym)
             (sym_class fn_sym) in
  let sym_map := Map_put (_nested_func_sym_map st) fn_sym new_sym in
  let lifted :=
    ExprStmt (DefExpr (FnSymbol new_sym
      (formals ++ new_formals captures (S (next_sym_id st)))
      (if Nat.eqb (List.length captures) 0 then body
       else map (UpdateSymbols
                   (new_update_map captures (S (next_sym_id st)) [])) body))) in
  postProcessStmt (ParentFn parent)
                  (ExprStmt (DefExpr (FnSymbol fn_sym formals body))) st
  = Some ([],
          mkPass (_nested_func_args_map st) sym_map (_fn_call_worklist st)
            (if Vec_in Symbol_eq_dec (_fn_call_worklist st) fn_sym
             then map (UpdateSymbols sym_map)
                      (_fn_stmts_completed_so_far st ++ [lifted])
             else _fn_stmts_completed_so_far st ++ [lifted])
            (S (next_sym_id st) + count_symbols captures)).
Proof.
  intros H. unfold postProcessStmt, hasEnclosingFunction, copy. rewrite H.
  rewrite addNestedFuncFormals_spec. simpl.
  destruct (Vec_in Symbol_eq_dec (_fn_call_worklist st) fn_sym); reflexivity.
Qed.

(** C10: a call whose statically resolved target has no entry in the
    capture-set map (it is not a nested function) is left as it is by the
    call-site rewriting step: neither its argument list nor its target
    changes, and the state of the pass stays the same. *)
Theorem C10_call_to_other_function_unchanged
    (baseExpr : Expr) (argList : list Expr) (st : RemoveNestedFunctions) :
  (forall fn_sym, findFnSymbol baseExpr = Some fn_sym ->
                  Map_get (_nested_func_args_map st) fn_sym = None) ->
  postProcessExpr (CallExpr baseExpr argList) st = (CallExpr baseExpr argList, st).
Proof.
  intros H. unfold postProcessExpr.
  destruct (findFnSymbol baseExpr) as [fn_sym|]; [|reflexivity].
  rewrite (H fn_sym eq_refl). reflexivity.
Qed.

Lemma C10_witness :
  postProcessExpr (CallExpr (SymExpr sym_f) [SymExpr sym_x]) state_A
  = (CallExpr (SymExpr sym_f) [SymExpr sym_x], state_A).
Proof.
  apply (C10_call_to_other_function_unchanged (SymExpr sym_f) [SymExpr sym_x] state_A).
  intros fn_sym H. inversion H. reflexivity.
Defined.

(** C1: for a nested function with the capture set the analysis computed,
    the lifted copy gets exactly one formal per entry of the capture set,
    appended after its own formals, and every call to the function gets
    exactly one actual per entry, appended after the arguments the call
    had; the i-th added formal has the name and the type of the i-th
    captured variable and the i-th added actual refers to it. *)
Theorem C1_formal_actual_parity
    (module_stmts : list Stmt) (args_map : Map SymVec) (fn_sym : Symbol)
    (captures : SymVec) (st : RemoveNestedFunctions) :
  enclVarUsesHelper module_stmts = Some args_map ->
  Map_get args_map fn_sym = Some captures ->
  _nested_func_args_map st = args_map ->
  (forall parent formals body,
     exists new_sym added body' before st',
       postProcessStmt (ParentFn parent)
         (ExprStmt (DefExpr (FnSymbol fn_sym formals body))) st
       = Some ([], st') /\
       _fn_stmts_completed_so_far st'
       = before ++ [ExprStmt (DefExpr (FnSymbol new_sym (formals ++ added) body'))] /\
       List.length before = List.length (_fn_stmts_completed_so_far st) /\
       List.length added = List.length captures /\
       forall i x, nth_error captures i = Some (Some x) ->
         exists formal, nth_error added i = Some formal /\
                        sym_name formal = sym_name x /\
                        sym_type formal = sym_type x) /\
  (forall baseExpr argList,
     findFnSymbol baseExpr = Some fn_sym ->
     exists baseExpr' extra st',
       postProcessExpr (CallExpr baseExpr argList) st
       = (CallExpr baseExpr' (argList ++ extra), st') /\
       List.length extra = List.length captures /\
       forall i x, nth_error captures i = Some (Some x) ->
                   nth_error extra i = Some (SymExpr x)) /\
  (forall i, i < List.length captures ->
             exists x, nth_error captures i = Some (Some x)).
Proof.
  intros HA HG Hst.
  pose proof (@enclVarUsesHelper_clean _ _ _ _ HA HG) as Cl.
  assert (NN : ~ In None captures) by apply Cl.
  subst args_map.
  split; [|split].
  - intros parent formals body.
    pose proof (@postProcessStmt_lift parent fn_sym formals body captures st HG)
      as E.
    cbv zeta in E.
    destruct (Vec_in Symbol_eq_dec (_fn_call_worklist st) fn_sym).
    + rewrite map_app in E. simpl in E.
      do 5 eexists. split; [exact E|]. simpl.
      split; [reflexivity|]. split; [apply length_map|].
      split; [rewrite new_formals_length; apply count_symbols_clean, NN|].
      intros i x Hi. exists (formal_for x (S (next_sym_id st) + i)).
      split; [apply new_formals_nth; auto | split; reflexivity].
    + do 5 eexists. split; [exact E|]. simpl.
      split; [reflexivity|]. split; [reflexivity|].
      split; [rewrite new_formals_length; apply count_symbols_clean, NN|].
      intros i x Hi. exists (formal_for x (S (next_sym_id st) + i)).
      split; [apply new_formals_nth; auto | split; reflexivity].
  - intros baseExpr argList Hf.
    unfold postProcessExpr. rewrite Hf, HG. unfold addNestedFuncActuals.
    rewrite fold_add_actual.
    assert (L : List.length (new_actuals captures) = List.length captures).
    { rewrite new_actuals_length. apply count_symbols_clean, NN. }
    destruct (Map_get (_nested_func_sym_map st) fn_sym) as [s|].
    + destruct (sym_class s); do 3 eexists;
        (split; [reflexivity|]; split; [exact L|];
         intros i x Hi; apply new_actuals_nth; auto).
    + do 3 eexists. split; [reflexivity|]. split; [exact L|].
      intros i x Hi. apply new_actuals_nth; auto.
  - intros i Hi. apply clean_vec_nth; auto.
Qed.

Lemma C1_witness :
  exists baseExpr' extra st',
    postProcessExpr (CallExpr (SymExpr sym_g) []) state_A
    = (CallExpr baseExpr' ([] ++ extra), st') /\
    List.length extra = 1 /\
    forall i x, nth_error [Some sym_x] i = Some (Some x) ->
                nth_error extra i = Some (SymExpr x).
Proof.
  refine (proj1 (proj2 (@C1_formal_actual_parity scenario_A
            [(sym_g, [Some sym_x])] sym_g [Some sym_x] state_A _ _ _))
          (SymExpr sym_g) [] _); reflexivity.
Defined.



(** C3 (amended): when [postProcessStmt] lifts a nested function it
    records the association from the old symbol to the new one; if the old
    symbol is in the worklist, every lifted copy made so far, the new one
    included, is rewritten with the whole old-to-new map, so that its
    references to the old symbol become references to the new one, and
    otherwise the copies are left alone; the worklist is not changed, the
    old symbol stays in it.  Neither callback ever takes a symbol out of
    the worklist or drops a recorded association. *)
Theorem C3_deferred_rewrite (st : RemoveNestedFunctions) :
  (forall parent fn_sym formals body captures,
     Map_get (_nested_func_args_map st) fn_sym = Some captures ->
     exists st' new_sym lifted,
       postProcessStmt (ParentFn parent)
         (ExprStmt (DefExpr (FnSymbol fn_sym formals body))) st
       = Some ([], st') /\
       Map_get (_nested_func_sym_map st') fn_sym = Some new_sym /\
       updated (_nested_func_sym_map st') fn_sym = new_sym /\
       _fn_call_worklist st' = _fn_call_worklist st /\
       (In fn_sym (_fn_call_worklist st) ->
          _fn_stmts_completed_so_far st'
          = map (UpdateSymbols (_nested_func_sym_map st'))
                (_fn_stmts_completed_so_far st ++ [lifted]) /\
          flat_map sym_uses (_fn_stmts_completed_so_far st')
          = map (updated (_nested_func_sym_map st'))
                (flat_map sym_uses (_fn_stmts_completed_so_far st ++ [lifted]))) /\
       (~ In fn_sym (_fn_call_worklist st) ->
          _fn_stmts_completed_so_far st'
          = _fn_stmts_completed_so_far st ++ [lifted]) /\
       (forall f, Map_get (_nested_func_sym_map st) f <> None ->
                  Map_get (_nested_func_sym_map st') f <> None)) /\
  (forall parent stmt out st',
     postProcessStmt parent stmt st = Some (out, st') ->
     _fn_call_worklist st' = _fn_call_worklist st) /\
  (forall expr expr' st',
     postProcessExpr expr st = (expr', st') ->
     _nested_func_sym_map st' = _nested_func_sym_map st /\
     _fn_stmts_completed_so_far st' = _fn_stmts_completed_so_far st /\
     incl (_fn_call_worklist st) (_fn_call_worklist st')).
Proof.
  split; [|split].
  - intros parent fn_sym formals body captures H.
    rewrite (@postProcessStmt_lift parent fn_sym formals body captures st H).
    cbv zeta. do 3 eexists. split; [reflexivity|]. simpl.
    split; [apply Map_get_put_eq|].
    split; [unfold updated; rewrite Map_get_put_eq; reflexivity|].
    split; [reflexivity|].
    split; [|split].
    + intros Hin. apply Vec_in_true with (C_eq_dec := Symbol_eq_dec) in Hin.
      rewrite Hin. split; [reflexivity|].
      apply sym_uses_UpdateSymbols_list.
    + intros Hin. apply Vec_in_false with (C_eq_dec := Symbol_eq_dec) in Hin.
      rewrite Hin. reflexivity.
    + intros f Hf. rewrite Map_get_put.
      destruct (Symbol_eq_dec fn_sym f); [discriminate | exact Hf].
  - intros parent stmt out st' H.
    destruct stmt as [[v|b args|[s|s fs b]]|l|c t e];
      try (inversion H; reflexivity).
    destruct parent as [|p]; [inversion H; reflexivity|].
    destruct (Map_get (_nested_func_args_map st) s) as [captures|] eqn:E.
    + rewrite (@postProcessStmt_lift p s fs b captures st E) in H.
      inversion H. reflexivity.
    + unfold postProcessStmt, hasEnclosingFunction in H. rewrite E in H.
      discriminate.
  - intros expr expr' st' H. unfold postProcessExpr in H.
    destruct expr as [v|b args|d];
      try (inversion H; subst; repeat split; apply incl_refl).
    destruct (findFnSymbol b) as [fn_sym|];
      [|inversion H; subst; repeat split; apply incl_refl].
    destruct (Map_get (_nested_func_args_map st) fn_sym) as [captures|];
      [|inversion H; subst; repeat split; apply incl_refl].
    unfold addNestedFuncActuals in H.
    destruct (match Map_get (_nested_func_sym_map st) fn_sym with
              | Some s => match sym_class s with
                          | FN_SYMBOL => Some s
                          | _ => None
                          end
              | None => None
              end);
      inversion H; subst; simpl; repeat split; try apply incl_refl.
    intros f Hf. apply In_Vec_add_exclusive. left. exact Hf.
Qed.

(** C3, as stated, fails: after the walk of the module with two nested
    functions that call each other, [g] is lifted and the copies are
    rewritten, and [g] is still in the worklist. *)
Lemma C3_counterexample :
  exists stmts st,
    run_traversal scenario_mutual = Some (stmts, st) /\
    Map_get (_nested_func_sym_map st) sym_g = Some (mkSymbol 9 "g" 0 FN_SYMBOL) /\
    In sym_g (_fn_call_worklist st).
Proof.
  eexists. eexists. split; [vm_compute; reflexivity|].
  split; [reflexivity | left; reflexivity].
Qed.

(** Example: the analysis of two nested functions that call each other
    gives both the two variables. *)
Example enclVarUsesHelper_mutual :
  enclVarUsesHelper scenario_mutual
  = Some [(sym_h, [Some sym_y; Some sym_x]); (sym_g, [Some sym_x; Some sym_y])].
Proof. reflexivity. Qed.

(** C4: the fixed-point loop of the capture analysis ends on every module:
    [rounds_bound] rounds (or more) always give the result.  The loop
    starts in a state that satisfies [loop_inv]; from such a state a round
    keeps [loop_inv], only adds variables to the global capture sets,
    leaves [change] unset exactly when it left every set as it was, and,
    when it sets [change], makes the total size of the sets grow, a size
    that the parent scopes of the nested functions bound: comparing
    lengths is enough to see growth. *)
Theorem C4_capture_analysis_terminates (module_stmts : list Stmt) :
  let fns := all_nested_functions_of module_stmts in
  (exists args_map,
     forall fuel, rounds_bound fns <= fuel ->
                  enclVarUsesHelper_fuel fuel module_stmts = Some args_map) /\
  loop_inv fns (initial_args_map fns) [] /\
  (forall global iter,
     loop_inv fns global iter ->
     exists global' change,
       fold_left (compare_for_changes (analysis_round fns iter)) fns
                 (Some (global, false)) = Some (global', change) /\
       loop_inv fns global' (analysis_round fns iter) /\
       (forall k, incl (contents global k) (contents global' k)) /\
       (change = false <-> global' = global) /\
       (change = true -> captured_size fns global < captured_size fns global') /\
       captured_size fns global'
       <= list_sum (map (fun fn => List.length (fn_parentScope fn)) fns)).
Proof.
  intros fns. split; [|split].
  - destruct (enclVarUsesHelper_total module_stmts) as [A [E _]].
    exists A. intros fuel Hf. unfold enclVarUsesHelper_fuel.
    eapply enclVarUses_loop_more_fuel; [exact E | exact Hf].
  - apply initial_loop_inv.
  - intros global iter Inv.
    destruct (@loop_round fns global iter
                (all_nested_functions_NoDup module_stmts) Inv)
      as [G' [c [EF [Inv' [CF [CT [Gr _]]]]]]].
    exists G', c. split; [exact EF|]. split; [exact Inv'|].
    split; [exact Gr|]. split; [|split].
    + split; [exact CF|]. intros ->. destruct c; auto.
      specialize (CT eq_refl). lia.
    + exact CT.
    + apply (captured_size_bound Inv').
Qed.

(* ================================================================= *)
(** ** The walk: shapes and frames *)

Arguments postProcessExpr : simpl never.
Arguments postProcessStmt : simpl never.

(** Case analysis on the option a step of the walk answers. *)
Ltac walk_step H :=
  match type of H with
  | match ?x with _ => _ end = Some _ =>
      let E := fresh "E" in
      let r := fresh "r" in
      let st := fresh "st" in
      destruct x as [[r st]|] eqn:E; [|discriminate H]
  end.

Lemma postProcessExpr_not_call (e : Expr) (st : RemoveNestedFunctions) :
  (forall b args, e <> CallExpr b args) -> postProcessExpr e st = (e, st).
Proof.
  intros H. destruct e as [v|b args|d]; try reflexivity.
  exfalso. apply (H b args). reflexivity.
Qed.

(** A call comes out of [postProcessExpr] as a call: the arguments it had,
    then one [SymExpr] per non-NULL slot of a capture set; its base is the
    one it had or a [SymExpr]. *)
Lemma postProcessExpr_call (b : Expr) (args : list Expr)
    (st : RemoveNestedFunctions) :
  exists b' captures st',
    postProcessExpr (CallExpr b args) st
    = (CallExpr b' (args ++ new_actuals captures), st') /\
    (b' = b \/ exists v, b' = SymExpr v) /\
    _nested_func_args_map st' = _nested_func_args_map st /\
    _nested_func_sym_map st' = _nested_func_sym_map st /\
    _fn_stmts_completed_so_far st' = _fn_stmts_completed_so_far st /\
    next_sym_id st' = next_sym_id st.
Proof.
  unfold postProcessExpr.
  destruct (findFnSymbol b) as [fn_sym|].
  - destruct (Map_get (_nested_func_args_map st) fn_sym) as [captures|].
    + unfold addNestedFuncActuals. rewrite fold_add_actual.
      destruct (match Map_get (_nested_func_sym_map st) fn_sym with
                | Some s => match sym_class s with
                            | FN_SYMBOL => Some s
                            | _ => None
                            end
                | None => None
                end) as [new_sym|].
      * exists (SymExpr new_sym), captures, st. split; [reflexivity|].
        split; [right; eexists; reflexivity|]. repeat split.
      * eexists b, captures, _. split; [reflexivity|].
        split; [left; reflexivity|]. repeat split.
    + exists b, [], st. simpl. rewrite app_nil_r. repeat split. left. reflexivity.
  - exists b, [], st. simpl. rewrite app_nil_r. repeat split. left. reflexivity.
Qed.

Lemma postProcessExpr_frame (e e' : Expr) (st st' : RemoveNestedFunctions) :
  postProcessExpr e st = (e', st') ->
  _nested_func_args_map st' = _nested_func_args_map st /\
  _nested_func_sym_map st' = _nested_func_sym_map st /\
  _fn_stmts_completed_so_far st' = _fn_stmts_completed_so_far st /\
  next_sym_id st' = next_sym_id st.
Proof.
  intros H. destruct e as [v|b args|d].
  - inversion H; subst. repeat split.
  - destruct (postProcessExpr_call b args st) as [b' [cs [st2 [E [_ F]]]]].
    rewrite E in H. inversion H; subst. exact F.
  - inversion H; subst. repeat split.
Qed.

Lemma nested_defs_new_actuals (in_fn : bool) (captures : SymVec) :
  flat_map (nested_defs_expr in_fn) (new_actuals captures) = [].
Proof.
  induction captures as [|[s|] cs IH]; simpl; auto.
Qed.

(** The walk keeps the kind of an expression, and the symbol and the
    formals of a function definition. *)
Lemma traverse_expr_shape (parent : ParentSymbol) (e e' : Expr)
    (st st' : RemoveNestedFunctions) :
  traverse_expr parent e st = Some (e', st') ->
  match e with
  | DefExpr (FnSymbol s fs _) => exists b', e' = DefExpr (FnSymbol s fs b')
  | DefExpr (VarSymbol s) => e' = e
  | SymExpr _ => e' = e
  | CallExpr _ _ => exists b' args', e' = CallExpr b' args'
  end.
Proof.
  intros H. destruct e as [v|b args|[s|s fs body]]; simpl in H.
  - inversion H. reflexivity.
  - walk_step H. walk_step H.
    destruct (postProcessExpr_call r r0 st1) as [b' [cs [st2 [E1 _]]]].
    rewrite E1 in H. inversion H. eexists. eexists. reflexivity.
  - inversion H. reflexivity.
  - walk_step H. walk_step E. inversion E; subst.
    inversion H. eexists. reflexivity.
Qed.

Lemma postProcessStmt_other (parent : ParentSymbol) (stmt : Stmt)
    (st : RemoveNestedFunctions) :
  match stmt with
  | ExprStmt e => is_fn_def e && is_fn parent
  | _ => false
  end = false ->
  postProcessStmt parent stmt st = Some ([stmt], st).
Proof.
  destruct stmt as [[v|b args|[s|s fs b]]|l|c t e]; try reflexivity.
  destruct parent; simpl; [reflexivity | discriminate].
Qed.

Lemma nested_defs_UpdateSymbols (m : Map Symbol) :
  (forall e in_fn, nested_defs_expr in_fn (UpdateSymbols_expr m e)
                   = nested_defs_expr in_fn e) /\
  (forall d in_fn, nested_defs_def in_fn (UpdateSymbols_def m d)
                   = nested_defs_def in_fn d) /\
  (forall s in_fn, nested_defs in_fn (UpdateSymbols m s) = nested_defs in_fn s).
Proof.
  apply ast_ind; simpl; intros.
  - destruct (Map_get m v); reflexivity.
  - rewrite H, flat_map_map. f_equal. apply flat_map_Forall_eq.
    eapply Forall_impl; [|exact H0]. intros a Ha. apply Ha.
  - apply H.
  - reflexivity.
  - rewrite flat_map_map. f_equal. apply flat_map_Forall_eq.
    eapply Forall_impl; [|exact H]. intros a Ha. apply Ha.
  - apply H.
  - rewrite flat_map_map. apply flat_map_Forall_eq.
    eapply Forall_impl; [|exact H]. intros a Ha. apply Ha.
  - rewrite H, !flat_map_map. f_equal. f_equal; apply flat_map_Forall_eq.
    + eapply Forall_impl; [|exact H0]. intros a Ha. apply Ha.
    + eapply Forall_impl; [|exact H1]. intros a Ha. apply Ha.
Qed.

Lemma nested_defs_UpdateSymbols_list (m : Map Symbol) (in_fn : bool)
    (l : list Stmt) :
  flat_map (nested_defs in_fn) (map (UpdateSymbols m) l)
  = flat_map (nested_defs in_fn) l.
Proof.
  rewrite flat_map_map. apply flat_map_Forall_eq, Forall_forall.
  intros s _. apply nested_defs_UpdateSymbols.
Qed.

(* ================================================================= *)
(** ** The walk leaves no nested function definition *)

Lemma traverse_expr_is_fn_def (parent : ParentSymbol) (e e' : Expr)
    (st st' : RemoveNestedFunctions) :
  traverse_expr parent e st = Some (e', st') -> is_fn_def e' = is_fn_def e.
Proof.
  intros H. apply traverse_expr_shape in H.
  destruct e as [v|b args|[s|s fs body]].
  - subst. reflexivity.
  - destruct H as [b' [args' ->]]. reflexivity.
  - subst. reflexivity.
  - destruct H as [b' ->]. reflexivity.
Qed.

Lemma wf_false_not_fn_def (e : Expr) :
  wf_expr false e = true -> is_fn_def e = false.
Proof.
  destruct e as [v|b args|[s|s fs body]]; simpl; auto.
Qed.

Lemma traverse_exprs_flat (parent : ParentSymbol) (args : list Expr) :
  Forall flat_expr_spec args ->
  forall st args' st',
    forallb (wf_expr false) args = true ->
    traverse_exprs (traverse_expr parent) args st = Some (args', st') ->
    completed_flat st ->
    completed_flat st' /\
    forall in_fn, flat_map (nested_defs_expr in_fn) args' = [].
Proof.
  induction 1 as [|a l Ha _ IH]; intros st args' st' Hwf H Hc; simpl in *.
  - inversion H; subst. split; auto.
  - apply andb_prop in Hwf. destruct Hwf as [Hwa Hwl].
    walk_step H. walk_step H. inversion H; subst.
    destruct (Ha false parent st r st0 Hwa E Hc) as [C1 [_ N1]].
    destruct (IH st0 r0 st' Hwl E0 C1) as [C2 N2].
    split; auto. intros in_fn. simpl.
    rewrite (N1 (wf_false_not_fn_def _ Hwa)), N2. reflexivity.
Qed.

Lemma traverse_AList_flat (parent : ParentSymbol) (l : list Stmt) :
  Forall flat_stmt_spec l ->
  forall st out st',
    forallb wf_stmt l = true ->
    traverse_AList (traverse_stmt parent) l st = Some (out, st') ->
    completed_flat st ->
    completed_flat st' /\ flat_map (nested_defs (is_fn parent)) out = [].
Proof.
  induction 1 as [|a l Ha _ IH]; intros st out st' Hwf H Hc; simpl in *.
  - inversion H; subst. split; auto.
  - apply andb_prop in Hwf. destruct Hwf as [Hwa Hwl].
    walk_step H. walk_step H. inversion H; subst.
    destruct (Ha parent st r st0 Hwa E Hc) as [C1 N1].
    destruct (IH st0 r0 st' Hwl E0 C1) as [C2 N2].
    split; auto. rewrite flat_map_app, N1, N2. reflexivity.
Qed.

Lemma traverse_flat :
  (forall e, flat_expr_spec e) /\ (forall d, flat_def_spec d) /\
  (forall s, flat_stmt_spec s).
Proof.
  apply ast_ind.
  - (* SymExpr *)
    intros v top parent st e' st' _ H Hc. simpl in H.
    inversion H; subst. auto.
  - (* CallExpr *)
    intros b args Hb Hargs top parent st e' st' Hwf H Hc. simpl in *.
    apply andb_prop in Hwf. destruct Hwf as [Hwb Hwa].
    walk_step H. walk_step H.
    destruct (Hb false parent st r st0 Hwb E Hc) as [C1 [_ N1]].
    destruct (@traverse_exprs_flat parent args Hargs st0 r0 st1 Hwa E0 C1)
      as [C2 N2].
    destruct (postProcessExpr_call r r0 st1) as [b' [cs [st2 [E1 [Hb' [_ [_ [F _]]]]]]]].
    rewrite E1 in H. inversion H; subst.
    assert (N : forall in_fn,
               nested_defs_expr in_fn (CallExpr b' (r0 ++ new_actuals cs)) = []).
    { intros in_fn. simpl.
      rewrite flat_map_app, N2, nested_defs_new_actuals.
      destruct Hb' as [->|[v ->]]; [|reflexivity].
      rewrite (N1 (wf_false_not_fn_def _ Hwb)). reflexivity. }
    split; [|split; auto].
    unfold completed_flat in *. rewrite F. exact C2.
  - (* DefExpr *)
    intros d Hd top parent st e' st' Hwf H Hc. simpl in *.
    walk_step H. rewrite postProcessExpr_not_call in H by discriminate.
    inversion H; subst.
    destruct (Hd top parent st r st' Hwf E Hc) as [C1 [N1 N2]].
    split; auto.
  - (* VarSymbol *)
    intros s top parent st d' st' _ H Hc. simpl in H.
    inversion H; subst. auto.
  - (* FnSymbol *)
    intros s fs b Hb top parent st d' st' Hwf H Hc. simpl in *.
    apply andb_prop in Hwf. destruct Hwf as [_ Hwb].
    walk_step H. inversion H; subst.
    destruct (@traverse_AList_flat (ParentFn s) b Hb st r st' Hwb E Hc)
      as [C1 N1].
    simpl in N1. split; auto. split; [simpl; exact N1 | discriminate].
  - (* ExprStmt *)
    intros e He parent st out st' Hwf H Hc. simpl in *.
    walk_step H.
    destruct (He true parent st r st0 Hwf E Hc) as [C1 [N1 N2]].
    pose proof (traverse_expr_is_fn_def _ _ _ E) as Hdef.
    destruct (is_fn_def e) eqn:Ee.
    + (* the definition of a function *)
      pose proof (traverse_expr_shape _ _ _ E) as Hs.
      destruct e as [v|b args|[s|s fs body]]; try discriminate.
      destruct Hs as [b' ->].
      destruct parent as [|p].
      * rewrite postProcessStmt_other in H by reflexivity.
        inversion H; subst. split; auto. simpl. rewrite app_nil_r. exact N1.
      * destruct (Map_get (_nested_func_args_map st0) s) as [cs|] eqn:Ecs.
        -- rewrite (@postProcessStmt_lift p s fs b' cs st0 Ecs) in H.
           cbv zeta in H. inversion H; subst. split; [|reflexivity].
           unfold completed_flat in *. simpl in *.
           assert (L : flat_map (nested_defs false)
                         (_fn_stmts_completed_so_far st0 ++
                          [ExprStmt (DefExpr (FnSymbol
                             (mkSymbol (next_sym_id st0) (sym_name s)
                                       (sym_type s) (sym_class s))
                             (fs ++ new_formals cs (S (next_sym_id st0)))
                             (if Nat.eqb (List.length cs) 0 then b'
                              else map (UpdateSymbols
                                          (new_update_map cs (S (next_sym_id st0)) []))
                                       b')))]) = []).
           { rewrite flat_map_app, C1. simpl. rewrite app_nil_r.
             destruct (Nat.eqb (List.length cs) 0); auto.
             rewrite nested_defs_UpdateSymbols_list. exact N1. }
           destruct (Vec_in Symbol_eq_dec (_fn_call_worklist st0) s); auto.
           rewrite nested_defs_UpdateSymbols_list. exact L.
        -- unfold postProcessStmt, hasEnclosingFunction in H.
           rewrite Ecs in H. discriminate.
    + (* another expression *)
      rewrite postProcessStmt_other in H by (rewrite Hdef; reflexivity).
      inversion H; subst. split; auto. simpl. rewrite app_nil_r.
      apply N2. reflexivity.
  - (* BlockStmt *)
    intros l Hl parent st out st' Hwf H Hc. simpl in *.
    walk_step H. rewrite postProcessStmt_other in H by reflexivity.
    inversion H; subst.
    destruct (@traverse_AList_flat parent l Hl st r st' Hwf E Hc) as [C1 N1].
    split; auto. simpl. rewrite app_nil_r. exact N1.
  - (* CondStmt *)
    intros c t e Hc' Ht He parent st out st' Hwf H Hc. simpl in *.
    apply andb_prop in Hwf. destruct Hwf as [Hwf Hwe].
    apply andb_prop in Hwf. destruct Hwf as [Hwc Hwt].
    walk_step H. walk_step H. walk_step H.
    rewrite postProcessStmt_other in H by reflexivity.
    inversion H; subst.
    destruct (Hc' false parent st r st0 Hwc E Hc) as [C1 [_ N1]].
    destruct (@traverse_AList_flat parent t Ht st0 r0 st1 Hwt E0 C1) as [C2 N2].
    destruct (@traverse_AList_flat parent e He st1 r1 st' Hwe E1 C2) as [C3 N3].
    split; auto. simpl.
    rewrite (N1 (wf_false_not_fn_def _ Hwc)), N2, N3. reflexivity.
Qed.

(* ================================================================= *)
(** ** The walk never reads a missing capture set *)

Lemma traverse_exprs_total (A : Map SymVec) (parent : ParentSymbol)
    (args : list Expr) :
  Forall (total_expr_spec A) args ->
  forall st,
    _nested_func_args_map st = A ->
    (forall s, In s (flat_map (nested_defs_expr (is_fn parent)) args) ->
               Map_get A s <> None) ->
    exists args' st',
      traverse_exprs (traverse_expr parent) args st = Some (args', st') /\
      _nested_func_args_map st' = A.
Proof.
  induction 1 as [|a l Ha _ IH]; intros st HA HK; simpl in *.
  - eauto.
  - destruct (Ha parent st HA) as [a' [st1 [E1 A1]]].
    { intros s Hs. apply HK, in_or_app. left. exact Hs. }
    destruct (IH st1 A1) as [l' [st2 [E2 A2]]].
    { intros s Hs. apply HK, in_or_app. right. exact Hs. }
    rewrite E1, E2. eauto.
Qed.

Lemma traverse_AList_total (A : Map SymVec) (parent : ParentSymbol)
    (l : list Stmt) :
  Forall (total_stmt_spec A) l ->
  forall st,
    _nested_func_args_map st = A ->
    (forall s, In s (flat_map (nested_defs (is_fn parent)) l) ->
               Map_get A s <> None) ->
    exists out st',
      traverse_AList (traverse_stmt parent) l st = Some (out, st') /\
      _nested_func_args_map st' = A.
Proof.
  induction 1 as [|a l Ha _ IH]; intros st HA HK; simpl in *.
  - eauto.
  - destruct (Ha parent st HA) as [a' [st1 [E1 A1]]].
    { intros s Hs. apply HK, in_or_app. left. exact Hs. }
    destruct (IH st1 A1) as [l' [st2 [E2 A2]]].
    { intros s Hs. apply HK, in_or_app. right. exact Hs. }
    rewrite E1, E2. eauto.
Qed.

Lemma traverse_total (A : Map SymVec) :
  (forall e, total_expr_spec A e) /\ (forall d, total_def_spec A d) /\
  (forall s, total_stmt_spec A s).
Proof.
  apply ast_ind.
  - (* SymExpr *)
    intros v parent st HA _. simpl.
    rewrite postProcessExpr_not_call by discriminate. eauto.
  - (* CallExpr *)
    intros b args Hb Hargs parent st HA HK. simpl in *.
    destruct (Hb parent st HA) as [b' [st1 [E1 A1]]].
    { intros s Hs. apply HK, in_or_app. left. exact Hs. }
    destruct (@traverse_exprs_total A parent args Hargs st1 A1)
      as [args' [st2 [E2 A2]]].
    { intros s Hs. apply HK, in_or_app. right. exact Hs. }
    rewrite E1, E2.
    destruct (postProcessExpr (CallExpr b' args') st2) as [e' st3] eqn:E3.
    exists e', st3. split; [reflexivity|].
    apply postProcessExpr_frame in E3. destruct E3 as [F _]. congruence.
  - (* DefExpr *)
    intros d Hd parent st HA HK. simpl in *.
    destruct (Hd parent st HA HK) as [d' [st1 [E1 A1]]].
    rewrite E1, postProcessExpr_not_call by discriminate. eauto.
  - (* VarSymbol *)
    intros s parent st HA _. simpl. eauto.
  - (* FnSymbol *)
    intros s fs b Hb parent st HA HK. simpl in *.
    destruct (@traverse_AList_total A (ParentFn s) b Hb st HA)
      as [b' [st1 [E1 A1]]].
    { intros f Hf. apply HK, in_or_app. right. exact Hf. }
    rewrite E1. eauto.
  - (* ExprStmt *)
    intros e He parent st HA HK. simpl in *.
    destruct (He parent st HA HK) as [e' [st1 [E1 A1]]].
    rewrite E1.
    destruct (is_fn_def e && is_fn parent) eqn:Ed.
    + apply andb_prop in Ed. destruct Ed as [Ed Ep].
      pose proof (traverse_expr_shape _ _ _ E1) as Hs.
      destruct e as [v|b args|[s|s fs body]]; try discriminate.
      destruct Hs as [b' ->].
      destruct parent as [|p]; [discriminate|].
      destruct (Map_get (_nested_func_args_map st1) s) as [cs|] eqn:Ecs.
      * rewrite (@postProcessStmt_lift p s fs b' cs st1 Ecs). cbv zeta.
        eexists. eexists. split; [reflexivity|]. exact A1.
      * exfalso. apply (HK s); [left; reflexivity | congruence].
    + rewrite postProcessStmt_other.
      * eauto.
      * rewrite (traverse_expr_is_fn_def _ _ _ E1). exact Ed.
  - (* BlockStmt *)
    intros l Hl parent st HA HK. simpl in *.
    destruct (@traverse_AList_total A parent l Hl st HA HK) as [l' [st1 [E1 A1]]].
    rewrite E1, postProcessStmt_other by reflexivity. eauto.
  - (* CondStmt *)
    intros c t e Hc Ht He parent st HA HK. simpl in *.
    destruct (Hc parent st HA) as [c' [st1 [E1 A1]]].
    { intros s Hs. apply HK, in_or_app. left. exact Hs. }
    destruct (@traverse_AList_total A parent t Ht st1 A1) as [t' [st2 [E2 A2]]].
    { intros s Hs. apply HK, in_or_app. right. apply in_or_app. left. exact Hs. }
    destruct (@traverse_AList_total A parent e He st2 A2) as [e' [st3 [E3 A3]]].
    { intros s Hs. apply HK, in_or_app. right. apply in_or_app. right. exact Hs. }
    rewrite E1, E2, E3, postProcessStmt_other by reflexivity. eauto.
Qed.

(* ================================================================= *)
(** ** One lifted copy per nested function definition *)

Lemma wf_nested_defs_nil :
  (forall e, wf_expr false e = true ->
             forall in_fn, nested_defs_expr in_fn e = []) /\
  (forall d, wf_def false d = true ->
             forall in_fn, nested_defs_def in_fn d = []) /\
  (forall s : Stmt, True).
Proof.
  apply ast_ind; simpl; intros; auto.
  - apply andb_prop in H1. destruct H1 as [Hb Ha].
    rewrite (H Hb). simpl.
    induction H0 as [|a l Ha0 _ IH]; simpl in *; auto.
    apply andb_prop in Ha. destruct Ha as [H1 H2].
    rewrite (Ha0 H1), (IH H2). reflexivity.
  - discriminate.
Qed.

Lemma wf_not_fn_def (top : bool) (e : Expr) :
  wf_expr top e = true -> is_fn_def e = false -> wf_expr false e = true.
Proof.
  destruct e as [v|b args|[s|s fs body]]; simpl; auto; try discriminate.
Qed.

Lemma traverse_exprs_count (parent : ParentSymbol) (args : list Expr) :
  Forall count_expr_spec args ->
  forall st args' st',
    forallb (wf_expr false) args = true ->
    traverse_exprs (traverse_expr parent) args st = Some (args', st') ->
    List.length (_fn_stmts_completed_so_far st')
    = List.length (_fn_stmts_completed_so_far st).
Proof.
  induction 1 as [|a l Ha _ IH]; intros st args' st' Hwf H; simpl in *.
  - inversion H; subst. reflexivity.
  - apply andb_prop in Hwf. destruct Hwf as [Hwa Hwl].
    walk_step H. walk_step H. inversion H; subst.
    rewrite (IH st0 r0 st' Hwl E0), (Ha false parent st r st0 Hwa E).
    rewrite (proj1 wf_nested_defs_nil a Hwa). simpl. lia.
Qed.

Lemma traverse_AList_count (parent : ParentSymbol) (l : list Stmt) :
  Forall count_stmt_spec l ->
  forall st out st',
    forallb wf_stmt l = true ->
    traverse_AList (traverse_stmt parent) l st = Some (out, st') ->
    List.length (_fn_stmts_completed_so_far st')
    = List.length (_fn_stmts_completed_so_far st)
      + List.length (flat_map (nested_defs (is_fn parent)) l).
Proof.
  induction 1 as [|a l Ha _ IH]; intros st out st' Hwf H; simpl in *.
  - inversion H; subst. lia.
  - apply andb_prop in Hwf. destruct Hwf as [Hwa Hwl].
    walk_step H. walk_step H. inversion H; subst.
    rewrite (IH st0 r0 st' Hwl E0), (Ha parent st r st0 Hwa E).
    rewrite length_app. lia.
Qed.

Lemma traverse_count :
  (forall e, count_expr_spec e) /\ (forall d, count_def_spec d) /\
  (forall s, count_stmt_spec s).
Proof.
  apply ast_ind.
  - (* SymExpr *)
    intros v top parent st e' st' _ H. simpl in H.
    rewrite postProcessExpr_not_call in H by discriminate.
    inversion H; subst. simpl. lia.
  - (* CallExpr *)
    intros b args Hb Hargs top parent st e' st' Hwf H. simpl in *.
    apply andb_prop in Hwf. destruct Hwf as [Hwb Hwa].
    walk_step H. walk_step H.
    destruct (postProcessExpr (CallExpr r r0) st1) as [e2 st2] eqn:E2.
    apply postProcessExpr_frame in E2. destruct E2 as [_ [_ [F _]]].
    inversion H; subst. rewrite F.
    rewrite (@traverse_exprs_count parent args Hargs st0 r0 st1 Hwa E0).
    rewrite (Hb false parent st r st0 Hwb E).
    rewrite (proj1 wf_nested_defs_nil b Hwb).
    assert (Hn : flat_map (nested_defs_expr false) args = []).
    { clear - Hwa. induction args as [|a args IH]; simpl in *; auto.
      apply andb_prop in Hwa. destruct Hwa as [H1 H2].
      rewrite (proj1 wf_nested_defs_nil a H1), (IH H2). reflexivity. }
    rewrite Hn. reflexivity.
  - (* DefExpr *)
    intros d Hd top parent st e' st' Hwf H. simpl in *.
    walk_step H. rewrite postProcessExpr_not_call in H by discriminate.
    inversion H; subst. apply (Hd top parent st r st' Hwf E).
  - (* VarSymbol *)
    intros s top parent st d' st' _ H. simpl in H.
    inversion H; subst. simpl. lia.
  - (* FnSymbol *)
    intros s fs b Hb top parent st d' st' Hwf H. simpl in *.
    apply andb_prop in Hwf. destruct Hwf as [_ Hwb].
    walk_step H. inversion H; subst.
    apply (@traverse_AList_count (ParentFn s) b Hb st r st' Hwb E).
  - (* ExprStmt *)
    intros e He parent st out st' Hwf H. simpl in *.
    walk_step H.
    pose proof (He true parent st r st0 Hwf E) as C1.
    destruct (is_fn_def e && is_fn parent) eqn:Ed.
    + apply andb_prop in Ed. destruct Ed as [Ed Ep].
      pose proof (traverse_expr_shape _ _ _ E) as Hs.
      destruct e as [v|b args|[s|s fs body]]; try discriminate.
      destruct Hs as [b' ->].
      destruct parent as [|p]; [discriminate|].
      destruct (Map_get (_nested_func_args_map st0) s) as [cs|] eqn:Ecs.
      * rewrite (@postProcessStmt_lift p s fs b' cs st0 Ecs) in H.
        cbv zeta in H. inversion H; subst. simpl in *.
        destruct (Vec_in Symbol_eq_dec (_fn_call_worklist st0) s);
          [rewrite length_map|]; rewrite length_app; simpl; lia.
      * unfold postProcessStmt, hasEnclosingFunction in H.
        rewrite Ecs in H. discriminate.
    + rewrite postProcessStmt_other in H
        by (rewrite (traverse_expr_is_fn_def _ _ _ E); exact Ed).
      inversion H; subst. rewrite C1.
      destruct (is_fn_def e) eqn:Ee.
      * destruct parent; [reflexivity | discriminate].
      * rewrite !(proj1 wf_nested_defs_nil e (wf_not_fn_def _ _ Hwf Ee)).
        reflexivity.
  - (* BlockStmt *)
    intros l Hl parent st out st' Hwf H. simpl in *.
    walk_step H. rewrite postProcessStmt_other in H by reflexivity.
    inversion H; subst.
    apply (@traverse_AList_count parent l Hl st r st' Hwf E).
  - (* CondStmt *)
    intros c t e Hc Ht He parent st out st' Hwf H. simpl in *.
    apply andb_prop in Hwf. destruct Hwf as [Hwf Hwe].
    apply andb_prop in Hwf. destruct Hwf as [Hwc Hwt].
    walk_step H. walk_step H. walk_step H.
    rewrite postProcessStmt_other in H by reflexivity.
    inversion H; subst.
    rewrite (@traverse_AList_count parent e He st1 r1 st' Hwe E1).
    rewrite (@traverse_AList_count parent t Ht st0 r0 st1 Hwt E0).
    rewrite (Hc false parent st r st0 Hwc E).
    rewrite !(proj1 wf_nested_defs_nil c Hwc).
    rewrite !length_app. simpl. lia.
Qed.

(* ================================================================= *)
(** ** Without nested function the pass changes nothing *)

Lemma postProcessExpr_no_args_map (e : Expr) (st : RemoveNestedFunctions) :
  _nested_func_args_map st = [] -> postProcessExpr e st = (e, st).
Proof.
  intros H. destruct e as [v|b args|d]; try reflexivity.
  unfold postProcessExpr. rewrite H.
  destruct (findFnSymbol b); reflexivity.
Qed.

Lemma traverse_exprs_same (parent : ParentSymbol) (args : list Expr) :
  Forall same_expr_spec args ->
  forall st,
    _nested_func_args_map st = [] ->
    flat_map (nested_defs_expr (is_fn parent)) args = [] ->
    traverse_exprs (traverse_expr parent) args st = Some (args, st).
Proof.
  induction 1 as [|a l Ha _ IH]; intros st HA HN; simpl in *.
  - reflexivity.
  - apply app_eq_nil in HN. destruct HN as [N1 N2].
    rewrite (Ha parent st HA N1), (IH st HA N2). reflexivity.
Qed.

Lemma traverse_AList_same (parent : ParentSymbol) (l : list Stmt) :
  Forall same_stmt_spec l ->
  forall st,
    _nested_func_args_map st = [] ->
    flat_map (nested_defs (is_fn parent)) l = [] ->
    traverse_AList (traverse_stmt parent) l st = Some (l, st).
Proof.
  induction 1 as [|a l Ha _ IH]; intros st HA HN; simpl in *.
  - reflexivity.
  - apply app_eq_nil in HN. destruct HN as [N1 N2].
    rewrite (Ha parent st HA N1), (IH st HA N2). reflexivity.
Qed.

Lemma traverse_same :
  (forall e, same_expr_spec e) /\ (forall d, same_def_spec d) /\
  (forall s, same_stmt_spec s).
Proof.
  apply ast_ind.
  - intros v parent st HA _. simpl.
    rewrite postProcessExpr_not_call by discriminate. reflexivity.
  - intros b args Hb Hargs parent st HA HN. simpl in *.
    apply app_eq_nil in HN. destruct HN as [N1 N2].
    rewrite (Hb parent st HA N1).
    rewrite (@traverse_exprs_same parent args Hargs st HA N2).
    rewrite postProcessExpr_no_args_map by exact HA. reflexivity.
  - intros d Hd parent st HA HN. simpl in *.
    rewrite (Hd parent st HA HN).
    rewrite postProcessExpr_not_call by discriminate. reflexivity.
  - intros s parent st HA _. reflexivity.
  - intros s fs b Hb parent st HA HN. simpl in *.
    apply app_eq_nil in HN. destruct HN as [N1 N2].
    rewrite (@traverse_AList_same (ParentFn s) b Hb st HA N2). reflexivity.
  - intros e He parent st HA HN. simpl in *.
    rewrite (He parent st HA HN).
    apply postProcessStmt_other.
    destruct e as [v|b args|[s|s fs body]]; try reflexivity.
    destruct parent; [reflexivity | discriminate].
  - intros l Hl parent st HA HN. simpl in *.
    rewrite (@traverse_AList_same parent l Hl st HA HN).
    apply postProcessStmt_other. reflexivity.
  - intros c t e Hc Ht He parent st HA HN. simpl in *.
    apply app_eq_nil in HN. destruct HN as [N1 HN].
    apply app_eq_nil in HN. destruct HN as [N2 N3].
    rewrite (Hc parent st HA N1).
    rewrite (@traverse_AList_same parent t Ht st HA N2).
    rewrite (@traverse_AList_same parent e He st HA N3).
    apply postProcessStmt_other. reflexivity.
Qed.

(* ================================================================= *)
(** ** The nested functions the analysis enumerates *)

Lemma nested_keys_flat_map (A : Type) (f : A -> list FnInfo)
    (g : A -> list Symbol) (l : list A) :
  Forall (fun a => map fn_symbol (filter has_enclosing (f a)) = g a) l ->
  map fn_symbol (filter has_enclosing (flat_map f l)) = flat_map g l.
Proof.
  induction 1 as [|a l Ha _ IH]; simpl; [reflexivity|].
  rewrite filter_app, map_app, Ha, IH. reflexivity.
Qed.

(** [collect_functions] and the walk agree on which definitions are
    nested. *)
Lemma collect_functions_nested :
  (forall e parent scope,
     map fn_symbol (filter has_enclosing (collect_functions_expr parent scope e))
     = nested_defs_expr (is_fn parent) e) /\
  (forall d parent scope,
     map fn_symbol (filter has_enclosing (collect_functions_def parent scope d))
     = nested_defs_def (is_fn parent) d) /\
  (forall s parent scope,
     map fn_symbol (filter has_enclosing (collect_functions_stmt parent scope s))
     = nested_defs (is_fn parent) s).
Proof.
  apply ast_ind; simpl; intros; auto.
  - rewrite filter_app, map_app, H. f_equal.
    apply nested_keys_flat_map.
    eapply Forall_impl; [|exact H0]. intros a Ha. apply Ha.
  - unfold has_enclosing at 1. simpl.
    destruct (is_fn parent); simpl; [f_equal|];
      (apply nested_keys_flat_map with (g := nested_defs true);
       eapply Forall_impl; [|exact H]; intros a Ha; apply (Ha (ParentFn s))).
  - apply nested_keys_flat_map.
    eapply Forall_impl; [|exact H]. intros a Ha. apply Ha.
  - rewrite !filter_app, !map_app, H. f_equal. f_equal.
    + apply nested_keys_flat_map.
      eapply Forall_impl; [|exact H0]. intros a Ha. apply Ha.
    + apply nested_keys_flat_map.
      eapply Forall_impl; [|exact H1]. intros a Ha. apply Ha.
Qed.

Lemma collect_functions_nested_defs (module_stmts : list Stmt) :
  map fn_symbol (filter has_enclosing (collect_functions module_stmts))
  = nested_defs_of module_stmts.
Proof.
  unfold collect_functions, nested_defs_of.
  apply nested_keys_flat_map, Forall_forall. intros s _.
  apply (proj2 (proj2 collect_functions_nested) s ModuleSymbol []).
Qed.

Lemma hasEnclosingFunction_is_fn (p : ParentSymbol) :
  hasEnclosingFunction p = None <-> is_fn p = false.
Proof.
  destruct p; simpl; split; intros; auto; discriminate.
Qed.

Lemma find_nested_functions_keys (l acc : list FnInfo) :
  incl (map fn_symbol acc) (map fn_symbol (fold_left add_if_nested l acc)) /\
  incl (map fn_symbol (filter has_enclosing l))
       (map fn_symbol (fold_left add_if_nested l acc)) /\
  (filter has_enclosing l = [] -> fold_left add_if_nested l acc = acc).
Proof.
  revert acc. induction l as [|fn l IH]; intros acc; cbn [fold_left filter].
  - split; [apply incl_refl|]. split; [intros x []|reflexivity].
  - assert (Hh : has_enclosing fn = is_fn (fn_parentSymbol fn)) by reflexivity.
    assert (Ha : add_if_nested acc fn
                 = match hasEnclosingFunction (fn_parentSymbol fn) with
                   | Some _ => fn_add_exclusive acc fn
                   | None => acc
                   end) by reflexivity.
    rewrite Ha, Hh. clear Ha Hh.
    destruct (fn_parentSymbol fn) as [|p]; cbn [hasEnclosingFunction is_fn].
    + apply IH.
    + destruct (IH (fn_add_exclusive acc fn)) as [I1 [I2 _]].
      assert (Hacc : incl (map fn_symbol acc)
                          (map fn_symbol (fn_add_exclusive acc fn))).
      { unfold fn_add_exclusive. destruct (fn_in acc fn); [apply incl_refl|].
        unfold Vec_add. rewrite map_app. apply incl_appl, incl_refl. }
      assert (Hfn : In (fn_symbol fn) (map fn_symbol (fn_add_exclusive acc fn))).
      { unfold fn_add_exclusive, fn_in.
        destruct (Vec_in Symbol_eq_dec (map fn_symbol acc) (fn_symbol fn)) eqn:E.
        - apply Vec_in_true in E. exact E.
        - unfold Vec_add. rewrite map_app. apply in_or_app. right. left.
          reflexivity. }
      split; [eapply incl_tran; eassumption|].
      split; [|discriminate].
      intros x [<-|Hx]; [apply I1, Hfn | apply I2, Hx].
Qed.

Lemma all_nested_functions_keys (module_stmts : list Stmt) (s : Symbol) :
  In s (nested_defs_of module_stmts) ->
  In s (map fn_symbol (all_nested_functions_of module_stmts)).
Proof.
  rewrite <- collect_functions_nested_defs. unfold all_nested_functions_of.
  apply (find_nested_functions_keys (collect_functions module_stmts) []).
Qed.

Lemma all_nested_functions_nil (module_stmts : list Stmt) :
  nested_defs_of module_stmts = [] ->
  all_nested_functions_of module_stmts = [].
Proof.
  rewrite <- collect_functions_nested_defs. intros H.
  apply map_eq_nil in H. unfold all_nested_functions_of.
  apply (find_nested_functions_keys (collect_functions module_stmts) []), H.
Qed.

(** The capture-set map has an entry for every nested function. *)
Lemma enclVarUsesHelper_entries (module_stmts : list Stmt) :
  exists args_map,
    enclVarUsesHelper module_stmts = Some args_map /\
    forall s, In s (nested_defs_of module_stmts) -> Map_get args_map s <> None.
Proof.
  destruct (enclVarUsesHelper_total module_stmts) as [A [E [_ [N _]]]].
  exists A. split; [exact E|]. intros s Hs.
  apply all_nested_functions_keys, in_map_iff in Hs.
  destruct Hs as [fn [<- Hfn]]. apply N, Hfn.
Qed.

Lemma enclVarUsesHelper_no_nested (module_stmts : list Stmt) :
  nested_defs_of module_stmts = [] ->
  enclVarUsesHelper module_stmts = Some [].
Proof.
  intros H. unfold enclVarUsesHelper, enclVarUsesHelper_fuel.
  rewrite (all_nested_functions_nil _ H). reflexivity.
Qed.

(* ================================================================= *)
(** ** The lifted copies are definitions of functions *)

Lemma is_def_stmt_UpdateSymbols (m : Map Symbol) (s : Stmt) :
  is_def_stmt (UpdateSymbols m s) = is_def_stmt s.
Proof.
  destruct s as [[v|b args|[s|s fs body]]|l|c t e]; simpl; auto.
  destruct (Map_get m v); reflexivity.
Qed.

(** A property of the state that both callbacks keep is kept by the walk. *)
Lemma traverse_preserves (I : RemoveNestedFunctions -> Prop) :
  (forall e st e' st', I st -> postProcessExpr e st = (e', st') -> I st') ->
  (forall parent s st out st',
     I st -> postProcessStmt parent s st = Some (out, st') -> I st') ->
  (forall e parent st e' st',
     I st -> traverse_expr parent e st = Some (e', st') -> I st') /\
  (forall d parent st d' st',
     I st -> traverse_def parent d st = Some (d', st') -> I st') /\
  (forall s parent st out st',
     I st -> traverse_stmt parent s st = Some (out, st') -> I st').
Proof.
  intros HE HS.
  assert (HL : forall parent l,
             Forall (fun s => forall parent st out st',
                       I st -> traverse_stmt parent s st = Some (out, st') ->
                       I st') l ->
             forall st out st',
               I st ->
               traverse_AList (traverse_stmt parent) l st = Some (out, st') ->
               I st').
  { intros parent l HF. induction HF as [|a l Ha _ IH];
      intros st out st' Hi H; simpl in H.
    - inversion H; subst. exact Hi.
    - walk_step H. walk_step H. inversion H; subst.
      eapply IH; [|exact E0]. eapply Ha; eassumption. }
  apply ast_ind.
  - intros v parent st e' st' Hi H. simpl in H.
    destruct (postProcessExpr (SymExpr v) st) as [e2 st2] eqn:E.
    inversion H; subst. eapply HE; eassumption.
  - intros b args Hb Hargs parent st e' st' Hi H. simpl in H.
    walk_step H. walk_step H.
    destruct (postProcessExpr (CallExpr r r0) st1) as [e2 st2] eqn:E2.
    inversion H; subst. eapply HE; [|exact E2].
    assert (I st0) by (eapply Hb; eassumption).
    clear - Hargs H0 E0. revert st0 r0 st1 H0 E0.
    induction Hargs as [|a l Ha _ IH]; intros st0 r0 st1 Hi H; simpl in H.
    + inversion H; subst. exact Hi.
    + walk_step H. walk_step H. inversion H; subst.
      eapply IH; [|exact E0]. eapply Ha; eassumption.
  - intros d Hd parent st e' st' Hi H. simpl in H.
    walk_step H.
    destruct (postProcessExpr (DefExpr r) st0) as [e2 st2] eqn:E2.
    inversion H; subst. eapply HE; [|exact E2]. eapply Hd; eassumption.
  - intros s parent st d' st' Hi H. simpl in H. inversion H; subst. exact Hi.
  - intros s fs b Hb parent st d' st' Hi H. simpl in H.
    walk_step H. inversion H; subst. eapply HL; eassumption.
  - intros e He parent st out st' Hi H. simpl in H.
    walk_step H. eapply HS; [|exact H]. eapply He; eassumption.
  - intros l Hl parent st out st' Hi H. simpl in H.
    walk_step H. eapply HS; [|exact H]. eapply HL; eassumption.
  - intros c t e Hc Ht He parent st out st' Hi H. simpl in H.
    walk_step H. walk_step H. walk_step H.
    eapply HS; [|exact H].
    eapply HL; [exact He| |exact E1].
    eapply HL; [exact Ht| |exact E0].
    eapply Hc; eassumption.
Qed.

Lemma traverse_AList_preserves (I : RemoveNestedFunctions -> Prop) :
  (forall e st e' st', I st -> postProcessExpr e st = (e', st') -> I st') ->
  (forall parent s st out st',
     I st -> postProcessStmt parent s st = Some (out, st') -> I st') ->
  forall parent l st out st',
    I st -> traverse_AList (traverse_stmt parent) l st = Some (out, st') -> I st'.
Proof.
  intros HE HS parent l.
  destruct (traverse_preserves I HE HS) as [_ [_ HT]].
  induction l as [|a l IH]; intros st out st' Hi H; simpl in H.
  - inversion H; subst. exact Hi.
  - walk_step H. walk_step H. inversion H; subst.
    eapply IH; [|exact E0]. eapply HT; eassumption.
Qed.

Lemma completed_are_definitions (parent : ParentSymbol) (l : list Stmt)
    (st : RemoveNestedFunctions) (out : list Stmt) (st' : RemoveNestedFunctions) :
  forallb is_def_stmt (_fn_stmts_completed_so_far st) = true ->
  traverse_AList (traverse_stmt parent) l st = Some (out, st') ->
  forallb is_def_stmt (_fn_stmts_completed_so_far st') = true.
Proof.
  apply (traverse_AList_preserves
           (fun st => forallb is_def_stmt (_fn_stmts_completed_so_far st) = true)).
  - intros e st0 e' st0' Hi H. apply postProcessExpr_frame in H.
    destruct H as [_ [_ [F _]]]. rewrite F. exact Hi.
  - intros p s st0 out0 st0' Hi H.
    destruct (match s with
              | ExprStmt e => is_fn_def e && is_fn p
              | _ => false
              end) eqn:Ed.
    + destruct s as [[v|b args|[s|s fs body]]|l0|c t e]; try discriminate.
      destruct p as [|p]; [discriminate|].
      destruct (Map_get (_nested_func_args_map st0) s) as [cs|] eqn:Ecs.
      * rewrite (@postProcessStmt_lift p s fs body cs st0 Ecs) in H.
        cbv zeta in H. inversion H; subst. simpl.
        assert (L : forall x, forallb is_def_stmt
                      (_fn_stmts_completed_so_far st0 ++ [ExprStmt (DefExpr x)])
                    = is_fn_def (DefExpr x)).
        { intros x. rewrite forallb_app, Hi. simpl. apply andb_true_r. }
        destruct (Vec_in Symbol_eq_dec (_fn_call_worklist st0) s).
        -- rewrite forallb_forall. intros x Hx.
           apply in_map_iff in Hx. destruct Hx as [y [<- Hy]].
           rewrite is_def_stmt_UpdateSymbols.
           revert y Hy. apply forallb_forall. rewrite L. reflexivity.
        -- rewrite L. reflexivity.
      * unfold postProcessStmt, hasEnclosingFunction in H.
        rewrite Ecs in H. discriminate.
    + rewrite (postProcessStmt_other p s st0 Ed) in H.
      inversion H; subst. exact Hi.
Qed.

(* ================================================================= *)
(** ** The whole pass *)

Lemma RemoveNestedFunctions_new_spec (module_stmts : list Stmt) :
  exists args_map,
    enclVarUsesHelper module_stmts = Some args_map /\
    RemoveNestedFunctions_new module_stmts
    = Some (mkPass args_map [] [] [] (S (max_sym_id module_stmts))) /\
    forall s, In s (nested_defs_of module_stmts) -> Map_get args_map s <> None.
Proof.
  destruct (enclVarUsesHelper_entries module_stmts) as [A [E K]].
  exists A. split; [exact E|]. split; [|exact K].
  unfold RemoveNestedFunctions_new. rewrite E. reflexivity.
Qed.

Lemma run_traversal_total (module_stmts : list Stmt) :
  exists stmts st, run_traversal module_stmts = Some (stmts, st).
Proof.
  destruct (RemoveNestedFunctions_new_spec module_stmts) as [A [_ [E K]]].
  unfold run_traversal. rewrite E.
  destruct (@traverse_AList_total A ModuleSymbol module_stmts) with
    (st := mkPass A [] [] [] (S (max_sym_id module_stmts)))
    as [out [st' [E' _]]].
  - apply Forall_forall. intros s _. apply traverse_total.
  - reflexivity.
  - exact K.
  - eauto.
Qed.

(** What the pass makes of a well-formed module. *)
Lemma run_traversal_wf (module_stmts : list Stmt) :
  wf_module module_stmts = true ->
  exists stmts st,
    run_traversal module_stmts = Some (stmts, st) /\
    nested_defs_of (stmts ++ _fn_stmts_completed_so_far st) = [] /\
    List.length (_fn_stmts_completed_so_far st)
    = List.length (nested_defs_of module_stmts) /\
    forallb is_def_stmt (_fn_stmts_completed_so_far st) = true.
Proof.
  intros Hwf.
  destruct (run_traversal_total module_stmts) as [stmts [st E]].
  exists stmts, st. split; [exact E|].
  unfold run_traversal in E.
  destruct (RemoveNestedFunctions_new_spec module_stmts) as [A [_ [EN _]]].
  rewrite EN in E.
  assert (HF : Forall flat_stmt_spec module_stmts)
    by (apply Forall_forall; intros s _; apply traverse_flat).
  assert (HC : Forall count_stmt_spec module_stmts)
    by (apply Forall_forall; intros s _; apply traverse_count).
  destruct (@traverse_AList_flat ModuleSymbol module_stmts HF _ _ _ Hwf E)
    as [C N]; [reflexivity|].
  split; [|split].
  - unfold nested_defs_of. rewrite flat_map_app.
    simpl in N. rewrite N. exact C.
  - rewrite (@traverse_AList_count ModuleSymbol module_stmts HC _ _ _ Hwf E).
    reflexivity.
  - eapply completed_are_definitions; [|exact E]. reflexivity.
Qed.

Lemma run_no_nested (module_stmts : list Stmt) :
  nested_defs_of module_stmts = [] ->
  run_traversal module_stmts
  = Some (module_stmts, mkPass [] [] [] [] (S (max_sym_id module_stmts))).
Proof.
  intros H. unfold run_traversal, RemoveNestedFunctions_new.
  rewrite (enclVarUsesHelper_no_nested _ H).
  apply traverse_AList_same; [|reflexivity|exact H].
  apply Forall_forall. intros s _. apply traverse_same.
Qed.

(** C9: the analysis gives an (initially empty) capture set to every
    function definition whose parent symbol is a function, the predicate
    by which the walk classifies a definition as nested; the map still has
    these entries when the analysis ends, so that lifting such a definition
    never reads a missing capture set, and the walk of any module runs to
    its end. *)
Theorem C9_capture_set_present_at_lift (module_stmts : list Stmt) :
  exists args_map,
    enclVarUsesHelper module_stmts = Some args_map /\
    (forall s, In s (nested_defs_of module_stmts) ->
       Map_get (initial_args_map (all_nested_functions_of module_stmts)) s
       = Some [] /\
       Map_get args_map s <> None /\
       forall parent formals body st,
         _nested_func_args_map st = args_map ->
         postProcessStmt (ParentFn parent)
           (ExprStmt (DefExpr (FnSymbol s formals body))) st <> None) /\
    exists stmts st, run_traversal module_stmts = Some (stmts, st).
Proof.
  destruct (enclVarUsesHelper_entries module_stmts) as [A [E K]].
  exists A. split; [exact E|]. split; [|apply run_traversal_total].
  intros s Hs. split; [|split].
  - pose proof (all_nested_functions_keys _ _ Hs) as Hk.
    apply in_map_iff in Hk. destruct Hk as [fn [<- Hfn]].
    apply initial_args_map_spec, Hfn.
  - apply K, Hs.
  - intros parent formals body st HA.
    destruct (Map_get A s) as [cs|] eqn:Ecs; [|exfalso; apply (K s Hs Ecs)].
    subst A.
    rewrite (@postProcessStmt_lift parent s formals body cs st Ecs).
    discriminate.
Qed.

(* ================================================================= *)
(** ** The lifted copies are copies of the definitions they replace *)

Lemma stands_for_refl (next0 : nat) (v : Symbol) : stands_for next0 v v.
Proof. left. reflexivity. Qed.

Lemma stands_for_trans (next0 : nat) (u v w : Symbol) :
  stands_for next0 u v -> stands_for next0 v w -> stands_for next0 u w.
Proof.
  intros [->|[I1 [N1 T1]]] [->|[I2 [N2 T2]]].
  - left. reflexivity.
  - right. auto.
  - right. auto.
  - right. split; [exact I2|]. split; congruence.
Qed.

Lemma renaming_nil (next0 : nat) : renaming next0 [].
Proof. intros k v H. discriminate H. Qed.

Lemma renaming_put (next0 : nat) (m : Map Symbol) (k v : Symbol) :
  renaming next0 m ->
  next0 <= sym_id v -> sym_name v = sym_name k -> sym_type v = sym_type k ->
  renaming next0 (Map_put m k v).
Proof.
  intros Hm Hi Hn Ht k' v' H. rewrite Map_get_put in H.
  destruct (Symbol_eq_dec k k') as [<-|_].
  - inversion H; subst. auto.
  - apply (Hm k' v' H).
Qed.

Lemma renaming_new_update_map (next0 : nat) (captures : SymVec) :
  forall next m,
    next0 <= next -> renaming next0 m ->
    renaming next0 (new_update_map captures next m).
Proof.
  induction captures as [|[s|] cs IH]; intros next m Hn Hm; simpl.
  - exact Hm.
  - apply IH; [lia|]. apply renaming_put; simpl; auto.
  - apply IH; assumption.
Qed.

Lemma walked_args_app (R : Expr -> Expr -> Prop) (l : list Expr) :
  forall l' extra,
    walked_args R l l' -> Forall is_SymExpr extra ->
    walked_args R l (l' ++ extra).
Proof.
  induction l as [|a l IH]; intros l' extra H He; simpl in *.
  - apply Forall_app. split; assumption.
  - destruct l' as [|a' l']; [destruct H|]. simpl.
    destruct H as [Ha Hl]. split; [exact Ha|]. apply IH; assumption.
Qed.

Lemma walked_args_map (R : Expr -> Expr -> Prop) (f : Expr -> Expr)
    (l : list Expr) :
  (forall e, is_SymExpr e -> is_SymExpr (f e)) ->
  Forall (fun a => forall a', R a a' -> R a (f a')) l ->
  forall l', walked_args R l l' -> walked_args R l (map f l').
Proof.
  intros Hf. induction 1 as [|a l Ha _ IH]; intros l' H; simpl in *.
  - induction H; simpl; constructor; auto.
  - destruct l' as [|a' l']; [destruct H|]. simpl.
    destruct H as [H1 H2]. split; [apply Ha, H1 | apply IH, H2].
Qed.

Lemma walked_AList_map (in_fn : bool) (R : Stmt -> Stmt -> Prop)
    (f : Stmt -> Stmt) (l : list Stmt) :
  Forall (fun a => forall a', R a a' -> R a (f a')) l ->
  forall l', walked_AList in_fn R l l' -> walked_AList in_fn R l (map f l').
Proof.
  induction 1 as [|a l Ha _ IH]; intros l' H; simpl in *.
  - subst. reflexivity.
  - destruct (in_fn && is_def_stmt a).
    + apply IH, H.
    + destruct l' as [|a' l']; [destruct H|]. simpl.
      destruct H as [H1 H2]. split; [apply Ha, H1 | apply IH, H2].
Qed.

Lemma walked_AList_app (in_fn : bool) (R : Stmt -> Stmt -> Prop)
    (l1 : list Stmt) :
  forall l2 o1 o2,
    walked_AList in_fn R l1 o1 -> walked_AList in_fn R l2 o2 ->
    walked_AList in_fn R (l1 ++ l2) (o1 ++ o2).
Proof.
  induction l1 as [|a l1 IH]; intros l2 o1 o2 H1 H2; simpl in *.
  - subst. exact H2.
  - destruct (in_fn && is_def_stmt a).
    + apply IH; assumption.
    + destruct o1 as [|a' o1]; [destruct H1|]. simpl.
      destruct H1 as [Ha Hl]. split; [exact Ha|]. apply IH; assumption.
Qed.

(** A substitution by a renaming keeps a subtree what the pass may make of
    the subtree it comes from. *)
Lemma walked_UpdateSymbols (next0 : nat) (m : Map Symbol) :
  renaming next0 m ->
  (forall e e', walked_expr next0 e e' ->
                walked_expr next0 e (UpdateSymbols_expr m e')) /\
  (forall d d', walked_def next0 d d' ->
                walked_def next0 d (UpdateSymbols_def m d')) /\
  (forall s in_fn s', walked_stmt next0 in_fn s s' ->
                      walked_stmt next0 in_fn s (UpdateSymbols m s')).
Proof.
  intros Hm. apply ast_ind.
  - (* SymExpr *)
    intros v [v'|b' args'|d'] H; simpl in *; try contradiction.
    destruct (Map_get m v') as [w|] eqn:E; simpl; [|exact H].
    eapply stands_for_trans; [exact H|]. right. apply (Hm _ _ E).
  - (* CallExpr *)
    intros b args Hb Hargs [v'|b' args'|d'] H; simpl in *; try contradiction.
    destruct H as [H1 H2]. split; [apply Hb, H1|].
    apply walked_args_map; [|exact Hargs|exact H2].
    intros [v|b0 a0|d0] He; simpl in *; try contradiction.
    destruct (Map_get m v); exact I.
  - (* DefExpr *)
    intros d Hd [v'|b' args'|d'] H; simpl in *; try contradiction.
    apply Hd, H.
  - (* VarSymbol *)
    intros s d' H. simpl in *. subst. reflexivity.
  - (* FnSymbol *)
    intros s fs b Hb [s'|s' fs' b'] H; simpl in *; try contradiction.
    destruct H as [H1 [H2 H3]]. split; [exact H1|]. split; [exact H2|].
    apply walked_AList_map; [|exact H3].
    eapply Forall_impl; [|exact Hb]. intros a Ha a'. apply Ha.
  - (* ExprStmt *)
    intros e He in_fn [e'|l'|c' t' e0'] H; simpl in *; try contradiction.
    apply He, H.
  - (* BlockStmt *)
    intros l Hl in_fn [e'|l'|c' t' e0'] H; simpl in *; try contradiction.
    apply walked_AList_map; [|exact H].
    eapply Forall_impl; [|exact Hl]. intros a Ha a'. apply Ha.
  - (* CondStmt *)
    intros c t e Hc Ht He in_fn [e'|l'|c' t' e0'] H; simpl in *;
      try contradiction.
    destruct H as [H1 [H2 H3]]. split; [apply Hc, H1|].
    split; (apply walked_AList_map; [|assumption]).
    + eapply Forall_impl; [|exact Ht]. intros a Ha a'. apply Ha.
    + eapply Forall_impl; [|exact He]. intros a Ha a'. apply Ha.
Qed.

Lemma walked_UpdateSymbols_list (next0 : nat) (m : Map Symbol) (in_fn : bool)
    (l l' : list Stmt) :
  renaming next0 m ->
  walked_AList in_fn (walked_stmt next0 in_fn) l l' ->
  walked_AList in_fn (walked_stmt next0 in_fn) l (map (UpdateSymbols m) l').
Proof.
  intros Hm H. apply walked_AList_map; [|exact H].
  apply Forall_forall. intros a _ a'.
  apply (proj2 (proj2 (walked_UpdateSymbols Hm))).
Qed.

Lemma lifted_copy_of_UpdateSymbols (A : Map SymVec) (next0 : nat)
    (m : Map Symbol) (d : FnDef) (c : Stmt) :
  renaming next0 m ->
  lifted_copy_of A next0 d c -> lifted_copy_of A next0 d (UpdateSymbols m c).
Proof.
  intros Hm. destruct d as [[s fs] b].
  intros [new_sym [cs [b' [-> [H1 [H2 [H3 [H4 [H5 H6]]]]]]]]].
  exists new_sym, cs, (map (UpdateSymbols m) b'). simpl.
  split; [reflexivity|]. repeat (split; [assumption|]).
  apply walked_UpdateSymbols_list; assumption.
Qed.

Lemma lifted_copies_UpdateSymbols (A : Map SymVec) (next0 : nat)
    (m : Map Symbol) (defs : list FnDef) (cs : list Stmt) :
  renaming next0 m ->
  Forall2 (lifted_copy_of A next0) defs cs ->
  Forall2 (lifted_copy_of A next0) defs (map (UpdateSymbols m) cs).
Proof.
  intros Hm. induction 1; simpl; constructor; auto.
  apply lifted_copy_of_UpdateSymbols; assumption.
Qed.

Lemma findFnSymbol_Some (b : Expr) (f : Symbol) :
  findFnSymbol b = Some f -> b = SymExpr f.
Proof.
  destruct b as [v|b0 args|d]; simpl; try discriminate.
  destruct (sym_class v); try discriminate. intros H. inversion H. reflexivity.
Qed.

Lemma new_actuals_SymExpr (captures : SymVec) :
  Forall is_SymExpr (new_actuals captures).
Proof.
  induction captures as [|[s|] cs IH]; simpl; auto. constructor; [exact I|exact IH].
Qed.

(** The base of a call after [postProcessExpr]: the base it had, or the
    symbol the association map holds for the function it referred to. *)
Lemma postProcessExpr_call_base (b : Expr) (args : list Expr)
    (st : RemoveNestedFunctions) :
  exists b' captures st',
    postProcessExpr (CallExpr b args) st
    = (CallExpr b' (args ++ new_actuals captures), st') /\
    (b' = b \/
     exists f new_sym,
       b = SymExpr f /\ b' = SymExpr new_sym /\
       Map_get (_nested_func_sym_map st) f = Some new_sym).
Proof.
  unfold postProcessExpr.
  destruct (findFnSymbol b) as [fn_sym|] eqn:Ef.
  - apply findFnSymbol_Some in Ef.
    destruct (Map_get (_nested_func_args_map st) fn_sym) as [captures|].
    + unfold addNestedFuncActuals. rewrite fold_add_actual.
      destruct (Map_get (_nested_func_sym_map st) fn_sym) as [s|] eqn:Es.
      * destruct (sym_class s).
        -- eexists b, captures, _. split; [reflexivity|]. left. reflexivity.
        -- eexists b, captures, _. split; [reflexivity|]. left. reflexivity.
        -- exists (SymExpr s), captures, st. split; [reflexivity|].
           right. exists fn_sym, s. auto.
      * eexists b, captures, _. split; [reflexivity|]. left. reflexivity.
    + exists b, [], st. simpl. rewrite app_nil_r. split; [reflexivity|].
      left. reflexivity.
  - exists b, [], st. simpl. rewrite app_nil_r. split; [reflexivity|].
    left. reflexivity.
Qed.

Lemma postProcessExpr_lifted_so_far (A : Map SymVec) (next0 : nat)
    (defs : list FnDef) (e e' : Expr) (st st' : RemoveNestedFunctions) :
  postProcessExpr e st = (e', st') ->
  lifted_so_far A next0 defs st -> lifted_so_far A next0 defs st'.
Proof.
  intros H [H1 [H2 [H3 H4]]].
  apply postProcessExpr_frame in H. destruct H as [F1 [F2 [F3 F4]]].
  unfold lifted_so_far. rewrite F1, F2, F3, F4. auto.
Qed.

Lemma wf_lift_order_nil :
  (forall e, wf_expr false e = true ->
             forall in_fn, lift_order_expr in_fn e = []) /\
  (forall d, wf_def false d = true ->
             forall in_fn, lift_order_def in_fn d = []) /\
  (forall s : Stmt, True).
Proof.
  apply ast_ind; simpl; intros; auto.
  - apply andb_prop in H1. destruct H1 as [Hb Ha].
    rewrite (H Hb). simpl.
    induction H0 as [|a l Ha0 _ IH]; simpl in *; auto.
    apply andb_prop in Ha. destruct Ha as [H1 H2].
    rewrite (Ha0 H1), (IH H2). reflexivity.
  - discriminate.
Qed.

(** The lift of a definition appends its copy to the lifted copies. *)
Lemma postProcessStmt_lifted_so_far (A : Map SymVec) (next0 : nat)
    (defs : list FnDef) (parent s : Symbol) (fs : list Symbol)
    (b b1 : list Stmt) (out : list Stmt) (st st' : RemoveNestedFunctions) :
  lifted_so_far A next0 defs st ->
  walked_AList true (walked_stmt next0 true) b b1 ->
  postProcessStmt (ParentFn parent) (ExprStmt (DefExpr (FnSymbol s fs b1))) st
  = Some (out, st') ->
  out = [] /\ lifted_so_far A next0 (defs ++ [(s, fs, b)]) st'.
Proof.
  intros [H1 [H2 [H3 H4]]] Hb H.
  destruct (Map_get (_nested_func_args_map st) s) as [cs|] eqn:Ecs.
  - rewrite (@postProcessStmt_lift parent s fs b1 cs st Ecs) in H.
    cbv zeta in H. inversion H; subst out st'; clear H.
    split; [reflexivity|].
    set (new_sym := mkSymbol (next_sym_id st) (sym_name s) (sym_type s)
                             (sym_class s)).
    assert (Hsm : renaming next0
                    (Map_put (_nested_func_sym_map st) s new_sym)).
    { apply renaming_put; simpl; auto. }
    assert (Hc : Forall2 (lifted_copy_of A next0) (defs ++ [(s, fs, b)])
              (_fn_stmts_completed_so_far st ++
               [ExprStmt (DefExpr (FnSymbol new_sym
                  (fs ++ new_formals cs (S (next_sym_id st)))
                  (if Nat.eqb (List.length cs) 0 then b1
                   else map (UpdateSymbols
                               (new_update_map cs (S (next_sym_id st)) []))
                            b1)))])).
    { apply Forall2_app; [exact H4|]. constructor; [|constructor].
      eexists new_sym, cs, _. split; [reflexivity|].
      split; [rewrite <- H1; exact Ecs|].
      split; [exact H3|]. split; [reflexivity|]. split; [reflexivity|].
      split; [reflexivity|].
      destruct (Nat.eqb (List.length cs) 0); [exact Hb|].
      apply walked_UpdateSymbols_list; [|exact Hb].
      apply renaming_new_update_map; [lia | apply renaming_nil]. }
    unfold lifted_so_far. simpl.
    split; [exact H1|]. split; [exact Hsm|]. split; [lia|].
    destruct (Vec_in Symbol_eq_dec (_fn_call_worklist st) s); [|exact Hc].
    apply lifted_copies_UpdateSymbols; [exact Hsm | exact Hc].
  - unfold postProcessStmt, hasEnclosingFunction in H.
    rewrite Ecs in H. discriminate.
Qed.

Lemma traverse_exprs_copies (A : Map SymVec) (next0 : nat)
    (parent : ParentSymbol) (args : list Expr) :
  Forall (copies_expr_spec A next0) args ->
  forall st args' st' defs,
    forallb (wf_expr false) args = true ->
    traverse_exprs (traverse_expr parent) args st = Some (args', st') ->
    lifted_so_far A next0 defs st ->
    lifted_so_far A next0 defs st' /\
    walked_args (walked_expr next0) args args'.
Proof.
  induction 1 as [|a l Ha _ IH]; intros st args' st' defs Hwf H J;
    simpl in *.
  - inversion H; subst. split; [exact J | constructor].
  - apply andb_prop in Hwf. destruct Hwf as [Hwa Hwl].
    walk_step H. walk_step H. inversion H; subst.
    destruct (Ha false parent st r st0 defs Hwa E J) as [J1 W1].
    rewrite (proj1 wf_lift_order_nil a Hwa), app_nil_r in J1.
    destruct (IH st0 r0 st' defs Hwl E0 J1) as [J2 W2].
    split; [exact J2|]. split; assumption.
Qed.

Lemma traverse_AList_copies (A : Map SymVec) (next0 : nat)
    (parent : ParentSymbol) (l : list Stmt) :
  Forall (copies_stmt_spec A next0) l ->
  forall st out st' defs,
    forallb wf_stmt l = true ->
    traverse_AList (traverse_stmt parent) l st = Some (out, st') ->
    lifted_so_far A next0 defs st ->
    lifted_so_far A next0 (defs ++ flat_map (lift_order (is_fn parent)) l) st' /\
    walked_AList (is_fn parent) (walked_stmt next0 (is_fn parent)) l out.
Proof.
  induction 1 as [|a l Ha _ IH]; intros st out st' defs Hwf H J;
    simpl in *.
  - inversion H; subst. rewrite app_nil_r. split; [exact J | reflexivity].
  - apply andb_prop in Hwf. destruct Hwf as [Hwa Hwl].
    walk_step H. walk_step H. inversion H; subst.
    destruct (Ha parent st r st0 defs Hwa E J) as [J1 W1].
    destruct (IH st0 r0 st' _ Hwl E0 J1) as [J2 W2].
    rewrite <- app_assoc in J2. split; [exact J2|].
    apply (@walked_AList_app (is_fn parent) _ [a] l r r0 W1 W2).
Qed.

(** The walk appends, definition after definition, the copy of each nested
    function definition it takes out. *)
Lemma traverse_copies (A : Map SymVec) (next0 : nat) :
  (forall e, copies_expr_spec A next0 e) /\
  (forall d, copies_def_spec A next0 d) /\
  (forall s, copies_stmt_spec A next0 s).
Proof.
  apply ast_ind.
  - (* SymExpr *)
    intros v top parent st e' st' defs _ H J. simpl in H.
    rewrite postProcessExpr_not_call in H by discriminate.
    inversion H; subst. simpl. rewrite app_nil_r.
    split; [exact J | apply stands_for_refl].
  - (* CallExpr *)
    intros b args Hb Hargs top parent st e' st' defs Hwf H J. simpl in Hwf, H.
    apply andb_prop in Hwf. destruct Hwf as [Hwb Hwa].
    walk_step H. walk_step H.
    destruct (Hb false parent st r st0 defs Hwb E J) as [J1 W1].
    rewrite (proj1 wf_lift_order_nil b Hwb), app_nil_r in J1.
    destruct (@traverse_exprs_copies A next0 parent args Hargs
                st0 r0 st1 defs Hwa E0 J1) as [J2 W2].
    destruct (postProcessExpr_call_base r r0 st1) as [b' [cs [st2 [E2 Hb']]]].
    rewrite E2 in H. inversion H; subst e' st'; clear H.
    pose proof (@postProcessExpr_lifted_so_far A next0 defs _ _ _ _ E2 J2) as J3.
    split.
    + rewrite (proj1 wf_lift_order_nil (CallExpr b args)), app_nil_r;
        [exact J3|]. simpl. rewrite Hwb, Hwa. reflexivity.
    + simpl. split.
      * destruct Hb' as [->|[f [new_sym [-> [-> Hm]]]]]; [exact W1|].
        destruct b as [v|b0 a0|d0]; simpl in W1; try contradiction.
        simpl. eapply stands_for_trans; [exact W1|].
        right. apply (proj1 (proj2 J2) _ _ Hm).
      * apply walked_args_app; [exact W2 | apply new_actuals_SymExpr].
  - (* DefExpr *)
    intros d Hd top parent st e' st' defs Hwf H J. simpl in Hwf, H.
    walk_step H. rewrite postProcessExpr_not_call in H by discriminate.
    inversion H; subst. simpl. apply (Hd top parent st r st' defs Hwf E J).
  - (* VarSymbol *)
    intros s top parent st d' st' defs _ H J. simpl in H.
    inversion H; subst. simpl. rewrite app_nil_r. split; [exact J | reflexivity].
  - (* FnSymbol *)
    intros s fs b Hb top parent st d' st' defs Hwf H J. simpl in Hwf, H.
    apply andb_prop in Hwf. destruct Hwf as [_ Hwb].
    walk_step H. inversion H; subst.
    destruct (@traverse_AList_copies A next0 (ParentFn s) b Hb
                st r st' defs Hwb E J) as [J1 W1].
    simpl. rewrite app_nil_r. split; [exact J1|].
    split; [reflexivity|]. split; [reflexivity | exact W1].
  - (* ExprStmt *)
    intros e He parent st out st' defs Hwf H J. simpl in Hwf, H.
    walk_step H.
    destruct (He true parent st r st0 defs Hwf E J) as [J1 W1].
    destruct (is_fn_def e && is_fn parent) eqn:Ed.
    + apply andb_prop in Ed. destruct Ed as [Ed Ep].
      pose proof (traverse_expr_shape _ _ _ E) as Hs.
      destruct e as [v|b args|[s|s fs body]]; try discriminate.
      destruct Hs as [b' ->].
      destruct parent as [|p]; [discriminate|].
      simpl in W1. destruct W1 as [_ [_ W1]].
      simpl in J1. rewrite app_nil_r in J1.
      destruct (@postProcessStmt_lifted_so_far A next0 _ p s fs body b'
                  out st0 st' J1 W1 H) as [-> J2].
      simpl. rewrite <- app_assoc in J2.
      split; [exact J2 | reflexivity].
    + rewrite postProcessStmt_other in H
        by (rewrite (traverse_expr_is_fn_def _ _ _ E); exact Ed).
      inversion H; subst. split.
      * destruct (is_fn_def e) eqn:Ee.
        -- destruct parent; [exact J1 | discriminate].
        -- simpl.
           rewrite (proj1 wf_lift_order_nil e (wf_not_fn_def _ _ Hwf Ee)) in *.
           exact J1.
      * simpl. rewrite andb_comm in Ed. simpl in Ed. rewrite Ed.
        split; [exact W1 | reflexivity].
  - (* BlockStmt *)
    intros l Hl parent st out st' defs Hwf H J. simpl in Hwf, H.
    walk_step H. rewrite postProcessStmt_other in H by reflexivity.
    inversion H; subst.
    destruct (@traverse_AList_copies A next0 parent l Hl
                st r st' defs Hwf E J) as [J1 W1].
    split; [exact J1|]. simpl. rewrite andb_false_r.
    split; [exact W1 | reflexivity].
  - (* CondStmt *)
    intros c t e Hc Ht He parent st out st' defs Hwf H J. simpl in Hwf, H.
    apply andb_prop in Hwf. destruct Hwf as [Hwf Hwe].
    apply andb_prop in Hwf. destruct Hwf as [Hwc Hwt].
    walk_step H. walk_step H. walk_step H.
    rewrite postProcessStmt_other in H by reflexivity.
    inversion H; subst.
    destruct (Hc false parent st r st0 defs Hwc E J) as [J1 W1].
    rewrite (proj1 wf_lift_order_nil c Hwc), app_nil_r in J1.
    destruct (@traverse_AList_copies A next0 parent t Ht
                st0 r0 st1 defs Hwt E0 J1) as [J2 W2].
    destruct (@traverse_AList_copies A next0 parent e He
                st1 r1 st' _ Hwe E1 J2) as [J3 W3].
    split.
    + simpl. rewrite (proj1 wf_lift_order_nil c Hwc). simpl.
      rewrite app_assoc. exact J3.
    + simpl. rewrite andb_false_r. split; [|reflexivity].
      split; [exact W1|]. split; assumption.
Qed.

Lemma In_flat_map_Forall_iff (A B : Type) (f g : A -> list B) (l : list A) :
  Forall (fun a => forall x, In x (f a) <-> In x (g a)) l ->
  forall x, In x (flat_map f l) <-> In x (flat_map g l).
Proof.
  induction 1 as [|a l Ha _ IH]; intros x; simpl; [tauto|].
  rewrite !in_app_iff, Ha, IH. tauto.
Qed.

(** [lift_order] lists the nested function definitions of [nested_defs]. *)
Lemma lift_order_nested_defs :
  (forall e in_fn x, In x (nested_defs_expr in_fn e)
                     <-> In x (map def_symbol (lift_order_expr in_fn e))) /\
  (forall d in_fn x, In x (nested_defs_def in_fn d)
                     <-> In x (map def_symbol (lift_order_def in_fn d))) /\
  (forall s in_fn x, In x (nested_defs in_fn s)
                     <-> In x (map def_symbol (lift_order in_fn s))).
Proof.
  apply ast_ind; simpl; intros.
  - tauto.
  - rewrite map_app, !in_app_iff, H, map_flat_map.
    rewrite (@In_flat_map_Forall_iff _ _ (nested_defs_expr in_fn)
               (fun a => map def_symbol (lift_order_expr in_fn a)) args);
      [tauto|].
    eapply Forall_impl; [|exact H0]. intros a Ha. apply Ha.
  - apply H.
  - tauto.
  - rewrite map_app, !in_app_iff, map_flat_map.
    rewrite (@In_flat_map_Forall_iff _ _ (nested_defs true)
               (fun a => map def_symbol (lift_order true a)) b);
      [|eapply Forall_impl; [|exact H]; intros a Ha; apply Ha].
    destruct in_fn; simpl; tauto.
  - apply H.
  - rewrite map_flat_map. apply In_flat_map_Forall_iff.
    eapply Forall_impl; [|exact H]. intros a Ha. apply Ha.
  - rewrite !map_app, !in_app_iff, H, !map_flat_map.
    rewrite (@In_flat_map_Forall_iff _ _ (nested_defs in_fn)
               (fun a => map def_symbol (lift_order in_fn a)) t);
      [|eapply Forall_impl; [|exact H0]; intros a Ha; apply Ha].
    rewrite (@In_flat_map_Forall_iff _ _ (nested_defs in_fn)
               (fun a => map def_symbol (lift_order in_fn a)) e);
      [|eapply Forall_impl; [|exact H1]; intros a Ha; apply Ha].
    tauto.
Qed.

Lemma lift_order_of_nested_defs_of (module_stmts : list Stmt) (s : Symbol) :
  In s (nested_defs_of module_stmts)
  <-> In s (map def_symbol (lift_order_of module_stmts)).
Proof.
  unfold nested_defs_of, lift_order_of. rewrite map_flat_map.
  apply In_flat_map_Forall_iff, Forall_forall. intros a _.
  apply lift_order_nested_defs.
Qed.

(** The lifted copies a well-formed module ends with. *)
Lemma run_traversal_copies (module_stmts stmts : list Stmt)
    (st : RemoveNestedFunctions) :
  wf_module module_stmts = true ->
  run_traversal module_stmts = Some (stmts, st) ->
  enclVarUsesHelper module_stmts = Some (_nested_func_args_map st) /\
  Forall2 (lifted_copy_of (_nested_func_args_map st) (S (max_sym_id module_stmts)))
          (lift_order_of module_stmts) (_fn_stmts_completed_so_far st) /\
  walked_AList false (walked_stmt (S (max_sym_id module_stmts)) false)
               module_stmts stmts.
Proof.
  intros Hwf E. unfold run_traversal in E.
  destruct (RemoveNestedFunctions_new_spec module_stmts) as [A [EA [EN _]]].
  rewrite EN in E.
  assert (HC : Forall (copies_stmt_spec A (S (max_sym_id module_stmts)))
                      module_stmts)
    by (apply Forall_forall; intros s _; apply traverse_copies).
  destruct (@traverse_AList_copies A (S (max_sym_id module_stmts))
              ModuleSymbol module_stmts HC _ _ _ [] Hwf E) as [J W].
  - split; [reflexivity|]. split; [apply renaming_nil|].
    split; [simpl; lia | constructor].
  - destruct J as [J1 [_ [_ J4]]]. rewrite J1.
    split; [exact EA|]. split; [exact J4 | exact W].
Qed.

(** Example (scenario A): a definition statement with no formal and no
    body, under the symbol of [g] itself, is no lifted copy of the
    definition of [g]. *)
Example empty_definition_is_no_lifted_copy :
  ~ lifted_copy_of [(sym_g, [Some sym_x])] 4
      (sym_g, [], [ExprStmt (SymExpr sym_x)])
      (ExprStmt (DefExpr (FnSymbol sym_g [] []))).
Proof.
  intros [new_sym [cs [b' [E [Hc _]]]]].
  vm_compute in Hc. inversion Hc; subst cs. discriminate E.
Qed.

(** Example (scenario A): the statement the pass appends is the lifted copy
    of the definition of [g]. *)
Example lifted_copy_scenario_A :
  lifted_copy_of [(sym_g, [Some sym_x])] 4
    (sym_g, [], [ExprStmt (SymExpr sym_x)])
    (ExprStmt (DefExpr (FnSymbol (mkSymbol 4 "g" 0 FN_SYMBOL)
       [mkSymbol 5 "x" 7 (ARG_SYMBOL INTENT_INOUT)]
       [ExprStmt (SymExpr (mkSymbol 5 "x" 7 (ARG_SYMBOL INTENT_INOUT)))]))).
Proof.
  exists (mkSymbol 4 "g" 0 FN_SYMBOL), [Some sym_x],
    [ExprStmt (SymExpr (mkSymbol 5 "x" 7 (ARG_SYMBOL INTENT_INOUT)))].
  split; [reflexivity|].
  split; [reflexivity|]. simpl. split; [lia|].
  split; [reflexivity|]. split; [reflexivity|]. split; [reflexivity|].
  split; [|reflexivity]. right. simpl. split; [lia|]. split; reflexivity.
Qed.

(** C8: on a well-formed module the pass runs to its end and leaves no
    nested function definition.  The module ends with the lifted copies,
    one per nested function definition of the input, in the order the walk
    meets the ends of the definitions: each is a definition statement at
    top level whose function symbol is a new symbol (no symbol of the input
    has its identity) under the name, the type and the class of the symbol
    of the definition it replaces, whose formals are the formals of that
    definition followed by the formals of its capture set, and whose body
    is the body of that definition as the pass leaves it.  The statements
    walked are the statements of the input as the pass leaves them: they
    have lost the definition statements of the nested functions. *)
Theorem C8_no_nested_definition_remains (module_stmts : list Stmt) :
  wf_module module_stmts = true ->
  exists stmts st,
    run_traversal module_stmts = Some (stmts, st) /\
    run module_stmts = Some (stmts ++ _fn_stmts_completed_so_far st) /\
    nested_defs_of (stmts ++ _fn_stmts_completed_so_far st) = [] /\
    nested_defs_of stmts = [] /\
    List.length (_fn_stmts_completed_so_far st)
    = List.length (nested_defs_of module_stmts) /\
    forallb is_def_stmt (_fn_stmts_completed_so_far st) = true /\
    enclVarUsesHelper module_stmts = Some (_nested_func_args_map st) /\
    (forall s, In s (nested_defs_of module_stmts)
               <-> In s (map def_symbol (lift_order_of module_stmts))) /\
    Forall2 (lifted_copy_of (_nested_func_args_map st)
                            (S (max_sym_id module_stmts)))
            (lift_order_of module_stmts) (_fn_stmts_completed_so_far st) /\
    walked_AList false (walked_stmt (S (max_sym_id module_stmts)) false)
                 module_stmts stmts.
Proof.
  intros Hwf.
  destruct (run_traversal_wf _ Hwf) as [stmts [st [E [N [L D]]]]].
  destruct (run_traversal_copies _ Hwf E) as [EA [C W]].
  exists stmts, st. split; [exact E|].
  split; [unfold run; rewrite E; reflexivity|].
  split; [exact N|].
  split; [unfold nested_defs_of in *; rewrite flat_map_app in N;
          apply app_eq_nil in N; apply N|].
  split; [exact L|]. split; [exact D|]. split; [exact EA|].
  split; [apply lift_order_of_nested_defs_of|].
  split; [exact C | exact W].
Qed.

Lemma C8_witness :
  exists stmts st,
    run_traversal scenario_mutual = Some (stmts, st) /\
    run scenario_mutual = Some (stmts ++ _fn_stmts_completed_so_far st) /\
    nested_defs_of (stmts ++ _fn_stmts_completed_so_far st) = [] /\
    nested_defs_of stmts = [] /\
    List.length (_fn_stmts_completed_so_far st)
    = List.length (nested_defs_of scenario_mutual) /\
    forallb is_def_stmt (_fn_stmts_completed_so_far st) = true /\
    enclVarUsesHelper scenario_mutual = Some (_nested_func_args_map st) /\
    (forall s, In s (nested_defs_of scenario_mutual)
               <-> In s (map def_symbol (lift_order_of scenario_mutual))) /\
    Forall2 (lifted_copy_of (_nested_func_args_map st)
                            (S (max_sym_id scenario_mutual)))
            (lift_order_of scenario_mutual) (_fn_stmts_completed_so_far st) /\
    walked_AList false (walked_stmt (S (max_sym_id scenario_mutual)) false)
                 scenario_mutual stmts.
Proof.
  exact (C8_no_nested_definition_remains scenario_mutual eq_refl).
Defined.

(** C5: on a well-formed module the pass lifts each nested function
    definition exactly once, and the pass run again on its own output
    changes nothing: it lifts no function, records no association, and
    answers the module it was given, with no formal and no actual added. *)
Theorem C5_pass_is_idempotent (module_stmts : list Stmt) :
  wf_module module_stmts = true ->
  exists stmts st out,
    run_traversal module_stmts = Some (stmts, st) /\
    List.length (_fn_stmts_completed_so_far st)
    = List.length (nested_defs_of module_stmts) /\
    run module_stmts = Some out /\
    (exists st2,
       run_traversal out = Some (out, st2) /\
       _fn_stmts_completed_so_far st2 = [] /\
       _nested_func_sym_map st2 = [] /\
       _fn_call_worklist st2 = []) /\
    run out = Some out.
Proof.
  intros Hwf.
  destruct (run_traversal_wf _ Hwf) as [stmts [st [E [N [L _]]]]].
  exists stmts, st, (stmts ++ _fn_stmts_completed_so_far st).
  split; [exact E|]. split; [exact L|].
  split; [unfold run; rewrite E; reflexivity|].
  pose proof (run_no_nested _ N) as E2.
  split.
  - eexists. split; [exact E2|]. repeat split.
  - unfold run. rewrite E2. simpl. rewrite app_nil_r. reflexivity.
Qed.

Lemma C5_witness :
  exists stmts st out,
    run_traversal scenario_A = Some (stmts, st) /\
    List.length (_fn_stmts_completed_so_far st)
    = List.length (nested_defs_of scenario_A) /\
    run scenario_A = Some out /\
    (exists st2,
       run_traversal out = Some (out, st2) /\
       _fn_stmts_completed_so_far st2 = [] /\
       _nested_func_sym_map st2 = [] /\
       _fn_call_worklist st2 = []) /\
    run out = Some out.
Proof.
  exact (C5_pass_is_idempotent scenario_A eq_refl).
Defined.

(** Example (scenario C): [f] is lifted with a formal for [z], and the
    call to [f] in the lifted [g] passes [z]. *)
Example run_scenario_C :
  run scenario_C
  = Some
      [ExprStmt (DefExpr (FnSymbol sym_t []
         [ExprStmt (CallExpr (SymExpr (mkSymbol 14 "g" 0 FN_SYMBOL)) [])]));
       ExprStmt (DefExpr (FnSymbol (mkSymbol 12 "f" 0 FN_SYMBOL)
         [mkSymbol 13 "z" 9 (ARG_SYMBOL INTENT_INOUT)]
         [ExprStmt (SymExpr (mkSymbol 13 "z" 9 (ARG_SYMBOL INTENT_INOUT)))]));
       ExprStmt (DefExpr (FnSymbol (mkSymbol 14 "g" 0 FN_SYMBOL) []
         [ExprStmt (DefExpr (VarSymbol sym_z));
          ExprStmt (CallExpr (SymExpr (mkSymbol 12 "f" 0 FN_SYMBOL))
                             [SymExpr sym_z])]))].
Proof. reflexivity. Qed.

(** Example (two nested functions that call each other): the call to [g]
    in the lifted copy of [h], made before [g] was lifted, names the lifted
    [g] once [g] is lifted. *)
Example run_scenario_mutual :
  exists f' h' g',
    run scenario_mutual = Some [f'; h'; g'] /\
    is_def_stmt h' = true /\
    In (mkSymbol 9 "g" 0 FN_SYMBOL) (sym_uses h') /\
    ~ In sym_g (sym_uses h').
Proof.
  do 3 eexists. split; [vm_compute; reflexivity|]. split; [reflexivity|].
  split; [simpl; tauto|]. simpl. intros [H|[H|[H|[H|[]]]]]; discriminate.
Qed.

(* ================================================================= *)
(** ** Calls ahead of the definition *)

(** A nested function with an empty capture set is lifted with the formals
    and the body it had. *)
Lemma lift_empty_capture_set (parent fn_sym : Symbol) (formals : list Symbol)
    (body : list Stmt) (st : RemoveNestedFunctions) :
  Map_get (_nested_func_args_map st) fn_sym = Some [] ->
  ~ In fn_sym (_fn_call_worklist st) ->
  exists new_sym st',
    postProcessStmt (ParentFn parent)
      (ExprStmt (DefExpr (FnSymbol fn_sym formals body))) st = Some ([], st') /\
    _fn_stmts_completed_so_far st'
    = _fn_stmts_completed_so_far st
      ++ [ExprStmt (DefExpr (FnSymbol new_sym formals body))].
Proof.
  intros H Hw.
  rewrite (@postProcessStmt_lift parent fn_sym formals body [] st H).
  cbv zeta. apply Vec_in_false with (C_eq_dec := Symbol_eq_dec) in Hw.
  rewrite Hw. simpl. rewrite app_nil_r.
  eexists. eexists. split; reflexivity.
Qed.

(** C2 (the code at scenario A): both calls get the extra argument [x] and
    the call after the definition is redirected to the lifted symbol (4),
    but the call ahead of the definition keeps the old symbol [g] (3),
    whose definition the pass has removed: the substitution run when [g] is
    lifted covers the lifted copies only, and the call is in the body of
    [f]. *)
Theorem C2_scenario_A_early_call_not_redirected :
  run scenario_A
  = Some
      [ExprStmt (DefExpr (FnSymbol sym_f []
         [ExprStmt (DefExpr (VarSymbol sym_x));
          ExprStmt (CallExpr (SymExpr sym_g) [SymExpr sym_x]);
          ExprStmt (CallExpr (SymExpr (mkSymbol 4 "g" 0 FN_SYMBOL))
                             [SymExpr sym_x])]));
       ExprStmt (DefExpr (FnSymbol (mkSymbol 4 "g" 0 FN_SYMBOL)
         [mkSymbol 5 "x" 7 (ARG_SYMBOL INTENT_INOUT)]
         [ExprStmt (SymExpr (mkSymbol 5 "x" 7 (ARG_SYMBOL INTENT_INOUT)))]))].
Proof. reflexivity. Qed.

(** C7 (the code at scenario B): the nested function that captures
    nothing is lifted with its formals unchanged and no call gets an extra
    argument, but the call ahead of the definition still names the old
    symbol [g] (3) and not the lifted one (4). *)
Theorem C7_scenario_B_early_call_not_redirected :
  run scenario_B
  = Some
      [ExprStmt (DefExpr (FnSymbol sym_f []
         [ExprStmt (CallExpr (SymExpr sym_g) []);
          ExprStmt (CallExpr (SymExpr (mkSymbol 4 "g" 0 FN_SYMBOL)) [])]));
       ExprStmt (DefExpr (FnSymbol (mkSymbol 4 "g" 0 FN_SYMBOL) [] []))].
Proof. reflexivity. Qed.

(* ================================================================= *)
(** * Further properties of the pass *)

(** ** The two loops over a capture vector *)

Lemma new_formals_actuals_agree (captures : SymVec) (next : nat) :
  Forall2
    (fun formal actual =>
       exists x, In (Some x) captures /\ actual = SymExpr x /\
                 sym_name formal = sym_name x /\
                 sym_type formal = sym_type x /\
                 sym_class formal = ARG_SYMBOL INTENT_INOUT)
    (new_formals captures next) (new_actuals captures).
Proof.
  revert next. induction captures as [|[s|] cs IH]; intros next; simpl.
  - constructor.
  - constructor.
    + exists s. repeat split. left. reflexivity.
    + eapply Forall2_impl; [|apply IH].
      intros f a [x [Hx R]]. exists x. split; [right; exact Hx | exact R].
  - eapply Forall2_impl; [|apply IH].
    intros f a [x [Hx R]]. exists x. split; [right; exact Hx | exact R].
Qed.

Lemma count_symbols_le (captures : SymVec) :
  count_symbols captures <= List.length captures.
Proof.
  induction captures as [|[s|] cs IH]; simpl; lia.
Qed.

(** X1: whatever vector the two loops are given, NULL slots included, the
    formals [addNestedFuncFormals] appends and the actuals
    [addNestedFuncActuals] appends pair up one to one, in order: each
    formal is an INOUT argument with the name and the type of the variable
    the paired actual refers to, a variable of a non-NULL slot.  Their
    number is the number of non-NULL slots, and as many symbols are
    allocated. *)
Theorem formals_and_actuals_pair_up
    (new_sym : Symbol) (formals : list Symbol) (body : list Stmt)
    (baseExpr : Expr) (argList : list Expr) (encl_var_uses : SymVec)
    (old_func_sym : Symbol) (st_def st_call : RemoveNestedFunctions) :
  exists added extra body' baseExpr' st_def' st_call',
    addNestedFuncFormals (DefExpr (FnSymbol new_sym formals body))
                         encl_var_uses old_func_sym st_def
    = (DefExpr (FnSymbol new_sym (formals ++ added) body'), st_def') /\
    addNestedFuncActuals baseExpr argList encl_var_uses old_func_sym st_call
    = (CallExpr baseExpr' (argList ++ extra), st_call') /\
    Forall2
      (fun formal actual =>
         exists x, In (Some x) encl_var_uses /\ actual = SymExpr x /\
                   sym_name formal = sym_name x /\
                   sym_type formal = sym_type x /\
                   sym_class formal = ARG_SYMBOL INTENT_INOUT)
      added extra /\
    List.length added = count_symbols encl_var_uses /\
    count_symbols encl_var_uses <= List.length encl_var_uses /\
    next_sym_id st_def' = next_sym_id st_def + List.length added.
Proof.
  rewrite addNestedFuncFormals_spec.
  unfold addNestedFuncActuals. rewrite fold_add_actual.
  destruct (match Map_get (_nested_func_sym_map st_call) old_func_sym with
            | Some s => match sym_class s with
                        | FN_SYMBOL => Some s
                        | _ => None
                        end
            | None => None
            end);
    do 6 eexists;
    (split; [reflexivity|]; split; [reflexivity|];
     split; [apply new_formals_actuals_agree|];
     split; [apply new_formals_length|];
     split; [apply count_symbols_le|];
     simpl; rewrite new_formals_length; reflexivity).
Qed.

(** ** Where [postProcessStmt] fails *)

(** X2: [postProcessStmt] reads a missing capture set, and fails, exactly on
    the definition statement of a function whose parent symbol is a
    function and whose symbol has no entry in the capture-set map; on any
    other statement, and at module level, it answers. *)
Theorem postProcessStmt_fails_iff
    (parentSymbol : ParentSymbol) (stmt : Stmt) (st : RemoveNestedFunctions) :
  postProcessStmt parentSymbol stmt st = None <->
  exists parent fn_sym formals body,
    parentSymbol = ParentFn parent /\
    stmt = ExprStmt (DefExpr (FnSymbol fn_sym formals body)) /\
    Map_get (_nested_func_args_map st) fn_sym = None.
Proof.
  split.
  - intros H.
    destruct (match stmt with
              | ExprStmt e => is_fn_def e && is_fn parentSymbol
              | _ => false
              end) eqn:Ed.
    + destruct stmt as [[v|b args|[s|s fs body]]|l|c t e]; try discriminate.
      destruct parentSymbol as [|p]; [discriminate|].
      destruct (Map_get (_nested_func_args_map st) s) as [cs|] eqn:Ecs.
      * rewrite (@postProcessStmt_lift p s fs body cs st Ecs) in H.
        discriminate.
      * exists p, s, fs, body. repeat split. exact Ecs.
    + rewrite (postProcessStmt_other parentSymbol stmt st Ed) in H.
      discriminate.
  - intros [p [s [fs [body [-> [-> E]]]]]].
    unfold postProcessStmt, hasEnclosingFunction. rewrite E. reflexivity.
Qed.

(** ** Calls after and before the lift *)

(** X3: once [postProcessStmt] has lifted a function, [postProcessExpr] makes
    every call to the old symbol a call to the new symbol, with the
    actuals of the capture set appended, and leaves the state as it is:
    the worklist gets nothing. *)
Theorem call_after_lift_is_redirected
    (parent fn_sym : Symbol) (formals : list Symbol) (body : list Stmt)
    (captures : SymVec) (st st' : RemoveNestedFunctions) (out : list Stmt)
    (baseExpr : Expr) (argList : list Expr) :
  Map_get (_nested_func_args_map st) fn_sym = Some captures ->
  postProcessStmt (ParentFn parent)
    (ExprStmt (DefExpr (FnSymbol fn_sym formals body))) st = Some (out, st') ->
  findFnSymbol baseExpr = Some fn_sym ->
  exists new_sym,
    Map_get (_nested_func_sym_map st') fn_sym = Some new_sym /\
    postProcessExpr (CallExpr baseExpr argList) st'
    = (CallExpr (SymExpr new_sym) (argList ++ new_actuals captures), st').
Proof.
  intros HA H Hf.
  rewrite (@postProcessStmt_lift parent fn_sym formals body captures st HA) in H.
  cbv zeta in H. inversion H; subst. clear H.
  assert (Hc : sym_class fn_sym = FN_SYMBOL).
  { destruct baseExpr as [v|b args|d]; try discriminate. simpl in Hf.
    destruct (sym_class v) eqn:Ev; try discriminate.
    inversion Hf; subst. exact Ev. }
  eexists. split; [apply Map_get_put_eq|].
  unfold postProcessExpr. rewrite Hf. simpl. rewrite HA.
  unfold addNestedFuncActuals. simpl. rewrite Map_get_put_eq. simpl.
  rewrite Hc, fold_add_actual. reflexivity.
Qed.

Lemma call_after_lift_witness :
  exists new_sym,
    Map_get (_nested_func_sym_map state_A_lifted) sym_g = Some new_sym /\
    postProcessExpr (CallExpr (SymExpr sym_g) []) state_A_lifted
    = (CallExpr (SymExpr new_sym) ([] ++ new_actuals [Some sym_x]),
       state_A_lifted).
Proof.
  exact (@call_after_lift_is_redirected sym_f sym_g []
           [ExprStmt (SymExpr sym_x)] [Some sym_x] state_A state_A_lifted []
           (SymExpr sym_g) [] eq_refl eq_refl eq_refl).
Defined.

Lemma set_worklist_same (st : RemoveNestedFunctions) :
  set_worklist st (_fn_call_worklist st) = st.
Proof. destruct st. reflexivity. Qed.

(** X4: a call to a nested function that is not lifted yet keeps its target
    and gets the actuals of the capture set; the function is put in the
    worklist, once: if it was there already the state is as it was, the
    worklist stays free of duplicates, and a further call to the function
    changes the state no more. *)
Theorem call_before_lift_is_queued
    (fn_sym : Symbol) (captures : SymVec) (st : RemoveNestedFunctions)
    (baseExpr : Expr) (argList argList2 : list Expr) :
  Map_get (_nested_func_args_map st) fn_sym = Some captures ->
  Map_get (_nested_func_sym_map st) fn_sym = None ->
  findFnSymbol baseExpr = Some fn_sym ->
  exists st',
    postProcessExpr (CallExpr baseExpr argList) st
    = (CallExpr baseExpr (argList ++ new_actuals captures), st') /\
    In fn_sym (_fn_call_worklist st') /\
    (NoDup (_fn_call_worklist st) -> NoDup (_fn_call_worklist st')) /\
    (In fn_sym (_fn_call_worklist st) -> st' = st) /\
    postProcessExpr (CallExpr baseExpr argList2) st'
    = (CallExpr baseExpr (argList2 ++ new_actuals captures), st').
Proof.
  intros HA HS Hf.
  unfold postProcessExpr. rewrite Hf, HA.
  unfold addNestedFuncActuals. rewrite HS, fold_add_actual.
  eexists. split; [reflexivity|]. simpl.
  split; [apply In_Vec_add_exclusive; right; reflexivity|].
  split; [apply NoDup_Vec_add_exclusive|].
  split.
  - intros Hin. unfold Vec_add_exclusive.
    apply Vec_in_true with (C_eq_dec := Symbol_eq_dec) in Hin.
    rewrite Hin. apply set_worklist_same.
  - rewrite HA. unfold addNestedFuncActuals. simpl.
    rewrite HS, fold_add_actual. f_equal.
    unfold set_worklist. simpl. f_equal.
    unfold Vec_add_exclusive at 1.
    assert (Hin : In fn_sym (Vec_add_exclusive Symbol_eq_dec
                               (_fn_call_worklist st) fn_sym))
      by (apply In_Vec_add_exclusive; right; reflexivity).
    apply Vec_in_true with (C_eq_dec := Symbol_eq_dec) in Hin.
    rewrite Hin. reflexivity.
Qed.

Lemma call_before_lift_witness :
  exists st',
    postProcessExpr (CallExpr (SymExpr sym_g) []) state_A
    = (CallExpr (SymExpr sym_g) ([] ++ new_actuals [Some sym_x]), st') /\
    In sym_g (_fn_call_worklist st').
Proof.
  destruct (@call_before_lift_is_queued sym_g [Some sym_x] state_A
              (SymExpr sym_g) [] [] eq_refl eq_refl eq_refl)
    as [st' [E [I _]]].
  exists st'. split; [exact E | exact I].
Defined.

(* ================================================================= *)
(** ** What the walk keeps *)

(** X6: the walk never writes the capture-set map: from any state, the walk of
    any statement list ends with the map it started with. *)
Theorem walk_keeps_args_map
    (parentSymbol : ParentSymbol) (l : list Stmt)
    (st : RemoveNestedFunctions) (out : list Stmt) (st' : RemoveNestedFunctions) :
  traverse_AList (traverse_stmt parentSymbol) l st = Some (out, st') ->
  _nested_func_args_map st' = _nested_func_args_map st.
Proof.
  apply (traverse_AList_preserves
           (fun s => _nested_func_args_map s = _nested_func_args_map st)).
  - intros e s e' s' Hi H. apply postProcessExpr_frame in H.
    destruct H as [F _]. congruence.
  - intros p stmt s o s' Hi H.
    destruct (match stmt with
              | ExprStmt e => is_fn_def e && is_fn p
              | _ => false
              end) eqn:Ed.
    + destruct stmt as [[v|b args|[f|f fs body]]|l0|c t e]; try discriminate.
      destruct p as [|p]; [discriminate|].
      destruct (Map_get (_nested_func_args_map s) f) as [cs|] eqn:Ecs.
      * rewrite (@postProcessStmt_lift p f fs body cs s Ecs) in H.
        cbv zeta in H. inversion H; subst. simpl. exact Hi.
      * unfold postProcessStmt, hasEnclosingFunction in H.
        rewrite Ecs in H. discriminate.
    + rewrite (postProcessStmt_other p stmt s Ed) in H.
      inversion H; subst. exact Hi.
  - reflexivity.
Qed.

Lemma walk_keeps_args_map_witness :
  exists stmts st,
    run_traversal scenario_A = Some (stmts, st) /\
    _nested_func_args_map st = _nested_func_args_map state_A.
Proof.
  eexists. eexists. split; [vm_compute; reflexivity|].
  eapply (@walk_keeps_args_map ModuleSymbol scenario_A state_A).
  vm_compute. reflexivity.
Defined.

(** The nested functions the analysis lists are nested function
    definitions of the module. *)
Lemma find_nested_functions_sound (l acc : list FnInfo) :
  incl (map fn_symbol (fold_left add_if_nested l acc))
       (map fn_symbol acc ++ map fn_symbol (filter has_enclosing l)).
Proof.
  revert acc. induction l as [|fn l IH]; intros acc; cbn [fold_left filter].
  - simpl. rewrite app_nil_r. apply incl_refl.
  - assert (Hh : has_enclosing fn = is_fn (fn_parentSymbol fn)) by reflexivity.
    assert (Ha : add_if_nested acc fn
                 = match hasEnclosingFunction (fn_parentSymbol fn) with
                   | Some _ => fn_add_exclusive acc fn
                   | None => acc
                   end) by reflexivity.
    rewrite Ha, Hh. clear Ha Hh.
    destruct (fn_parentSymbol fn) as [|p]; cbn [hasEnclosingFunction is_fn].
    + apply IH.
    + intros x Hx. apply IH in Hx. apply in_app_or in Hx.
      apply in_or_app. simpl. destruct Hx as [Hx|Hx]; [|auto].
      unfold fn_add_exclusive in Hx.
      destruct (fn_in acc fn); [auto|].
      unfold Vec_add in Hx. rewrite map_app in Hx. apply in_app_or in Hx.
      destruct Hx as [Hx|[Hx|[]]]; auto.
Qed.

Lemma all_nested_functions_sound (module_stmts : list Stmt) (s : Symbol) :
  In s (map fn_symbol (all_nested_functions_of module_stmts)) ->
  In s (nested_defs_of module_stmts).
Proof.
  intros H. rewrite <- collect_functions_nested_defs.
  unfold all_nested_functions_of in H.
  apply (find_nested_functions_sound (collect_functions module_stmts) []) in H.
  exact H.
Qed.

(** X7: the capture-set map that [enclVarUsesHelper] builds has an entry for a
    symbol exactly when the module holds a definition of that function
    whose parent symbol is a function: a function defined at module level
    only has none, so that no call to it is ever given an extra actual. *)
Theorem args_map_entries_are_the_nested_functions (module_stmts : list Stmt) :
  exists args_map,
    enclVarUsesHelper module_stmts = Some args_map /\
    forall s, Map_get args_map s <> None <-> In s (nested_defs_of module_stmts).
Proof.
  destruct (enclVarUsesHelper_total module_stmts) as [A [E [_ [N K]]]].
  exists A. split; [exact E|]. intros s. split.
  - intros H.
    destruct (in_dec Symbol_eq_dec s
                (map fn_symbol (all_nested_functions_of module_stmts)))
      as [Hin|Hout].
    + apply all_nested_functions_sound, Hin.
    + exfalso. apply H, K, Hout.
  - intros H. apply all_nested_functions_keys, in_map_iff in H.
    destruct H as [fn [<- Hfn]]. apply N, Hfn.
Qed.

(** X8: the books of the pass after the walk of any module: the capture-set
    map is the one the analysis built; the worklist has no duplicate; only
    nested functions of the module are in the worklist, and only they are
    keys of the map from old to new symbols. *)
Theorem walk_books_hold_nested_functions_only (module_stmts : list Stmt) :
  exists args_map stmts st,
    enclVarUsesHelper module_stmts = Some args_map /\
    run_traversal module_stmts = Some (stmts, st) /\
    _nested_func_args_map st = args_map /\
    NoDup (_fn_call_worklist st) /\
    (forall s, In s (_fn_call_worklist st) ->
               In s (nested_defs_of module_stmts)) /\
    (forall k, Map_get (_nested_func_sym_map st) k <> None ->
               In k (nested_defs_of module_stmts)).
Proof.
  destruct (enclVarUsesHelper_total module_stmts) as [A [EA [_ [_ K]]]].
  assert (X : forall s, Map_get A s <> None ->
                        In s (nested_defs_of module_stmts)).
  { intros s H.
    destruct (in_dec Symbol_eq_dec s
                (map fn_symbol (all_nested_functions_of module_stmts)))
      as [Hin|Hout].
    - apply all_nested_functions_sound, Hin.
    - exfalso. apply H, K, Hout. }
  destruct (run_traversal_total module_stmts) as [stmts [st E]].
  exists A, stmts, st. split; [exact EA|]. split; [exact E|].
  unfold run_traversal, RemoveNestedFunctions_new in E. rewrite EA in E.
  assert (Inv : _nested_func_args_map st = A /\
                NoDup (_fn_call_worklist st) /\
                (forall s, In s (_fn_call_worklist st) -> Map_get A s <> None) /\
                (forall k, Map_get (_nested_func_sym_map st) k <> None ->
                           Map_get A k <> None)).
  { revert E.
    apply (traverse_AList_preserves
             (fun st =>
                _nested_func_args_map st = A /\
                NoDup (_fn_call_worklist st) /\
                (forall s, In s (_fn_call_worklist st) -> Map_get A s <> None) /\
                (forall k, Map_get (_nested_func_sym_map st) k <> None ->
                           Map_get A k <> None))).
    - intros e s e' s' [I1 [I2 [I3 I4]]] H.
      destruct e as [v|b args|d];
        try (rewrite postProcessExpr_not_call in H by discriminate;
             inversion H; subst; auto).
      unfold postProcessExpr in H.
      destruct (findFnSymbol b) as [f|]; [|inversion H; subst; auto].
      destruct (Map_get (_nested_func_args_map s) f) as [cs|] eqn:Ecs;
        [|inversion H; subst; auto].
      unfold addNestedFuncActuals in H.
      destruct (match Map_get (_nested_func_sym_map s) f with
                | Some s0 => match sym_class s0 with
                             | FN_SYMBOL => Some s0
                             | _ => None
                             end
                | None => None
                end); inversion H; subst; auto.
      simpl. split; [reflexivity|].
      split; [apply NoDup_Vec_add_exclusive, I2|]. split; [|exact I4].
      intros x Hx. apply In_Vec_add_exclusive in Hx.
      destruct Hx as [Hx| ->]; [apply I3, Hx | congruence].
    - intros p stmt s o s' [I1 [I2 [I3 I4]]] H.
      destruct (match stmt with
                | ExprStmt e => is_fn_def e && is_fn p
                | _ => false
                end) eqn:Ed.
      + destruct stmt as [[v|b args|[f|f fs body]]|l0|c t e]; try discriminate.
        destruct p as [|p]; [discriminate|].
        destruct (Map_get (_nested_func_args_map s) f) as [cs|] eqn:Ecs.
        * rewrite (@postProcessStmt_lift p f fs body cs s Ecs) in H.
          cbv zeta in H. inversion H; subst. simpl.
          split; [reflexivity|]. split; [exact I2|]. split; [exact I3|].
          intros k. rewrite Map_get_put.
          destruct (Symbol_eq_dec f k) as [<-|N]; [congruence | apply I4].
        * unfold postProcessStmt, hasEnclosingFunction in H.
          rewrite Ecs in H. discriminate.
      + rewrite (postProcessStmt_other p stmt s Ed) in H.
        inversion H; subst. auto.
    - simpl. split; [reflexivity|]. split; [constructor|].
      split; [intros s []|]. intros k Hk. exfalso. apply Hk. reflexivity. }
  destruct Inv as [I1 [I2 [I3 I4]]].
  split; [exact I1|]. split; [exact I2|].
  split; intros k Hk; apply X; auto.
Qed.

(* ================================================================= *)
(** ** Modules without nested function, and statements at module level *)

(** X9: a module that holds no nested function definition, well formed or
    not, comes out of the pass as it went in: the capture-set map is
    empty, nothing is lifted, queued or associated, and no call changes. *)
Theorem pass_without_nested_function_is_identity (module_stmts : list Stmt) :
  nested_defs_of module_stmts = [] ->
  run module_stmts = Some module_stmts /\
  exists st,
    run_traversal module_stmts = Some (module_stmts, st) /\
    _nested_func_args_map st = [] /\
    _nested_func_sym_map st = [] /\
    _fn_call_worklist st = [] /\
    _fn_stmts_completed_so_far st = [].
Proof.
  intros H. pose proof (run_no_nested _ H) as E. split.
  - unfold run. rewrite E. simpl. rewrite app_nil_r. reflexivity.
  - eexists. split; [exact E|]. repeat split.
Qed.

Lemma pass_without_nested_function_witness :
  run scenario_flat = Some scenario_flat /\
  exists st,
    run_traversal scenario_flat = Some (scenario_flat, st) /\
    _nested_func_args_map st = [] /\
    _nested_func_sym_map st = [] /\
    _fn_call_worklist st = [] /\
    _fn_stmts_completed_so_far st = [].
Proof.
  exact (pass_without_nested_function_is_identity scenario_flat eq_refl).
Defined.

Lemma traverse_stmt_module_level (s : Stmt) (st : RemoveNestedFunctions)
    (out : list Stmt) (st' : RemoveNestedFunctions) :
  traverse_stmt ModuleSymbol s st = Some (out, st') ->
  exists s', out = [s'] /\ same_kind s s' /\ stmt_head s' = stmt_head s.
Proof.
  intros H. destruct s as [e|l|c t e]; simpl in H.
  - walk_step H.
    rewrite postProcessStmt_other in H
      by (destruct r as [v|b args|[f|f fs body]]; reflexivity).
    inversion H; subst. eexists. split; [reflexivity|]. split; [exact I|].
    apply traverse_expr_shape in E.
    destruct e as [v|b args|[f|f fs body]].
    + subst. reflexivity.
    + destruct E as [b' [args' ->]]. reflexivity.
    + subst. reflexivity.
    + destruct E as [b' ->]. reflexivity.
  - walk_step H. rewrite postProcessStmt_other in H by reflexivity.
    inversion H; subst. eexists. split; [reflexivity|]. split; [exact I|].
    reflexivity.
  - walk_step H. walk_step H. walk_step H.
    rewrite postProcessStmt_other in H by reflexivity.
    inversion H; subst. eexists. split; [reflexivity|]. split; [exact I|].
    reflexivity.
Qed.

Lemma traverse_AList_module_level (l : list Stmt) :
  forall st out st',
    traverse_AList (traverse_stmt ModuleSymbol) l st = Some (out, st') ->
    Forall2 (fun s s' => same_kind s s' /\ stmt_head s' = stmt_head s) l out.
Proof.
  induction l as [|a l IH]; intros st out st' H; simpl in H.
  - inversion H; subst. constructor.
  - walk_step H. walk_step H. inversion H; subst.
    destruct (traverse_stmt_module_level _ _ E) as [s' [-> [K Hd]]].
    simpl. constructor; [split; assumption|]. eapply IH, E0.
Qed.

(** X10: the pass never removes, moves or replaces a statement at module
    level: the module it answers starts with one statement per statement
    of the module it was given, in order and of the same class, a function
    definition keeping its symbol and its formals; the lifted copies come
    after them. *)
Theorem module_level_statements_stay (module_stmts : list Stmt) :
  exists stmts st,
    run_traversal module_stmts = Some (stmts, st) /\
    run module_stmts = Some (stmts ++ _fn_stmts_completed_so_far st) /\
    Forall2 (fun s s' => same_kind s s' /\ stmt_head s' = stmt_head s)
            module_stmts stmts.
Proof.
  destruct (run_traversal_total module_stmts) as [stmts [st E]].
  exists stmts, st. split; [exact E|].
  split; [unfold run; rewrite E; reflexivity|].
  unfold run_traversal in E.
  destruct (RemoveNestedFunctions_new module_stmts) as [st0|];
    [|discriminate].
  eapply traverse_AList_module_level, E.
Qed.

(* ================================================================= *)
(** ** The loop of [enclVarUsesHelper], from any state *)

Lemma compare_for_changes_failed (iter : Map SymVec) (fns : list FnInfo) :
  fold_left (compare_for_changes iter) fns None = None.
Proof.
  induction fns as [|a fns IH]; simpl; auto.
Qed.

Lemma compare_for_changes_any (iter : Map SymVec) (fns : list FnInfo) :
  forall global change global' change',
    fold_left (compare_for_changes iter) fns (Some (global, change))
    = Some (global', change') ->
    (forall k, Map_get global' k = None <-> Map_get global k = None) /\
    (forall k, incl (contents global k) (contents global' k)) /\
    ((forall k v, Map_get global k = Some v -> NoDup v) ->
     forall k v, Map_get global' k = Some v -> NoDup v).
Proof.
  induction fns as [|a fns IH]; intros G c G' c' H; simpl in H.
  - inversion H; subst. split; [tauto|]. split; [intros k; apply incl_refl|auto].
  - destruct (Map_get iter (fn_symbol a)) as [i|];
      [|rewrite compare_for_changes_failed in H; discriminate].
    destruct (Map_get G (fn_symbol a)) as [g|] eqn:Eg;
      [|rewrite compare_for_changes_failed in H; discriminate].
    destruct (Nat.eqb (List.length g) (List.length i)).
    + apply (IH _ _ _ _ H).
    + destruct (IH _ _ _ _ H) as [K [Gr ND]]. split; [|split].
      * intros k. rewrite K, Map_get_put.
        destruct (Symbol_eq_dec (fn_symbol a) k) as [<-|N]; [|tauto].
        rewrite Eg. split; discriminate.
      * intros k. eapply incl_tran; [|apply Gr].
        rewrite contents_put.
        destruct (Symbol_eq_dec (fn_symbol a) k) as [<-|N]; [|apply incl_refl].
        unfold contents. rewrite Eg. intros p Hp.
        apply In_fold_add_exclusive. left. exact Hp.
      * intros HG. apply ND. intros k v. rewrite Map_get_put.
        destruct (Symbol_eq_dec (fn_symbol a) k) as [<-|N]; [|apply HG].
        intros [= <-]. apply NoDup_fold_add_exclusive. apply (HG _ _ Eg).
Qed.

(** X11: whatever the functions, the two maps and the number of rounds the loop
    of [enclVarUsesHelper] is started with, a result it gives has an entry
    for exactly the symbols the global map had one for, every capture set
    of the result holds at least the slots it held at the start, and
    capture sets that had no duplicate have none in the result. *)
Theorem capture_sets_only_grow
    (fuel : nat) (fns : list FnInfo) (global iter result : Map SymVec) :
  enclVarUses_loop fuel fns global iter = Some result ->
  (forall k, Map_get result k = None <-> Map_get global k = None) /\
  (forall k, incl (contents global k) (contents result k)) /\
  ((forall k v, Map_get global k = Some v -> NoDup v) ->
   forall k v, Map_get result k = Some v -> NoDup v).
Proof.
  revert global iter.
  induction fuel as [|fuel IH]; intros global iter H; [discriminate|].
  simpl in H.
  destruct (fold_left (compare_for_changes (analysis_round fns iter)) fns
                      (Some (global, false))) as [[G' c]|] eqn:EF;
    [|discriminate].
  destruct (compare_for_changes_any _ _ _ _ EF) as [K [Gr ND]].
  destruct c.
  - destruct (IH _ _ H) as [K' [Gr' ND']]. split; [|split].
    + intros k. rewrite K'. apply K.
    + intros k. eapply incl_tran; [apply Gr | apply Gr'].
    + intros HG. apply ND', ND, HG.
  - inversion H; subst. auto.
Qed.

Lemma capture_sets_only_grow_witness :
  (forall k, Map_get [(sym_g, [Some sym_x])] k = None <->
             Map_get (initial_args_map (all_nested_functions_of scenario_A)) k
             = None) /\
  (forall k, incl (contents (initial_args_map
                               (all_nested_functions_of scenario_A)) k)
                  (contents [(sym_g, [Some sym_x])] k)).
Proof.
  destruct (@capture_sets_only_grow 3 (all_nested_functions_of scenario_A)
              (initial_args_map (all_nested_functions_of scenario_A)) []
              [(sym_g, [Some sym_x])] eq_refl) as [K [G _]].
  split; [exact K | exact G].
Defined.

(* ================================================================= *)
(** ** The result of the analysis is a fixed point *)

Lemma same_set_refl (v : SymVec) : same_set v v.
Proof. split; apply incl_refl. Qed.

Lemma same_set_sym (v w : SymVec) : same_set v w -> same_set w v.
Proof. intros [H1 H2]. split; assumption. Qed.

Lemma same_set_trans (u v w : SymVec) :
  same_set u v -> same_set v w -> same_set u w.
Proof.
  intros [H1 H2] [H3 H4]. split; eapply incl_tran; eassumption.
Qed.

(** In a round each function is analysed against a map whose capture sets
    are those the round started with or those it ends with. *)
Lemma analysis_round_uses (fns : list FnInfo) :
  NoDup (map fn_symbol fns) ->
  forall iter fn,
    In fn fns ->
    exists m,
      Map_get (analysis_round fns iter) (fn_symbol fn)
      = Some (analysis_of fn m) /\
      forall k, contents m k = contents iter k \/
                contents m k = contents (analysis_round fns iter) k.
Proof.
  unfold analysis_round.
  induction fns as [|a fns IH]; intros ND iter fn Hfn; [destruct Hfn|].
  inversion ND as [|? ? Ha ND']; subst. cbn [fold_left].
  destruct (@analysis_round_entries fns ND' (fst (findEnclScopeVarUses a iter [])))
    as [_ Keep].
  unfold analysis_round in Keep.
  destruct Hfn as [E|Hfn].
  - subst fn. exists iter. split; [|intros k; left; reflexivity].
    rewrite (Keep _ Ha). unfold findEnclScopeVarUses. simpl.
    apply Map_get_put_eq.
  - destruct (IH ND' (fst (findEnclScopeVarUses a iter [])) fn Hfn)
      as [m [Em Hm]].
    exists m. split; [exact Em|].
    intros k. destruct (Hm k) as [Hk|Hk]; [|right; exact Hk].
    rewrite Hk.
    destruct (Symbol_eq_dec (fn_symbol a) k) as [<-|N].
    + right. unfold contents. rewrite (Keep _ Ha). reflexivity.
    + left. unfold findEnclScopeVarUses. simpl. rewrite contents_put.
      destruct (Symbol_eq_dec (fn_symbol a) k); [contradiction|reflexivity].
Qed.

(** When the loop ends, the last round has changed no capture set of the
    iteration map, and the result has the capture sets of that round. *)
Lemma enclVarUses_loop_stable (fns : list FnInfo) :
  NoDup (map fn_symbol fns) ->
  forall fuel global iter result,
    loop_inv fns global iter ->
    (forall k, ~ In k (map fn_symbol fns) ->
               Map_get global k = None /\ Map_get iter k = None) ->
    enclVarUses_loop fuel fns global iter = Some result ->
    exists iter0,
      (forall k, same_set (contents iter0 k)
                          (contents (analysis_round fns iter0) k)) /\
      (forall k, same_set (contents result k)
                          (contents (analysis_round fns iter0) k)).
Proof.
  intros ND. induction fuel as [|fuel IH]; intros G I A Inv Out H;
    [discriminate|].
  simpl in H.
  destruct (loop_round ND Inv) as [G' [c [EF [Inv' [CF [CT [Gr K]]]]]]].
  rewrite EF in H.
  destruct (@analysis_round_entries fns ND I) as [_ Keep].
  destruct c.
  - apply (IH G' (analysis_round fns I) A Inv'); [|exact H].
    intros k Hk. destruct (Out k Hk) as [O1 O2].
    split; [rewrite (K _ Hk); exact O1 | rewrite (Keep _ Hk); exact O2].
  - inversion H; subst A. specialize (CF eq_refl). subst G'.
    exists I. split; intros k;
      (destruct (in_dec Symbol_eq_dec k (map fn_symbol fns)) as [Hk|Hk];
       [apply in_map_iff in Hk; destruct Hk as [fn [<- Hfn]]
       |destruct (Out k Hk) as [O1 O2]]).
    + destruct Inv as [Sync _]. destruct Inv' as [Sync' _].
      destruct (Sync fn Hfn) as [g [Eg [_ [I1 [I2 _]]]]].
      destruct (Sync' fn Hfn) as [g' [Eg' [_ [I1' [I2' _]]]]].
      rewrite Eg in Eg'. inversion Eg'; subst g'.
      split; eapply incl_tran; eassumption.
    + unfold contents. rewrite (Keep _ Hk). apply same_set_refl.
    + destruct Inv' as [Sync' _].
      destruct (Sync' fn Hfn) as [g' [Eg' [_ [I1' [I2' _]]]]].
      unfold contents at 1. rewrite Eg'. split; assumption.
    + unfold contents. rewrite (Keep _ Hk), O1, O2. apply same_set_refl.
Qed.

Lemma initial_args_map_keys (fns : list FnInfo) (k : Symbol) :
  ~ In k (map fn_symbol fns) -> Map_get (initial_args_map fns) k = None.
Proof.
  intros Hk. unfold initial_args_map.
  assert (G : forall l (m : Map SymVec),
             Map_get m k = None -> ~ In k (map fn_symbol l) ->
             Map_get (fold_left (fun m fn => Map_put m (fn_symbol fn) []) l m) k
             = None).
  { induction l as [|a l IH]; intros m Hm Hl; simpl in *; auto.
    apply IH; [|tauto]. rewrite Map_get_put_neq; [exact Hm | tauto]. }
  apply G; [reflexivity | exact Hk].
Qed.

(** X12: the capture sets [enclVarUsesHelper] answers are a fixed point of the
    analysis, although the loop compares lengths only: analysed once more
    against the resulting map, every nested function uses exactly the
    variables of its capture set. *)
Theorem analysis_result_is_a_fixed_point (module_stmts : list Stmt) :
  exists args_map,
    enclVarUsesHelper module_stmts = Some args_map /\
    forall fn, In fn (all_nested_functions_of module_stmts) ->
      same_set (contents args_map (fn_symbol fn)) (analysis_of fn args_map).
Proof.
  destruct (enclVarUsesHelper_total module_stmts) as [A [E _]].
  exists A. split; [exact E|]. intros fn Hfn.
  pose proof (all_nested_functions_NoDup module_stmts) as ND.
  unfold enclVarUsesHelper, enclVarUsesHelper_fuel in E.
  set (fns := all_nested_functions_of module_stmts) in *.
  destruct (@enclVarUses_loop_stable fns ND (rounds_bound fns)
              (initial_args_map fns) [] A (initial_loop_inv fns))
    as [I0 [Stable Res]].
  { intros k Hk. split; [apply initial_args_map_keys, Hk | reflexivity]. }
  { exact E. }
  destruct (@analysis_round_uses fns ND I0 fn Hfn) as [m [Em Hm]].
  assert (HmA : forall k, same_set (contents m k) (contents A k)).
  { intros k. destruct (Hm k) as [-> | ->].
    - eapply same_set_trans; [apply Stable | apply same_set_sym, Res].
    - apply same_set_sym, Res. }
  eapply same_set_trans; [apply Res|].
  unfold contents at 1. rewrite Em. unfold analysis_of.
  split; apply getEnclosingFuncVarUses_mono; intros k; apply HmA.
Qed.

(* ================================================================= *)
(** ** The books of the pass only grow *)

Lemma postProcessExpr_worklist (e e' : Expr) (st st' : RemoveNestedFunctions) :
  postProcessExpr e st = (e', st') ->
  incl (_fn_call_worklist st) (_fn_call_worklist st').
Proof.
  intros H.
  destruct e as [v|b args|d];
    try (rewrite postProcessExpr_not_call in H by discriminate;
         inversion H; subst; apply incl_refl).
  unfold postProcessExpr in H.
  destruct (findFnSymbol b) as [f|]; [|inversion H; subst; apply incl_refl].
  destruct (Map_get (_nested_func_args_map st) f) as [cs|];
    [|inversion H; subst; apply incl_refl].
  unfold addNestedFuncActuals in H.
  destruct (match Map_get (_nested_func_sym_map st) f with
            | Some s => match sym_class s with
                        | FN_SYMBOL => Some s
                        | _ => None
                        end
            | None => None
            end); inversion H; subst; simpl; [apply incl_refl|].
  intros x Hx. apply In_Vec_add_exclusive. left. exact Hx.
Qed.

(** X13: along the walk of any statement list, from any state: an association
    from an old symbol to a new one, once recorded, stays recorded; a
    symbol in the worklist stays in it; no lifted copy is dropped; and the
    identities handed out are never handed out again. *)
Theorem walk_books_only_grow
    (parentSymbol : ParentSymbol) (l : list Stmt)
    (st : RemoveNestedFunctions) (out : list Stmt) (st' : RemoveNestedFunctions) :
  traverse_AList (traverse_stmt parentSymbol) l st = Some (out, st') ->
  (forall k, Map_get (_nested_func_sym_map st) k <> None ->
             Map_get (_nested_func_sym_map st') k <> None) /\
  incl (_fn_call_worklist st) (_fn_call_worklist st') /\
  List.length (_fn_stmts_completed_so_far st)
  <= List.length (_fn_stmts_completed_so_far st') /\
  next_sym_id st <= next_sym_id st'.
Proof.
  apply (traverse_AList_preserves
           (fun s =>
              (forall k, Map_get (_nested_func_sym_map st) k <> None ->
                         Map_get (_nested_func_sym_map s) k <> None) /\
              incl (_fn_call_worklist st) (_fn_call_worklist s) /\
              List.length (_fn_stmts_completed_so_far st)
              <= List.length (_fn_stmts_completed_so_far s) /\
              next_sym_id st <= next_sym_id s)).
  - intros e s e' s' [I1 [I2 [I3 I4]]] H.
    pose proof (postProcessExpr_worklist _ _ H) as F3.
    apply postProcessExpr_frame in H. destruct H as [_ [F1 [F2 F4]]].
    rewrite F1, F2, F4. split; [exact I1|]. split; [|split; assumption].
    eapply incl_tran; eassumption.
  - intros p stmt s o s' [I1 [I2 [I3 I4]]] H.
    destruct (match stmt with
              | ExprStmt e => is_fn_def e && is_fn p
              | _ => false
              end) eqn:Ed.
    + destruct stmt as [[v|b args|[f|f fs body]]|l0|c t e]; try discriminate.
      destruct p as [|p]; [discriminate|].
      destruct (Map_get (_nested_func_args_map s) f) as [cs|] eqn:Ecs.
      * rewrite (@postProcessStmt_lift p f fs body cs s Ecs) in H.
        cbv zeta in H. inversion H; subst. simpl.
        split; [|split; [exact I2|split]].
        -- intros k Hk. rewrite Map_get_put.
           destruct (Symbol_eq_dec f k); [discriminate | apply I1, Hk].
        -- destruct (Vec_in Symbol_eq_dec (_fn_call_worklist s) f);
             [rewrite length_map|]; rewrite length_app; simpl; lia.
        -- lia.
      * unfold postProcessStmt, hasEnclosingFunction in H.
        rewrite Ecs in H. discriminate.
    + rewrite (postProcessStmt_other p stmt s Ed) in H.
      inversion H; subst. auto.
  - split; [auto|]. split; [apply incl_refl|]. split; lia.
Qed.

Lemma walk_books_only_grow_witness :
  exists stmts st,
    run_traversal scenario_mutual = Some (stmts, st) /\
    List.length (_fn_stmts_completed_so_far
                   (mkPass [(sym_h, [Some sym_y; Some sym_x]);
                            (sym_g, [Some sym_x; Some sym_y])] [] [] [] 6))
    <= List.length (_fn_stmts_completed_so_far st).
Proof.
  eexists. eexists. split; [vm_compute; reflexivity|].
  eapply (@walk_books_only_grow ModuleSymbol scenario_mutual
            (mkPass [(sym_h, [Some sym_y; Some sym_x]);
                     (sym_g, [Some sym_x; Some sym_y])] [] [] [] 6)).
  vm_compute. reflexivity.
Defined.

(* ================================================================= *)
(** ** The body of a lifted function *)

Lemma map_Forall_id (A : Type) (f : A -> A) (l : list A) :
  Forall (fun a => f a = a) l -> map f l = l.
Proof.
  induction 1 as [|a l Ha _ IH]; simpl; [reflexivity | rewrite Ha, IH; reflexivity].
Qed.

(** [UpdateSymbols] leaves a subtree alone when the map has no entry for
    the variables the subtree refers to. *)
Lemma UpdateSymbols_no_entry (m : Map Symbol) :
  (forall e, (forall v, In v (sym_uses_expr e) -> Map_get m v = None) ->
             UpdateSymbols_expr m e = e) /\
  (forall d, (forall v, In v (sym_uses_def d) -> Map_get m v = None) ->
             UpdateSymbols_def m d = d) /\
  (forall s, (forall v, In v (sym_uses s) -> Map_get m v = None) ->
             UpdateSymbols m s = s).
Proof.
  assert (HL : forall (A : Type) (uses : A -> list Symbol) (f : A -> A)
                      (l : list A),
             Forall (fun a => (forall v, In v (uses a) -> Map_get m v = None) ->
                              f a = a) l ->
             (forall v, In v (flat_map uses l) -> Map_get m v = None) ->
             map f l = l).
  { intros A uses f l HF Hv. apply map_Forall_id.
    rewrite Forall_forall in *. intros a Ha. apply (HF a Ha).
    intros v Hin. apply Hv, in_flat_map. exists a. auto. }
  apply ast_ind; simpl; intros.
  - rewrite (H v (or_introl eq_refl)). reflexivity.
  - rewrite H by (intros v Hv; apply H1, in_or_app; auto).
    rewrite (HL _ sym_uses_expr _ _ H0)
      by (intros v Hv; apply H1, in_or_app; auto).
    reflexivity.
  - rewrite (H H0). reflexivity.
  - reflexivity.
  - rewrite (HL _ sym_uses _ _ H H0). reflexivity.
  - rewrite (H H0). reflexivity.
  - rewrite (HL _ sym_uses _ _ H H0). reflexivity.
  - rewrite H by (intros v Hv; apply H2, in_or_app; auto).
    rewrite (HL _ sym_uses _ _ H0)
      by (intros v Hv; apply H2, in_or_app; right; apply in_or_app; auto).
    rewrite (HL _ sym_uses _ _ H1)
      by (intros v Hv; apply H2, in_or_app; right; apply in_or_app; auto).
    reflexivity.
Qed.

(** X14: [addNestedFuncFormals] changes the body of the copy only through the
    captured variables: a body that refers to no variable of the vector
    (an empty vector, a vector of NULL slots, or variables the body does
    not name) is kept as it is, the formals being added all the same. *)
Theorem body_without_captured_reference_is_kept
    (new_sym : Symbol) (formals : list Symbol) (body : list Stmt)
    (encl_var_uses : SymVec) (old_func_sym : Symbol)
    (st : RemoveNestedFunctions) :
  (forall v, In v (flat_map sym_uses body) -> ~ In (Some v) encl_var_uses) ->
  fst (addNestedFuncFormals (DefExpr (FnSymbol new_sym formals body))
                            encl_var_uses old_func_sym st)
  = DefExpr (FnSymbol new_sym
      (formals ++ new_formals encl_var_uses (next_sym_id st)) body) /\
  Map_get (_nested_func_sym_map
             (snd (addNestedFuncFormals (DefExpr (FnSymbol new_sym formals body))
                                        encl_var_uses old_func_sym st)))
          old_func_sym
  = Some new_sym.
Proof.
  intros H. rewrite addNestedFuncFormals_spec. simpl.
  split; [|apply Map_get_put_eq].
  f_equal. f_equal.
  destruct (Nat.eqb (List.length encl_var_uses) 0); [reflexivity|].
  apply map_Forall_id, Forall_forall. intros s Hs.
  apply UpdateSymbols_no_entry. intros v Hv.
  rewrite new_update_map_other; [reflexivity|].
  apply H, in_flat_map. exists s. auto.
Qed.

Lemma body_without_captured_reference_witness :
  fst (addNestedFuncFormals
         (DefExpr (FnSymbol (mkSymbol 4 "g" 0 FN_SYMBOL) [sym_y]
                            [ExprStmt (SymExpr sym_y)]))
         [None; Some sym_x] sym_g state_A)
  = DefExpr (FnSymbol (mkSymbol 4 "g" 0 FN_SYMBOL)
      ([sym_y] ++ new_formals [None; Some sym_x] (next_sym_id state_A))
      [ExprStmt (SymExpr sym_y)]).
Proof.
  refine (proj1 (@body_without_captured_reference_is_kept
                   (mkSymbol 4 "g" 0 FN_SYMBOL) [sym_y]
                   [ExprStmt (SymExpr sym_y)]
                   [None; Some sym_x] sym_g state_A _)).
  intros v [<-|[]] [H|[H|[]]]; discriminate.
Defined.
